(** * rpmautospec: the commit-history analysis engine

    A shallow embedding of [rpmautospec/pkg_history.py]
    (class [PkgHistoryProcessor]) and the properties of its two visitors
    and of the graph walker [_run_on_history].

    Python objects are modelled as follows.
    - A [pygit2.Commit] is a value of the inductive type [Commit]; its
      [parents] are commits again.  pygit2 compares and hashes objects by
      their id, so every dictionary keyed by commits is a [gmap] keyed by
      [id].
    - A result dictionary is a [gmap string pyval].
    - A call that may raise is a value of [outcome]; the class of the
      exception is not tracked, only whether the call returns.
    - A generator is the pair of what its first [next] yields and of the
      function that [send] resumes.
    - The two [while] loops of the walker that follow no structure take
      fuel and give [None] when it runs out; the loop along first parents
      is a recursion on the commit, the loop over a branch a recursion on
      the branch.
    - The collaborators that live outside the repository (the rpm query
      tool, the tree diff of libgit2, [Repository.walk], [strftime],
      [textwrap]) are section variables. *)

From Stdlib Require Import ZArith Lia Ascii String.
From stdpp Require Import base option list gmap strings pretty.

Set Warnings "-register-all".
Set Default Proof Using "Type".

Open Scope Z_scope.

(** ** Outcomes *)

Inductive outcome (A : Type) : Type :=
| Returns (a : A)
| Raises.
Arguments Returns {A} a.
Arguments Raises {A}.

#[global] Instance outcome_ret : MRet outcome := λ A a, Returns a.
#[global] Instance outcome_bind : MBind outcome := λ A B f m,
  match m with
  | Returns a => f a
  | Raises => Raises
  end.

(** [mapM]-like traversal in list order, stopping at the first raise. *)
Fixpoint outcome_map {A B : Type} (f : A → outcome B) (l : list A)
  : outcome (list B) :=
  match l with
  | [] => Returns []
  | a :: l' => b ← f a; bs ← outcome_map f l'; Returns (b :: bs)
  end.

(** ** Strings the way Python treats them *)

(** [str.isspace] on the ASCII range. *)
Definition py_isspace (c : ascii) : bool :=
  let n := nat_of_ascii c in
  ((9 <=? n)%nat && (n <=? 13)%nat) || ((28 <=? n)%nat && (n <=? 32)%nat).

Fixpoint lstrip (s : string) : string :=
  match s with
  | String c s' => if py_isspace c then lstrip s' else s
  | EmptyString => EmptyString
  end.

Definition str_truthy (s : string) : bool :=
  match s with
  | EmptyString => false
  | String _ _ => true
  end.

Fixpoint rstrip (s : string) : string :=
  match s with
  | EmptyString => EmptyString
  | String c s' =>
      let r := rstrip s' in
      if py_isspace c && negb (str_truthy r) then EmptyString else String c r
  end.

Definition strip (s : string) : string := rstrip (lstrip s).

(** [s.split("\n")] *)
Fixpoint split_lines (s : string) : list string :=
  match s with
  | EmptyString => [EmptyString]
  | String c s' =>
      if Ascii.eqb c "010"%char then EmptyString :: split_lines s'
      else
        match split_lines s' with
        | h :: t => String c h :: t
        | [] => [String c EmptyString]
        end
  end.

Definition startswith_dash (s : string) : bool :=
  match s with
  | String c _ => Ascii.eqb c "-"%char
  | EmptyString => false
  end.

Definition tail_str (s : string) : string :=
  match s with
  | String _ s' => s'
  | EmptyString => EmptyString
  end.

Definition is_digit (c : ascii) : bool :=
  let n := nat_of_ascii c in (48 <=? n)%nat && (n <=? 57)%nat.

(** [int(s)] for a string of decimal digits. *)
Fixpoint int_of_digits (acc : Z) (s : string) : Z :=
  match s with
  | EmptyString => acc
  | String c s' => int_of_digits (10 * acc + Z.of_nat (nat_of_ascii c) - 48) s'
  end.

(** ** [fnmatch.fnmatchcase]

    The translation of a pattern into a regular expression, for patterns
    made of literal characters, [*] and [?]: [*] matches any run of
    characters (the slash included), [?] one character.  The ignore
    patterns of the class contain no bracket expression. *)
Fixpoint fnmatchcase_go (pat : string) (f : string) : bool :=
  match pat with
  | EmptyString =>
      match f with
      | EmptyString => true
      | String _ _ => false
      end
  | String p pat' =>
      if Ascii.eqb p "*"%char then
        (fix star (g : string) : bool :=
           fnmatchcase_go pat' g ||
           match g with
           | EmptyString => false
           | String _ g' => star g'
           end) f
      else
        match f with
        | EmptyString => false
        | String c f' =>
            (Ascii.eqb p "?"%char || Ascii.eqb p c) && fnmatchcase_go pat' f'
        end
  end.

Definition fnmatchcase (f pat : string) : bool := fnmatchcase_go pat f.

(** ** Git objects *)

Abbreviation oid := positive (only parsing).

(** A blob is its content; two blobs are equal when their ids are, that is,
    when their contents are. *)
Abbreviation blob := string (only parsing).

(** A tree maps the paths below it to blobs; tree equality is equality of
    the tree ids, that is, of the contents. *)
Abbreviation git_tree := (gmap string string) (only parsing).

Record signature := Signature { name_of : string; email : string }.

Inductive Commit : Type :=
  MkCommit {
    id : oid;
    parents : list Commit;
    tree : git_tree;
    author : signature;
    commit_time : Z;
    message : string;
  }.

(** [pygit2.Object.__eq__]: by id. *)
Definition commit_eqb (c d : Commit) : bool := bool_decide (id c = id d).

Record diff_file := DiffFile { path : string }.

(** A [DiffDelta]; [old_file] and [new_file] are objects, tested for
    truth by the source. *)
Record diff_delta := DiffDelta {
  old_file : option diff_file;
  new_file : option diff_file;
}.

(** ** Values stored in result dictionaries *)

(** A changelog entry: the dictionary with the keys ["commit-id"], ["data"]
    and, only on anomalies, ["error"]. *)
Record changelog_entry := ChangelogEntry {
  entry_commit_id : oid;
  entry_data : string;
  entry_error : option string;
}.

#[global] Instance changelog_entry_eq_dec : EqDecision changelog_entry.
Proof. solve_decision. Defined.

Inductive pyval : Type :=
| PyNone
| PyStr (s : string)
| PyInt (z : Z)
| PyOid (o : oid)
| PyCommit (c : Commit)
| PyTuple (es : list changelog_entry).

Abbreviation result := (gmap string pyval) (only parsing).

(** Python's [==] on these values.  Values of different types are never
    equal: [Oid.__eq__] and [Object.__eq__] of pygit2 both return
    [NotImplemented] for an operand of another type, and Python then
    falls back to identity.  Commits compare by id. *)
Definition py_eq (a b : pyval) : bool :=
  match a, b with
  | PyNone, PyNone => true
  | PyStr s, PyStr t => bool_decide (s = t)
  | PyInt x, PyInt y => bool_decide (x = y)
  | PyOid x, PyOid y => bool_decide (x = y)
  | PyCommit c, PyCommit d => commit_eqb c d
  | PyTuple x, PyTuple y => bool_decide (x = y)
  | _, _ => false
  end.

(** [d[k]]: raises [KeyError] on a missing key. *)
Definition getitem (d : result) (k : string) : outcome pyval :=
  match d !! k with
  | Some v => Returns v
  | None => Raises
  end.

(** [d.get(k, dflt)]. *)
Definition get_default (d : result) (k : string) (dflt : pyval) : pyval :=
  default dflt (d !! k).

(** Truth value of a dictionary. *)
Definition dict_truthy (d : result) : bool := negb (bool_decide (d = ∅)).

Definition of_opt_str (o : option string) : pyval :=
  match o with
  | Some s => PyStr s
  | None => PyNone
  end.

(** The second half of a visitor: what [send((commit_result,
    parent_results))] computes. *)
Abbreviation coroutine := (result → list result → outcome result) (only parsing).

(** A visitor function: called with the commit and
    [children_must_continue], its first [next] runs up to the first
    [yield] and gives [must_continue]; what remains is the coroutine that
    [send] resumes. *)
Abbreviation visitor := (Commit → bool → outcome (bool * coroutine)) (only parsing).

(** ** Version flags *)

Record verflags := VerFlags {
  epoch_version : string;
  extraver : option string;
  snapinfo : option string;
  prerelease : option bool;
  base : option Z;
}.

(** Longest prefix without an underscore, and the rest. *)
Fixpoint span_no_underscore (s : string) : string * string :=
  match s with
  | EmptyString => (EmptyString, EmptyString)
  | String c s' =>
      if Ascii.eqb c "_"%char then (EmptyString, s)
      else let '(a, b) := span_no_underscore s' in (String c a, b)
  end.

(** Longest prefix of digits, and whether what follows is the end of the
    string (or a final newline, which [$] also accepts). *)
Fixpoint span_digits_end (s : string) : option string :=
  match s with
  | EmptyString => Some EmptyString
  | String c s' =>
      if is_digit c then String c <$> span_digits_end s'
      else if Ascii.eqb c "010"%char && negb (str_truthy s') then Some EmptyString
      else None
  end.

(** [autorelease_flags_re.match(info)]: the groups [extraver],
    [snapinfo], [prerelease] and [base]. *)
Definition autorelease_flags_re_match (info : string)
  : option (string * string * string * string) :=
  match info with
  | String "E" r1 =>
      let '(ev, r2) := span_no_underscore r1 in
      match r2 with
      | String "_" (String "S" r3) =>
          let '(si, r4) := span_no_underscore r3 in
          match r4 with
          | String "_" (String "P" (String p (String "_" (String "B" r5)))) =>
              if Ascii.eqb p "0"%char || Ascii.eqb p "1"%char then
                b ← span_digits_end r5; Some (ev, si, String p EmptyString, b)
              else None
          | _ => None
          end
      | _ => None
      end
  | _ => None
  end.

Definition or_none (s : string) : option string :=
  if str_truthy s then Some s else None.

(** A directory on disk: its name and the files in it. *)
Record directory := Directory {
  dir_name : string;
  dir_files : gmap string string;
}.

Record processor := Processor { name : string }.

(** [self.specfile.name]; [__init__] makes it [f"{self.name}.spec"] on
    both of its paths. *)
Definition specfile_name (self : processor) : string := name self +:+ ".spec".

(** The spec file [_get_rpmverflags] looks for: [name] falls back to the
    name of the directory when it is [None] or empty. *)
Definition specfile_in (path : directory) (name : option string) : string :=
  let name :=
    match name with
    | Some n => if str_truthy n then n else dir_name path
    | None => dir_name path
    end in
  name +:+ ".spec".

(** ** Sample collaborators and histories

    Concrete stand-ins for the collaborators, and small histories, on which
    the statements below are instantiated. *)
Module Sample.

(** The query prints the spec file as it is, and fails on a file that
    starts with an exclamation mark. *)
Definition rpm (d : directory) (spec : string) : option string :=
  match dir_files d !! spec with
  | Some (String "!" _) => None
  | o => o
  end.

(** The paths on which two flat trees differ. *)
Definition flat_diff (a : git_tree) (b : option git_tree) (swap : bool)
  : list diff_delta :=
  let b := default ∅ b in
  (λ p, DiffDelta (Some (DiffFile p)) (Some (DiffFile p)))
    <$> filter (λ p, a !! p ≠ b !! p) (elements (dom a ∪ dom b)).

Definition strftime (t : Z) : outcome string := Returns ("day " +:+ pretty t).

Definition same (s : string) : string := s.

Definition obj (v : pyval) : string := "<object>".

(** Every commit below the head, the head first, with repetitions. *)
Fixpoint walk_all (c : Commit) : list Commit :=
  match c with
  | MkCommit _ ps _ _ _ _ =>
      c :: (fix go (l : list Commit) : list Commit :=
              match l with
              | [] => []
              | p :: l' => walk_all p ++ go l'
              end) ps
  end.

(** The first occurrence of every id. *)
Fixpoint first_occurrences (seen : list positive) (l : list Commit)
  : list Commit :=
  match l with
  | [] => []
  | c :: l' =>
      if bool_decide (id c ∈ seen) then first_occurrences seen l'
      else c :: first_occurrences (id c :: seen) l'
  end.

(** The walk yields every commit below the head once. *)
Definition walk (c : Commit) : list Commit := first_occurrences [] (walk_all c).

Definition me : signature := Signature "N" "n@e".

Definition pkg : processor := Processor "pkg".

Definition spec (v : string) : string := v +:+ "
E_S_P0_B".

Definition c1 : Commit :=
  MkCommit 1 [] {[ "pkg.spec" := spec "1.0" ]} me 0 "init".

Definition c2 : Commit :=
  MkCommit 2 [c1] {[ "pkg.spec" := spec "1.0"; "a" := "x" ]} me 10 "add a".

Definition c3 : Commit :=
  MkCommit 3 [c2]
    {[ "pkg.spec" := spec "1.0"; "a" := "x"; "gating.yaml" := "g" ]}
    me 20 "gating".

Definition c4 : Commit :=
  MkCommit 4 [c2] {[ "pkg.spec" := spec "1.0"; "a" := "y" ]} me 30 "- change a".

(** A merge that keeps the tree of its first parent. *)
Definition c5 : Commit :=
  MkCommit 5 [c3; c4]
    {[ "pkg.spec" := spec "1.0"; "a" := "x"; "gating.yaml" := "g" ]}
    me 40 "merge ours".

(** A merge whose tree is the tree of no parent. *)
Definition c6 : Commit :=
  MkCommit 6 [c3; c4]
    {[ "pkg.spec" := spec "1.0"; "a" := "z"; "gating.yaml" := "g" ]}
    me 40 "merge conflict".

(** A commit that changes nothing. *)
Definition c7 : Commit :=
  MkCommit 7 [c2] {[ "pkg.spec" := spec "1.0"; "a" := "x" ]} me 50 "rebuild".

(** A new version with a hand-written changelog: both visitors stop. *)
Definition c8 : Commit :=
  MkCommit 8 [c2]
    {[ "pkg.spec" := spec "2.0"; "a" := "x"; "changelog" := "by hand" ]}
    me 60 "update to 2.0".

(** Two more commits on the branch of [c4], and the merge of that branch
    with [c3]: the parents of the merge have the release numbers 3 and 5. *)
Definition c9 : Commit :=
  MkCommit 9 [c4] {[ "pkg.spec" := spec "1.0"; "a" := "y"; "b" := "1" ]}
    me 70 "add b".

Definition c10 : Commit :=
  MkCommit 10 [c9] {[ "pkg.spec" := spec "1.0"; "a" := "y"; "b" := "2" ]}
    me 80 "change b".

Definition c11 : Commit :=
  MkCommit 11 [c3; c10]
    {[ "pkg.spec" := spec "1.0"; "a" := "y"; "b" := "2"; "gating.yaml" := "g" ]}
    me 90 "merge both".

(** Entries [A] and [B] of a parent's changelog. *)
Definition entry_A : changelog_entry := ChangelogEntry 2 "A" None.

Definition entry_B : changelog_entry := ChangelogEntry 1 "B" None.

(** The entries the visitors make for some of the commits. *)
Definition entry_c1 : changelog_entry :=
  ChangelogEntry 1 "* day 0 N <n@e> 1.0-1
- init" None.

Definition entry_c2 : changelog_entry :=
  ChangelogEntry 2 "* day 10 N <n@e> 1.0-2
- add a" None.

Definition entry_c5 : changelog_entry :=
  ChangelogEntry 5 "* day 40 N <n@e> 1.0-4
- merge ours" None.

Definition entry_c7 : changelog_entry :=
  ChangelogEntry 7 "* day 50 N <n@e> 1.0-3
- rebuild" None.

(** A parent result with the changelog [[A, B]], and partial results as
    the release-number visitor leaves them. *)
Definition parent_AB : result := {[ "changelog" := PyTuple [entry_A; entry_B] ]}.

Definition partial_c3 : result :=
  {[ "commit-id" := PyOid 3; "epoch-version" := PyStr "1.0";
     "release-number" := PyInt 3; "release-complete" := PyStr "3" ]}.

Definition partial_c6 : result :=
  {[ "commit-id" := PyOid 6; "epoch-version" := PyStr "1.0";
     "release-number" := PyInt 4; "release-complete" := PyStr "4" ]}.

(** A history on which the discovery pass goes on for ever: the merge
    [h0] has the parents [a0] and [b0]; both visitors stop at [a0] (a new
    version with a hand-written changelog), so that its parent [cc], a
    child of [b0], is never discovered, and [b0] waits for it. *)
Definition b0 : Commit :=
  MkCommit 31 [] {[ "pkg.spec" := spec "1.0" ]} me 0 "base".

Definition cc : Commit :=
  MkCommit 32 [b0] {[ "pkg.spec" := spec "1.0"; "x" := "1" ]} me 1 "c".

Definition a0 : Commit :=
  MkCommit 33 [cc]
    {[ "pkg.spec" := spec "2.0"; "x" := "1"; "changelog" := "hand" ]}
    me 2 "a".

Definition h0 : Commit :=
  MkCommit 34 [a0; b0]
    {[ "pkg.spec" := spec "2.0"; "x" := "2"; "changelog" := "hand" ]}
    me 3 "merge".

(** A history without the spec file, and a merge in it. *)
Definition d1 : Commit := MkCommit 21 [] {[ "README" := "r" ]} me 0 "readme".

Definition d2 : Commit := MkCommit 22 [d1] {[ "README" := "s" ]} me 1 "edit".

Definition d3 : Commit := MkCommit 23 [d1] {[ "README" := "t" ]} me 2 "other".

Definition d4 : Commit :=
  MkCommit 24 [d2; d3] {[ "README" := "st" ]} me 3 "merge".

(** A commit whose spec file makes the query print a single line. *)
Definition e1 : Commit := MkCommit 41 [] {[ "pkg.spec" := "1.0" ]} me 0 "one".


End Sample.

Section Engine.

(** The rpm query of [_get_rpmverflags], run in the given directory on the
    given spec file name: the decoded output of [check_output], or [None]
    when the call or the decoding raises. *)
Variable rpm_specfile_query : directory → string → option string.

(** The name [TemporaryDirectory] picks. *)
Variable workdir_name : string.

Definition _get_rpmverflags (path : directory) (name : option string)
  : outcome (option verflags) :=
  let specfile := specfile_in path name in
  match dir_files path !! specfile with
  | None => Returns None
  | Some _ =>
      match rpm_specfile_query path specfile with
      | None => Returns None
      | Some raw =>
          let output := strip raw in
          let split_output := split_lines output in
          match split_output with
          | epoch_version :: info :: _ =>
              let '(extraver, snapinfo, prerelease, base) :=
                match autorelease_flags_re_match info with
                | Some (ev, si, p, b) =>
                    (or_none ev, or_none si,
                     Some (bool_decide (p = "1")),
                     Some (if str_truthy b then int_of_digits 0 b else 1))
                | None => (None, None, None, None)
                end in
              Returns (Some (VerFlags epoch_version extraver snapinfo prerelease base))
          | _ => Raises
          end
      end
  end.

(** The [lru_cache] only saves calls: the function is pure in the commit. *)
Definition _get_rpmverflags_for_commit (self : processor) (commit : Commit)
  : outcome (option verflags) :=
  match tree commit !! specfile_name self with
  | None => Returns None
  | Some specblob =>
      let workdir :=
        Directory workdir_name {[ specfile_name self := specblob ]} in
      _get_rpmverflags workdir (Some (name self))
  end.

(** *** The release-number visitor *)

Definition opt_str_truthy (o : option string) : bool :=
  match o with
  | Some s => str_truthy s
  | None => false
  end.

(** ["".join(f".{t}" for t in (extraver, snapinfo) if t)] *)
Definition tag_string_of (extraver snapinfo : option string) : string :=
  (if opt_str_truthy extraver then "." +:+ default "" extraver else "")
  +:+ (if opt_str_truthy snapinfo then "." +:+ default "" snapinfo else "").

(** One element of the generator handed to [max]. *)
Definition release_candidate (epoch_version : option string) (res : result)
  : outcome pyval :=
  if dict_truthy res then
    ev ← getitem res "epoch-version";
    if py_eq (of_opt_str epoch_version) ev
    then getitem res "release-number"
    else Returns (PyInt 0)
  else Returns (PyInt 0).

(** [max(..., default=0) + 1] over the generator, consumed in order.  A
    value that is not an integer makes either a comparison or the final
    addition raise. *)
Fixpoint max_release (epoch_version : option string)
    (parent_results : list result) (acc : option Z) : outcome Z :=
  match parent_results with
  | [] => Returns (default 0 acc)
  | res :: rest =>
      v ← release_candidate epoch_version res;
      match v with
      | PyInt z =>
          max_release epoch_version rest
            (Some match acc with Some m => Z.max m z | None => z end)
      | _ => Raises
      end
  end.

Definition release_number_resume (epoch_version : option string)
    (prerelease : option bool) (base : Z) (tag_string : string)
    (commit_result : result) (parent_results : list result) : outcome result :=
  let commit_result := <["epoch-version" := of_opt_str epoch_version]> commit_result in
  m ← max_release epoch_version parent_results None;
  let release_number := m + 1 in
  let commit_result := <["release-number" := PyInt release_number]> commit_result in
  let prerel_str := if default false prerelease then "0." else "" in
  let release_number_with_base := release_number + base - 1 in
  let commit_result :=
    <["release-complete" :=
        PyStr (prerel_str +:+ pretty release_number_with_base +:+ tag_string)]>
      commit_result in
  Returns commit_result.

(** The epoch-versions of the parents whose metadata is available. *)
Fixpoint epoch_versions_to_check (self : processor) (ps : list Commit)
  : outcome (list string) :=
  match ps with
  | [] => Returns []
  | p :: ps' =>
      verflags ← _get_rpmverflags_for_commit self p;
      rest ← epoch_versions_to_check self ps';
      Returns match verflags with
              | Some vf => epoch_version vf :: rest
              | None => rest
              end
  end.

Definition release_number_visitor (self : processor) (commit : Commit)
    (children_must_continue : bool) : outcome (bool * coroutine) :=
  verflags ← _get_rpmverflags_for_commit self commit;
  let '(epoch_version, prerelease, base, tag_string) :=
    match verflags with
    | Some vf =>
        (Some (epoch_version vf), prerelease vf, default 1 (base vf),
         tag_string_of (extraver vf) (snapinfo vf))
    | None => (None, None, 1, "")
    end in
  must_continue ←
    (if negb (opt_str_truthy epoch_version) then Returns true
     else
       to_check ← epoch_versions_to_check self (parents commit);
       Returns (bool_decide (default "" epoch_version ∈ to_check)));
  Returns (must_continue,
           release_number_resume epoch_version prerelease base tag_string).

(** *** The changelog visitor *)

Definition changelog_ignore_patterns : list string :=
  [".gitignore"; "gating.yaml"; "sources"; "tests/*"].

(** [tree.diff_to_tree(other, swap=...)] of libgit2; [other] is the empty
    tree when absent. *)
Variable diff_to_tree : git_tree → option git_tree → bool → list diff_delta.

(** [dt.datetime.utcfromtimestamp(t).strftime("%a %b %d %Y")]; raises for
    a time stamp outside the range of [datetime]. *)
Variable utc_strftime : Z → outcome string.

(** [TextWrapper(width=75, subsequent_indent="  ").fill] *)
Variable textwrap_fill : string → string.

(** [data.decode("utf-8", errors="replace")] *)
Variable decode_utf8_replace : string → string.

(** [str()] of the values that are objects of a library. *)
Variable object_str : pyval → string.

(** What an f-string makes of a value. *)
Definition format_value (v : pyval) : string :=
  match v with
  | PyNone => "None"
  | PyStr s => s
  | PyInt z => pretty z
  | _ => object_str v
  end.

Definition _files_changed_in_diff (diff : list diff_delta) : gset string :=
  foldl
    (λ files delta,
       let files :=
         match old_file delta with
         | Some f => files ∪ {[ path f ]}
         | None => files
         end in
       match new_file delta with
       | Some f => files ∪ {[ path f ]}
       | None => files
       end)
    ∅ diff.

(** The loop over the parents that clears [changelog_changed]. *)
Definition changelog_changed_of (commit : Commit) : bool :=
  let changelog_blob := tree commit !! "changelog" in
  match parents commit with
  | [] => bool_decide (is_Some changelog_blob)
  | _ :: _ =>
      foldl
        (λ changed parent,
           if bool_decide (changelog_blob = tree parent !! "changelog")
           then false else changed)
        true (parents commit)
  end.

(** The [for ... break ... else] over the parents of a merge commit. *)
Fixpoint first_same_tree (t : git_tree) (ps : list Commit) : option Commit :=
  match ps with
  | [] => None
  | parent :: ps' =>
      if bool_decide (t = tree parent) then Some parent
      else first_same_tree t ps'
  end.

(** [(parent_to_follow, merge_unresolvable)] *)
Definition parent_to_follow_of (commit : Commit) (changelog_changed : bool)
  : option Commit * bool :=
  if bool_decide (length (parents commit) < 2)%nat then
    (head (parents commit), false)
  else
    match first_same_tree (tree commit) (parents commit) with
    | Some parent => (Some parent, false)
    | None => (None, negb changelog_changed)
    end.

Definition of_opt_commit (o : option Commit) : pyval :=
  match o with
  | Some c => PyCommit c
  | None => PyNone
  end.

(** The [for candidate in parent_results] loop of a commit that has not
    exactly one parent.  The test is
    [candidate["commit-id"] == parent_to_follow]: its left operand is what
    the result holds under ["commit-id"], its right operand the followed
    parent, a commit (or [None]). *)
Fixpoint previous_changelog_of (parent_to_follow : option Commit)
    (parent_results : list result) : outcome pyval :=
  match parent_results with
  | [] => Returns (PyTuple [])
  | candidate :: rest =>
      cid ← getitem candidate "commit-id";
      if py_eq cid (of_opt_commit parent_to_follow)
      then Returns (get_default candidate "changelog" (PyTuple []))
      else previous_changelog_of parent_to_follow rest
  end.

(** [changed_files and all(any(fnmatchcase(f, pat) ...) ...)], as a truth
    value. *)
Definition skip_for_changelog_of (changed_files : gset string) : bool :=
  negb (bool_decide (changed_files = ∅))
  && forallb
       (λ f, existsb (λ pat, fnmatchcase f pat) changelog_ignore_patterns)
       (elements changed_files).

(** [(entry,) + previous_changelog] *)
Definition prepend_entry (entry : changelog_entry) (previous : pyval)
  : outcome pyval :=
  match previous with
  | PyTuple es => Returns (PyTuple (entry :: es))
  | _ => Raises
  end.

Definition changelog_resume (commit : Commit) (specfile_present : bool)
    (changelog_blob : option string) (changelog_changed : bool)
    (parent_to_follow : option Commit) (merge_unresolvable : bool)
    (commit_result : result) (parent_results : list result) : outcome result :=
  let changelog_author :=
    name_of (author commit) +:+ " <" +:+ email (author commit) +:+ ">" in
  changelog_date ← utc_strftime (commit_time commit);
  ev ← getitem commit_result "epoch-version";
  rc ← getitem commit_result "release-complete";
  let changelog_evr := format_value ev +:+ "-" +:+ format_value rc in
  let changelog_header :=
    "* " +:+ changelog_date +:+ " " +:+ changelog_author +:+ " " +:+ changelog_evr in
  if negb specfile_present then
    Returns (<["changelog" := PyTuple []]> commit_result)
  else if merge_unresolvable then
    let entry :=
      ChangelogEntry (id commit)
        (changelog_header +:+ "
- RPMAUTOSPEC: unresolvable merge")
        (Some "unresolvable merge") in
    Returns (<["changelog" := PyTuple [entry]]> commit_result)
  else if changelog_changed then
    let entry :=
      match changelog_blob with
      | Some data => ChangelogEntry (id commit) (decode_utf8_replace data) None
      | None =>
          ChangelogEntry (id commit)
            (changelog_header +:+ "
- RPMAUTOSPEC: changelog file removed")
            (Some "changelog file removed")
      end in
    Returns (<["changelog" := PyTuple [entry]]> commit_result)
  else
    previous_changelog ←
      (if bool_decide (length (parents commit) = 1)%nat then
         match parent_results with
         | r :: _ => Returns (get_default r "changelog" (PyTuple []))
         | [] => Raises
         end
       else previous_changelog_of parent_to_follow parent_results);
    let diff :=
      match parent_to_follow with
      | Some p => diff_to_tree (tree p) (Some (tree commit)) false
      | None => diff_to_tree (tree commit) None true
      end in
    let changed_files := _files_changed_in_diff diff in
    let skip_for_changelog := skip_for_changelog_of changed_files in
    if negb skip_for_changelog then
      let commit_subject := strip (default "" (head (split_lines (message commit)))) in
      let commit_subject :=
        if startswith_dash commit_subject
        then lstrip (tail_str commit_subject) else commit_subject in
      let '(commit_subject, error) :=
        if negb (str_truthy commit_subject)
        then ("RPMAUTOSPEC: empty commit log subject after stripping",
              Some "empty commit log subject")
        else (commit_subject, None) in
      let wrapped_msg := textwrap_fill ("- " +:+ commit_subject) in
      let entry :=
        ChangelogEntry (id commit)
          (changelog_header +:+ "
" +:+ wrapped_msg) error in
      cl ← prepend_entry entry previous_changelog;
      Returns (<["changelog" := cl]> commit_result)
    else
      Returns (<["changelog" := previous_changelog]> commit_result).

Definition changelog_visitor (self : processor) (commit : Commit)
    (children_must_continue : bool) : outcome (bool * coroutine) :=
  let specfile_present :=
    bool_decide (is_Some (tree commit !! (name self +:+ ".spec"))) in
  let changelog_blob := tree commit !! "changelog" in
  let changelog_changed := changelog_changed_of commit in
  let '(parent_to_follow, merge_unresolvable) :=
    parent_to_follow_of commit changelog_changed in
  Returns
    (negb (changelog_changed || merge_unresolvable)
     && specfile_present && children_must_continue,
     changelog_resume commit specfile_present changelog_blob changelog_changed
       parent_to_follow merge_unresolvable).

(** ** The graph walker *)

(** [repo.walk(head.id)]: the commits reachable from the head. *)
Variable repo_walk : Commit → list Commit.

(** The [defaultdict(list)] built from the walk; a missing key reads as
    the empty list. *)
Definition commit_children_of (head : Commit) : gmap oid (list Commit) :=
  foldl
    (λ commit_children commit,
       foldl
         (λ commit_children parent,
            <[id parent := default [] (commit_children !! id parent) ++ [commit]]>
              commit_children)
         commit_children (parents commit))
    ∅ (repo_walk head).

Record discovery := Discovery {
  commit_coroutines : gmap oid (list coroutine);
  commit_coroutines_must_continue : gmap oid (list bool);
  branch_heads : list Commit;
  branches : list (list Commit);
}.

Definition discovered (st : discovery) (c : Commit) : bool :=
  bool_decide (is_Some (commit_coroutines st !! id c)).

(** The [reduce] over the children of a commit, for one visitor: [or]
    does not evaluate its right operand once the left one is true. *)
Fixpoint any_child_must_continue (st : discovery) (vindex : nat)
    (this_children : list Commit) (must_continue : bool) : outcome bool :=
  match this_children with
  | [] => Returns must_continue
  | child :: rest =>
      mc ← (if must_continue then Returns true
            else
              match commit_coroutines_must_continue st !! id child with
              | Some l =>
                  match l !! vindex with
                  | Some b => Returns b
                  | None => Raises
                  end
              | None => Raises
              end);
      any_child_must_continue st vindex rest mc
  end.

Section Run.

Variable visitors : list visitor.
Variable head : Commit.

(** The body of [while True]: the loop follows first parents, so it is a
    recursion on the commit.  It returns the state, the branch built so
    far, and whether that branch stays on [branches] (an empty branch is
    popped again when the commit is deferred). *)
Fixpoint follow_first_parents (commit_children : gmap oid (list Commit))
    (commit : Commit) (st : discovery) (branch : list Commit)
  : outcome (discovery * list Commit * bool) :=
  if discovered st commit then Returns (st, branch, true)
  else
    let this_children := default [] (commit_children !! id commit) in
    if negb (commit_eqb commit head)
       && negb (forallb (discovered st) this_children)
    then
      Returns
        (Discovery (commit_coroutines st) (commit_coroutines_must_continue st)
           (branch_heads st ++ [commit]) (branches st),
         branch,
         match branch with [] => false | _ :: _ => true end)
    else
      children_visitors_must_continue ←
        (if commit_eqb commit head then Returns (map (λ _, true) visitors)
         else
           outcome_map
             (λ vindex, any_child_must_continue st vindex this_children false)
             (seq 0 (length visitors)));
      let branch := branch ++ [commit] in
      started ←
        outcome_map (λ vc : visitor * bool, vc.1 commit vc.2)
          (zip visitors children_visitors_must_continue);
      let coroutines := started.*2 in
      let coroutines_must_continue := started.*1 in
      let st :=
        Discovery
          (<[id commit := coroutines]> (commit_coroutines st))
          (<[id commit := coroutines_must_continue]>
             (commit_coroutines_must_continue st))
          (branch_heads st) (branches st) in
      if negb (existsb (λ b : bool, b) coroutines_must_continue) then
        Returns (st, branch, true)
      else
        match parents commit with
        | [] => Returns (st, branch, true)
        | first_parent :: branch_parents =>
            let st :=
              if bool_decide (1 < length (parents commit))%nat then
                let new_branches :=
                  filter (λ p, discovered st p = false) branch_parents in
                Discovery (commit_coroutines st)
                  (commit_coroutines_must_continue st)
                  (branch_heads st ++ new_branches) (branches st)
              else st in
            follow_first_parents commit_children first_parent st branch
        end.

(** [while branch_heads]; [None] when the fuel runs out. *)
Fixpoint discover (fuel : nat) (commit_children : gmap oid (list Commit))
    (st : discovery) : option (outcome discovery) :=
  match branch_heads st with
  | [] => Some (Returns st)
  | commit :: rest =>
      match fuel with
      | O => None
      | S fuel' =>
          let st :=
            Discovery (commit_coroutines st)
              (commit_coroutines_must_continue st) rest (branches st) in
          match follow_first_parents commit_children commit st [] with
          | Raises => Some Raises
          | Returns (st, branch, keep) =>
              discover fuel' commit_children
                (Discovery (commit_coroutines st)
                   (commit_coroutines_must_continue st) (branch_heads st)
                   (branches st ++ if keep then [branch] else []))
          end
      end
  end.

(** [reduce(lambda commit_result, visitor: visitor.send(...), ...)] *)
Fixpoint send_all (coroutines : list coroutine) (commit_result : result)
    (parent_results : list result) : outcome result :=
  match coroutines with
  | [] => Returns commit_result
  | visitor :: rest =>
      commit_result ← visitor commit_result parent_results;
      send_all rest commit_result parent_results
  end.

Definition parent_results_of (visited_results : gmap oid result)
    (commit : Commit) : list result :=
  map (λ p, default ∅ (visited_results !! id p)) (parents commit).

Definition parents_ready (coroutines : gmap oid (list coroutine))
    (visited_results : gmap oid result) (commit : Commit) : bool :=
  forallb
    (λ p, bool_decide (is_Some (visited_results !! id p))
          || negb (bool_decide (is_Some (coroutines !! id p))))
    (parents commit).

(** [while branch], on the branch in the order in which [pop] takes the
    commits (oldest first).  Returns the results, the commits resolved so
    far in the order of their resolution (a ghost log, not part of the
    source), and the commits left on the branch. *)
Fixpoint resolve_branch (coroutines : gmap oid (list coroutine))
    (oldest_first : list Commit) (visited_results : gmap oid result)
    (log : list Commit)
  : outcome (gmap oid result * list Commit * list Commit) :=
  match oldest_first with
  | [] => Returns (visited_results, log, [])
  | commit :: rest =>
      if negb (parents_ready coroutines visited_results commit) then
        Returns (visited_results, log, oldest_first)
      else
        let parent_results := parent_results_of visited_results commit in
        match coroutines !! id commit with
        | None => Raises
        | Some cs =>
            r ← send_all cs {[ "commit-id" := PyOid (id commit) ]} parent_results;
            resolve_branch coroutines rest
              (<[id commit := r]> visited_results) (log ++ [commit])
        end
  end.

(** [while branches]; [None] when the fuel runs out. *)
Fixpoint resolve (fuel : nat) (coroutines : gmap oid (list coroutine))
    (branches : list (list Commit)) (visited_results : gmap oid result)
    (log : list Commit) : option (outcome (gmap oid result * list Commit)) :=
  match branches with
  | [] => Some (Returns (visited_results, log))
  | branch :: rest =>
      match fuel with
      | O => None
      | S fuel' =>
          match resolve_branch coroutines (reverse branch) visited_results log with
          | Raises => Some Raises
          | Returns (visited_results, log, []) =>
              resolve fuel' coroutines rest visited_results log
          | Returns (visited_results, log, remaining) =>
              resolve fuel' coroutines (rest ++ [reverse remaining])
                visited_results log
          end
      end
  end.

Definition discovery_pass (fuel : nat) : option (outcome discovery) :=
  discover fuel (commit_children_of head) (Discovery ∅ ∅ [head] []).

(** [_run_on_history] together with the log of resolutions. *)
Definition _run_on_history_log (fuel : nat)
  : option (outcome (gmap oid result * list Commit)) :=
  match discovery_pass fuel with
  | None => None
  | Some Raises => Some Raises
  | Some (Returns st) =>
      resolve fuel (commit_coroutines st) (branches st) ∅ []
  end.

Definition _run_on_history (fuel : nat) : option (outcome (gmap oid result)) :=
  match _run_on_history_log fuel with
  | None => None
  | Some Raises => Some Raises
  | Some (Returns (visited_results, _)) => Some (Returns visited_results)
  end.

Inductive run_result :=
| AllResults (visited_results : gmap oid result)
| HeadResult (r : result).

(** [run], for a head that is already a commit. *)
Definition run (fuel : nat) (all_results : bool) : option (outcome run_result) :=
  match _run_on_history fuel with
  | None => None
  | Some Raises => Some Raises
  | Some (Returns visited_results) =>
      if all_results then Some (Returns (AllResults visited_results))
      else
        match visited_results !! id head with
        | Some r => Some (Returns (HeadResult r))
        | None => Some Raises
        end
  end.

End Run.

(** ** The vocabulary of the statements *)

(** What the release-number visitor leaves in a result for its children:
    nothing at all (the parent was not visited), or an epoch-version and a
    release number that is at least 1. *)
Definition release_result_ok (res : result) : Prop :=
  res = ∅ ∨
  ∃ ev rn, res !! "epoch-version" = Some ev
           ∧ res !! "release-number" = Some (PyInt rn) ∧ 1 ≤ rn.

(** The release numbers of the parent results whose epoch-version equals
    the given one. *)
Definition matching_release_numbers (ev : pyval) (parent_results : list result)
  : list Z :=
  omap
    (λ res : result,
       match res !! "epoch-version", res !! "release-number" with
       | Some ev', Some (PyInt rn) => if py_eq ev ev' then Some rn else None
       | _, _ => None
       end)
    parent_results.

(** The maximum of a list of integers, [dflt] for the empty list. *)
Definition max_default (dflt : Z) (l : list Z) : Z :=
  match l with
  | [] => dflt
  | x :: l' => foldl Z.max x l'
  end.

(** The release number as the specification words it. *)
Definition spec_release_number (ev : pyval) (parent_results : list result) : Z :=
  1 + max_default 0 (matching_release_numbers ev parent_results).

(** The changelog artifact is the one of some parent; for a root commit,
    it is absent. *)
Definition changelog_unchanged (commit : Commit) : Prop :=
  match parents commit with
  | [] => tree commit !! "changelog" = None
  | _ :: _ =>
      ∃ p, p ∈ parents commit
           ∧ tree commit !! "changelog" = tree p !! "changelog"
  end.

(** A merge commit the tree of which is the tree of no parent, and whose
    changelog did not change. *)
Definition unresolvable_merge (commit : Commit) : Prop :=
  (2 ≤ length (parents commit))%nat
  ∧ (∀ p, p ∈ parents commit → tree commit ≠ tree p)
  ∧ changelog_unchanged commit.

Definition specfile_present_in (self : processor) (commit : Commit) : Prop :=
  is_Some (tree commit !! (name self +:+ ".spec")).

(** The diff the changelog visitor looks at: against the followed parent,
    or against the empty tree. *)
Definition changed_files_of (commit : Commit) (parent_to_follow : option Commit)
  : gset string :=
  _files_changed_in_diff
    match parent_to_follow with
    | Some p => diff_to_tree (tree p) (Some (tree commit)) false
    | None => diff_to_tree (tree commit) None true
    end.

Definition all_ignored (files : gset string) : Prop :=
  ∀ f, f ∈ files → ∃ pat, pat ∈ changelog_ignore_patterns ∧ fnmatchcase f pat = true.

(** A coroutine that leaves the key [k] of the commit result as it is. *)
Definition preserves_key (k : string) (co : coroutine) : Prop :=
  ∀ commit_result parent_results r,
    co commit_result parent_results = Returns r → r !! k = commit_result !! k.

(** The integer one parent result contributes to the [max]. *)
Definition candidate_value (ev : pyval) (res : result) : Z :=
  match res !! "epoch-version", res !! "release-number" with
  | Some ev', Some (PyInt rn) => if py_eq ev ev' then rn else 0
  | _, _ => 0
  end.

(** The header line of a changelog entry. *)
Definition changelog_header_of (commit : Commit) (date : string) (ev rc : pyval)
  : string :=
  "* " +:+ date +:+ " "
  +:+ (name_of (author commit) +:+ " <" +:+ email (author commit) +:+ ">")
  +:+ " " +:+ (format_value ev +:+ "-" +:+ format_value rc).

(** The coroutines [cs] are what the visitors gave when they were started
    on the commit [c]. *)
Definition started_on (visitors : list visitor) (cs : list coroutine)
    (c : Commit) : Prop :=
  ∃ cmcs started,
    length cmcs = length visitors
    ∧ outcome_map (λ vc : visitor * bool, vc.1 c vc.2) (zip visitors cmcs)
      = Returns started
    ∧ cs = started.*2.

(** The invariant of the discovery pass, [branch] being the branch under
    construction: no commit is on two branches or twice on one, and the
    commits on the branches are the keys of [commit_coroutines], each with
    the coroutines of its own visitors. *)
Record discovery_inv (visitors : list visitor) (st : discovery)
    (branch : list Commit) : Prop := DiscoveryInv {
  di_nodup : NoDup (id <$> (concat (branches st) ++ branch));
  di_dom : ∀ k, is_Some (commit_coroutines st !! k)
                ↔ k ∈ id <$> (concat (branches st) ++ branch);
  di_started : ∀ c, c ∈ concat (branches st) ++ branch →
                    ∃ cs, commit_coroutines st !! id c = Some cs
                          ∧ started_on visitors cs c;
}.

(** The keys of [visited_results] are the commits of the log. *)
Definition log_is_dom (visited_results : gmap oid result) (log : list Commit)
  : Prop :=
  ∀ k, is_Some (visited_results !! k) ↔ k ∈ id <$> log.

(** Every commit of the log comes after those of its parents that were
    discovered. *)
Definition parents_first (coroutines : gmap oid (list coroutine))
    (log : list Commit) : Prop :=
  ∀ before c after, log = before ++ c :: after →
    ∀ p, p ∈ parents c → is_Some (coroutines !! id p) → id p ∈ id <$> before.

(** What the release-number visitor has established for the commits
    resolved so far: every result is well formed, and the release number
    of a resolved commit is the one the specification gives from the
    results of its parents, which are all settled. *)
Definition release_inv (coroutines : gmap oid (list coroutine))
    (visited : gmap oid result) (log : list Commit) : Prop :=
  (∀ k r, visited !! k = Some r → release_result_ok r)
  ∧ ∀ c, c ∈ log →
      (∃ r ev rn,
         visited !! id c = Some r
         ∧ r !! "epoch-version" = Some ev
         ∧ r !! "release-number" = Some (PyInt rn)
         ∧ rn = spec_release_number ev (parent_results_of visited c)
         ∧ 1 ≤ rn)
      ∧ ∀ p, p ∈ parents c →
             is_Some (visited !! id p) ∨ coroutines !! id p = None.

(** *** The vocabulary of the further statements *)

(** A pattern made of literal characters only. *)
Fixpoint literal_pattern (pat : string) : bool :=
  match pat with
  | EmptyString => true
  | String p pat' =>
      negb (Ascii.eqb p "*"%char) && negb (Ascii.eqb p "?"%char)
      && literal_pattern pat'
  end.

(** The paths the ignore patterns stand for. *)
Definition ignored_path (f : string) : Prop :=
  f = ".gitignore" ∨ f = "gating.yaml" ∨ f = "sources"
  ∨ ∃ rest, f = "tests/" +:+ rest.




Fixpoint no_underscore (s : string) : bool :=
  match s with
  | EmptyString => true
  | String c s' => negb (Ascii.eqb c "_"%char) && no_underscore s'
  end.

Fixpoint all_digits (s : string) : bool :=
  match s with
  | EmptyString => true
  | String c s' => is_digit c && all_digits s'
  end.

Fixpoint count_underscores (s : string) : nat :=
  match s with
  | EmptyString => O
  | String c s' =>
      ((if Ascii.eqb c "_"%char then 1 else 0) + count_underscores s')%nat
  end.

(** The line that the definition of the autorelease macro handed to rpm,
    [E%{?-e*}_S%{?-s*}_P%{?-p:1}%{!?-p:0}_B%{?-b*}], prints for the flags
    [-e], [-s], [-p] and [-b]. *)
Definition autorelease_info (e s p b : string) : string :=
  "E" +:+ e +:+ "_S" +:+ s +:+ "_P" +:+ p +:+ "_B" +:+ b.

(** Some visitor of a commit among [seen] wants the history to be
    followed, and [k] is the id of one of the parents of that commit. *)
Definition wanted (must_continue : gmap oid (list bool)) (seen : list Commit)
    (k : oid) : Prop :=
  ∃ child l p,
    child ∈ seen ∧ must_continue !! id child = Some l
    ∧ existsb (λ b : bool, b) l = true ∧ p ∈ parents child ∧ id p = k.

(** A commit with the id [k] waits on the work list. *)
Definition todo_has (todo : list Commit) (k : oid) : Prop :=
  ∃ q, q ∈ todo ∧ id q = k.

(** The flags [children_must_continue] with which the visitors are
    started on a commit: all true for the head; for another commit and
    the visitor number [vindex], whether that visitor wanted to continue
    at some child. *)
Definition children_flags (visitors : list visitor) (head : Commit)
    (commit_children : gmap oid (list Commit))
    (must_continue : gmap oid (list bool)) (c : Commit) (cmcs : list bool)
  : Prop :=
  if commit_eqb c head then cmcs = map (λ _, true) visitors
  else
    ∀ vindex, (vindex < length visitors)%nat →
      cmcs !! vindex
      = Some (existsb
                (λ child,
                   match must_continue !! id child with
                   | Some l => default false (l !! vindex)
                   | None => false
                   end)
                (default [] (commit_children !! id c))).

(** What the discovery pass keeps true of the commits [seen] so far (those
    on the branches) and of its work list [todo] (the commit at hand and
    the branch heads). *)
Record walk_inv (visitors : list visitor) (head : Commit)
    (commit_children : gmap oid (list Commit)) (st : discovery)
    (seen todo : list Commit) : Prop := WalkInv {
  wi_started : ∀ c, c ∈ seen →
    ∃ cmcs started,
      length cmcs = length visitors
      ∧ children_flags visitors head commit_children
          (commit_coroutines_must_continue st) c cmcs
      ∧ outcome_map (λ vc : visitor * bool, vc.1 c vc.2) (zip visitors cmcs)
        = Returns started
      ∧ commit_coroutines st !! id c = Some (started.*2)
      ∧ commit_coroutines_must_continue st !! id c = Some (started.*1);
  wi_head : is_Some (commit_coroutines st !! id head) ∨ todo_has todo (id head);
  wi_todo : ∀ q, q ∈ todo →
    id q = id head ∨ wanted (commit_coroutines_must_continue st) seen (id q);
  wi_why : ∀ c, c ∈ seen →
    id c = id head ∨ wanted (commit_coroutines_must_continue st) seen (id c);
  wi_children : ∀ c, c ∈ seen → id c ≠ id head →
    ∀ child, child ∈ default [] (commit_children !! id c) →
             is_Some (commit_coroutines st !! id child);
  wi_parents : ∀ c l, c ∈ seen →
    commit_coroutines_must_continue st !! id c = Some l →
    existsb (λ b : bool, b) l = true →
    ∀ p, p ∈ parents c →
         is_Some (commit_coroutines st !! id p) ∨ todo_has todo (id p);
}.

(** The forms the changelog that the changelog visitor leaves can have. *)
Definition changelog_shape (commit : Commit) (prs : list result)
    (es : list changelog_entry) : Prop :=
  ∃ own previous,
    es = own ++ previous
    ∧ (own = [] ∨ ∃ e, own = [e] ∧ entry_commit_id e = id commit)
    ∧ (previous = []
       ∨ ∃ pr, pr ∈ prs
               ∧ get_default pr "changelog" (PyTuple []) = PyTuple previous).

(** What the resolution pass keeps true of the results with the two
    built-in visitors. *)
Definition builtin_inv (coroutines : gmap oid (list coroutine))
    (visited : gmap oid result) (log : list Commit) : Prop :=
  release_inv coroutines visited log
  ∧ ∀ k r, visited !! k = Some r →
      r !! "commit-id" = Some (PyOid k)
      ∧ ∃ es, r !! "changelog" = Some (PyTuple es)
              ∧ entry_commit_id <$> es `sublist_of` reverse (id <$> log).


(** A commit, its first parent, the first parent of that one, and so
    on. *)
Fixpoint first_parent_chain (c : Commit) : list Commit :=
  c :: match parents c with
       | p :: _ => first_parent_chain p
       | [] => []
       end.

(** The complete release that goes with a release number and the
    metadata of a commit. *)
Definition release_complete_of (vfo : option verflags) (release_number : Z)
  : string :=
  (if default false (vfo ≫= prerelease) then "0." else "")
  +:+ pretty (release_number + default 1 (vfo ≫= base) - 1)
  +:+ match vfo with
      | Some vf => tag_string_of (extraver vf) (snapinfo vf)
      | None => ""
      end.

(** ** Strings *)

Lemma py_isspace_newline : py_isspace "010" = true.
Proof. reflexivity. Qed.

Lemma lstrip_head s :
  lstrip s = EmptyString ∨ ∃ c t, lstrip s = String c t ∧ py_isspace c = false.
Proof.
  induction s as [|c s IH]; simpl; [by left|].
  destruct (py_isspace c) eqn:Hc; [done|]. right. by exists c, s.
Qed.

Lemma rstrip_head c t :
  py_isspace c = false → rstrip (String c t) = String c (rstrip t).
Proof. intros Hc. simpl. by rewrite Hc. Qed.

Lemma strip_head s :
  strip s = EmptyString ∨ ∃ c t, strip s = String c t ∧ py_isspace c = false.
Proof.
  unfold strip. destruct (lstrip_head s) as [->|(c & t & -> & Hc)]; [by left|].
  right. exists c, (rstrip t). by rewrite rstrip_head.
Qed.

Lemma split_lines_head c t :
  py_isspace c = false → ∃ h tl, split_lines (String c t) = String c h :: tl.
Proof.
  intros Hc. simpl. destruct (Ascii.eqb c "010") eqn:E.
  - apply Ascii.eqb_eq in E. subst c. by rewrite py_isspace_newline in Hc.
  - destruct (split_lines t); eauto.
Qed.

(** ** The metadata query *)

Lemma _get_rpmverflags_epoch_version path name vf :
  _get_rpmverflags path name = Returns (Some vf) →
  str_truthy (epoch_version vf) = true.
Proof.
  unfold _get_rpmverflags.
  destruct (dir_files path !! _); [|done].
  destruct (rpm_specfile_query _ _) as [raw|]; [|done].
  destruct (strip_head raw) as [->|(c & t & -> & Hc)]; [done|].
  destruct (split_lines_head c t Hc) as (h & tl & ->).
  destruct tl as [|info tl]; [done|].
  destruct (autorelease_flags_re_match info) as [[[[??]?]?]|];
    intros [= <-]; done.
Qed.

Lemma _get_rpmverflags_for_commit_epoch_version self commit vf :
  _get_rpmverflags_for_commit self commit = Returns (Some vf) →
  str_truthy (epoch_version vf) = true.
Proof.
  unfold _get_rpmverflags_for_commit.
  destruct (tree commit !! _); [|done].
  apply _get_rpmverflags_epoch_version.
Qed.

Lemma epoch_versions_to_check_spec self ps :
  (∀ p, p ∈ ps → _get_rpmverflags_for_commit self p ≠ Raises) →
  ∃ l, epoch_versions_to_check self ps = Returns l
       ∧ ∀ s, s ∈ l ↔
           ∃ p vfp, p ∈ ps
                    ∧ _get_rpmverflags_for_commit self p = Returns (Some vfp)
                    ∧ epoch_version vfp = s.
Proof.
  induction ps as [|p ps IH]; intros Hps.
  - exists []. split; [done|]. intros s. split; [by intros ?%elem_of_nil|].
    by intros (? & ? & ?%elem_of_nil & _).
  - destruct IH as (l & Hl & Hspec).
    { intros q Hq. apply Hps. by right. }
    simpl. destruct (_get_rpmverflags_for_commit self p) as [o|] eqn:Hp.
    2: { exfalso. by apply (Hps p); [left|]. }
    rewrite Hl. simpl. destruct o as [vf|].
    + exists (epoch_version vf :: l). split; [done|]. intros s.
      rewrite elem_of_cons, Hspec. split.
      * intros [->|(q & vfq & Hq & Hvq & <-)].
        -- exists p, vf. split; [by left|done].
        -- exists q, vfq. split; [by right|done].
      * intros (q & vfq & [->|Hq]%elem_of_cons & Hvq & <-).
        -- left. congruence.
        -- right. by exists q, vfq.
    + exists l. split; [done|]. intros s. rewrite Hspec. split.
      * intros (q & vfq & Hq & Hvq & <-). exists q, vfq. split; [by right|done].
      * intros (q & vfq & [->|Hq]%elem_of_cons & Hvq & <-); [congruence|].
        by exists q, vfq.
Qed.

(** C6.  Phase 1 of the release-number visitor: without metadata for the
    commit, [must_continue] is [True]; with metadata, it is [True] exactly
    when a parent has metadata with the same epoch-version. *)
Theorem release_number_visitor_must_continue self commit
    (children_must_continue : bool) :
  (_get_rpmverflags_for_commit self commit = Returns None →
   ∃ k, release_number_visitor self commit children_must_continue
        = Returns (true, k))
  ∧ (∀ vf,
       _get_rpmverflags_for_commit self commit = Returns (Some vf) →
       (∀ p, p ∈ parents commit → _get_rpmverflags_for_commit self p ≠ Raises) →
       ∃ b k,
         release_number_visitor self commit children_must_continue
         = Returns (b, k)
         ∧ (b = true ↔
            ∃ p vfp, p ∈ parents commit
                     ∧ _get_rpmverflags_for_commit self p = Returns (Some vfp)
                     ∧ epoch_version vfp = epoch_version vf)).
Proof.
  split.
  - intros Hq. unfold release_number_visitor. rewrite Hq. simpl. eauto.
  - intros vf Hq Hps. unfold release_number_visitor. rewrite Hq. simpl.
    rewrite (_get_rpmverflags_for_commit_epoch_version _ _ _ Hq). simpl.
    destruct (epoch_versions_to_check_spec self (parents commit) Hps)
      as (l & -> & Hl).
    simpl. eexists _, _. split; [done|].
    rewrite bool_decide_eq_true. apply Hl.
Qed.

(** ** Phase 2 of the release-number visitor *)

Lemma foldl_max_foldr (l : list Z) x :
  0 ≤ x → Forall (λ y, 0 ≤ y) l → foldl Z.max x l = Z.max x (foldr Z.max 0 l).
Proof.
  revert x. induction l as [|a l IH]; intros x Hx Hl; simpl; [lia|].
  apply Forall_cons in Hl as [Ha Hl]. rewrite IH by (done || lia). lia.
Qed.

Lemma max_default_foldr (l : list Z) :
  Forall (λ y, 0 ≤ y) l → max_default 0 l = foldr Z.max 0 l.
Proof.
  destruct l as [|a l]; [done|]. intros [Ha Hl]%Forall_cons. simpl.
  by apply foldl_max_foldr.
Qed.

Lemma foldr_max_nonneg (l : list Z) : 0 ≤ foldr Z.max 0 l.
Proof. induction l; simpl; lia. Qed.

Lemma release_result_ok_nonempty (res : result) ev :
  res !! "epoch-version" = Some ev → dict_truthy res = true.
Proof.
  intros Hev. unfold dict_truthy. rewrite negb_true_iff, bool_decide_eq_false.
  intros ->. by rewrite lookup_empty in Hev.
Qed.

Lemma release_candidate_ok ev (res : result) :
  release_result_ok res →
  release_candidate ev res = Returns (PyInt (candidate_value (of_opt_str ev) res))
  ∧ 0 ≤ candidate_value (of_opt_str ev) res.
Proof.
  unfold release_candidate, candidate_value.
  intros [->|(ev' & rn & Hev & Hrn & Hpos)].
  - by rewrite lookup_empty.
  - rewrite (release_result_ok_nonempty _ _ Hev). unfold getitem.
    rewrite Hev, Hrn. simpl. destruct (py_eq _ _); simpl; split; (done || lia).
Qed.

Lemma max_release_some ev (prs : list result) m :
  Forall release_result_ok prs →
  max_release ev prs (Some m)
  = Returns (foldl Z.max m (candidate_value (of_opt_str ev) <$> prs)).
Proof.
  revert m. induction prs as [|res prs IH]; intros m Hprs; [done|].
  apply Forall_cons in Hprs as [Hres Hprs]. simpl.
  destruct (release_candidate_ok ev res Hres) as [-> _]. simpl.
  by rewrite IH.
Qed.

Lemma max_release_none ev (prs : list result) :
  Forall release_result_ok prs →
  max_release ev prs None
  = Returns (max_default 0 (candidate_value (of_opt_str ev) <$> prs)).
Proof.
  destruct prs as [|res prs]; [done|]. intros [Hres Hprs]%Forall_cons. simpl.
  destruct (release_candidate_ok ev res Hres) as [-> _]. simpl.
  by apply max_release_some.
Qed.

Lemma candidate_values_nonneg ev (prs : list result) :
  Forall release_result_ok prs →
  Forall (λ y, 0 ≤ y) (candidate_value (of_opt_str ev) <$> prs).
Proof.
  intros Hprs. apply Forall_fmap. eapply Forall_impl; [done|].
  intros res Hres. simpl. by destruct (release_candidate_ok ev res Hres).
Qed.

Lemma matching_release_numbers_cons ev (res : result) (prs : list result) :
  matching_release_numbers ev (res :: prs)
  = match res !! "epoch-version", res !! "release-number" with
    | Some ev', Some (PyInt rn) =>
        if py_eq ev ev' then rn :: matching_release_numbers ev prs
        else matching_release_numbers ev prs
    | _, _ => matching_release_numbers ev prs
    end.
Proof.
  unfold matching_release_numbers. cbn [omap list_omap].
  destruct (res !! "epoch-version") as [ev'|]; [|done].
  destruct (res !! "release-number") as [[]|]; try done.
  by destruct (py_eq ev ev').
Qed.

Lemma matching_release_numbers_pos ev (prs : list result) :
  Forall release_result_ok prs →
  Forall (λ y, 0 ≤ y) (matching_release_numbers ev prs).
Proof.
  induction 1 as [|res prs Hres _ IH]; [constructor|].
  rewrite matching_release_numbers_cons.
  destruct Hres as [->|(ev' & rn & Hev & Hrn & Hpos)].
  - by rewrite lookup_empty.
  - rewrite Hev, Hrn. destruct (py_eq ev ev'); [|done].
    constructor; [lia|done].
Qed.

(** The maximum the code takes, with a zero for every parent that does not
    count, is the maximum over the parents that count. *)
Lemma candidates_max_matching ev (prs : list result) :
  Forall release_result_ok prs →
  foldr Z.max 0 (candidate_value ev <$> prs)
  = foldr Z.max 0 (matching_release_numbers ev prs).
Proof.
  induction 1 as [|res prs Hres _ IH]; [done|].
  rewrite fmap_cons, matching_release_numbers_cons. cbn [foldr]. rewrite IH.
  pose proof (foldr_max_nonneg (matching_release_numbers ev prs)).
  unfold candidate_value.
  destruct Hres as [->|(ev' & rn & Hev & Hrn & Hpos)].
  - rewrite lookup_empty. lia.
  - rewrite Hev, Hrn. destruct (py_eq ev ev'); cbn [foldr]; lia.
Qed.

Lemma release_number_resume_spec ev pre b tag (commit_result : result)
    (parent_results : list result) :
  Forall release_result_ok parent_results →
  ∃ r, release_number_resume ev pre b tag commit_result parent_results
       = Returns r
       ∧ r !! "epoch-version" = Some (of_opt_str ev)
       ∧ r !! "release-number"
         = Some (PyInt (spec_release_number (of_opt_str ev) parent_results))
       ∧ 1 ≤ spec_release_number (of_opt_str ev) parent_results
       ∧ r !! "commit-id" = commit_result !! "commit-id".
Proof.
  intros Hprs. unfold release_number_resume.
  rewrite (max_release_none _ _ Hprs). simpl. eexists. split; [done|].
  assert (max_default 0 (candidate_value (of_opt_str ev) <$> parent_results)
          = max_default 0 (matching_release_numbers (of_opt_str ev) parent_results))
    as Hmax.
  { rewrite !max_default_foldr
      by auto using candidate_values_nonneg, matching_release_numbers_pos.
    by apply candidates_max_matching. }
  unfold spec_release_number. rewrite <- Hmax.
  repeat split.
  - by simplify_map_eq.
  - simplify_map_eq. f_equal. f_equal. lia.
  - rewrite max_default_foldr by auto using candidate_values_nonneg.
    pose proof (foldr_max_nonneg (candidate_value (of_opt_str ev) <$> parent_results)).
    lia.
  - by simplify_map_eq.
Qed.


(** ** Phase 1 of the changelog visitor *)

Lemma changelog_changed_fold (blob : option string) (ps : list Commit) b :
  foldl
    (λ (changed : bool) (parent : Commit),
       if bool_decide (blob = tree parent !! "changelog") then false else changed)
    b ps = false
  ↔ b = false ∨ ∃ p, p ∈ ps ∧ blob = tree p !! "changelog".
Proof.
  revert b. induction ps as [|q ps IH]; intros b; simpl.
  - split; [by left|]. intros [?|(? & ?%elem_of_nil & _)]; done.
  - rewrite IH. split.
    + intros [Hb|(p & Hp & Heq)].
      * case_bool_decide as Hq; [|by left]. right. exists q. split; [by left|done].
      * right. exists p. split; [by right|done].
    + intros [->|(p & [->|Hp]%elem_of_cons & Heq)].
      * left. by case_bool_decide.
      * left. by rewrite bool_decide_eq_true_2.
      * right. by exists p.
Qed.

Lemma changelog_changed_of_false commit :
  changelog_changed_of commit = false ↔ changelog_unchanged commit.
Proof.
  unfold changelog_changed_of, changelog_unchanged.
  destruct (parents commit) as [|q ps] eqn:Hps.
  - rewrite bool_decide_eq_false, <- eq_None_not_Some. done.
  - rewrite changelog_changed_fold. split; [|by right]. by intros [?|?].
Qed.

Lemma first_same_tree_None (t : git_tree) ps :
  first_same_tree t ps = None ↔ ∀ p, p ∈ ps → t ≠ tree p.
Proof.
  induction ps as [|q ps IH]; simpl.
  - split; [|done]. by intros _ p ?%elem_of_nil.
  - case_bool_decide as Hq.
    + split; [done|]. intros Hall. exfalso. by apply (Hall q); [left|].
    + rewrite IH. split.
      * intros Hall p [->|Hp]%elem_of_cons; auto.
      * intros Hall p Hp. apply Hall. by right.
Qed.

(** The followed parent of a merge is the first one, in the order of the
    parents, that has the tree of the commit. *)
Lemma first_same_tree_Some (t : git_tree) ps p :
  first_same_tree t ps = Some p →
  ∃ before after, ps = before ++ p :: after
                  ∧ t = tree p ∧ ∀ q, q ∈ before → t ≠ tree q.
Proof.
  induction ps as [|q ps IH]; simpl; [done|].
  case_bool_decide as Hq.
  - intros [= ->]. exists [], ps. split_and!; [done..|]. by intros q ?%elem_of_nil.
  - intros (before & after & -> & Ht & Hbefore)%IH.
    exists (q :: before), after. split_and!; [done..|].
    intros r [->|Hr]%elem_of_cons; auto.
Qed.

Lemma merge_unresolvable_iff commit :
  (parent_to_follow_of commit (changelog_changed_of commit)).2 = true
  ↔ unresolvable_merge commit.
Proof.
  unfold parent_to_follow_of, unresolvable_merge. case_bool_decide as Hlen.
  - simpl. split; [done|]. intros (? & _). lia.
  - destruct (first_same_tree _ _) as [p|] eqn:Hfirst; simpl.
    + split; [done|]. intros (_ & Hall & _).
      apply first_same_tree_Some in Hfirst as (before & after & Hps & Ht & _).
      exfalso. apply (Hall p); [|done]. rewrite Hps, elem_of_app. right. by left.
    + rewrite negb_true_iff, changelog_changed_of_false.
      rewrite first_same_tree_None in Hfirst. split.
      * intros Hun. split_and!; [lia|done..].
      * by intros (_ & _ & Hun).
Qed.

(** C4.  Phase 1 of the changelog visitor yields [True] exactly when the
    changelog did not change, the commit is not an unresolvable merge, the
    spec file is in the tree of the commit, and [children_must_continue]
    is [True]. *)
Theorem changelog_visitor_must_continue self commit
    (children_must_continue : bool) :
  ∃ b k,
    changelog_visitor self commit children_must_continue = Returns (b, k)
    ∧ (b = true ↔
       changelog_unchanged commit
       ∧ ¬ unresolvable_merge commit
       ∧ specfile_present_in self commit
       ∧ children_must_continue = true).
Proof.
  unfold changelog_visitor.
  pose proof (merge_unresolvable_iff commit) as Hmu.
  destruct (parent_to_follow_of commit (changelog_changed_of commit))
    as [ptf mu] eqn:Hptf.
  eexists _, _. split; [done|]. simpl in Hmu.
  rewrite !andb_true_iff, negb_true_iff, orb_false_iff, bool_decide_eq_true.
  rewrite changelog_changed_of_false, <- Hmu. unfold specfile_present_in.
  destruct mu.
  - split; [by intros [[[_ [=]] _] _]|]. intros (_ & Hno & _). by destruct Hno.
  - split.
    + intros [[[? _] ?] ?]. by split_and!.
    + intros (? & _ & ? & ?). by split_and!.
Qed.

(** ** Phase 2 of the changelog visitor *)

Lemma changelog_visitor_returns self commit cmc :
  ∃ b k, changelog_visitor self commit cmc = Returns (b, k).
Proof.
  unfold changelog_visitor.
  destruct (parent_to_follow_of commit (changelog_changed_of commit)). eauto.
Qed.

(** What the visitor keeps between its two phases. *)
Lemma changelog_visitor_coroutine self commit cmc b k :
  changelog_visitor self commit cmc = Returns (b, k) →
  k = changelog_resume commit
        (bool_decide (is_Some (tree commit !! (name self +:+ ".spec"))))
        (tree commit !! "changelog") (changelog_changed_of commit)
        (parent_to_follow_of commit (changelog_changed_of commit)).1
        (parent_to_follow_of commit (changelog_changed_of commit)).2.
Proof.
  unfold changelog_visitor.
  destruct (parent_to_follow_of commit (changelog_changed_of commit)).
  by intros [= _ <-].
Qed.

(** C5, amended.  When the spec file is in the tree of an unresolvable
    merge commit, its changelog is one entry with the error
    ["unresolvable merge"], whatever the parents' results are. *)
Theorem unresolvable_merge_single_entry self commit cmc b k
    (commit_result : result) (parent_results : list result) date ev rc :
  changelog_visitor self commit cmc = Returns (b, k) →
  unresolvable_merge commit →
  specfile_present_in self commit →
  utc_strftime (commit_time commit) = Returns date →
  commit_result !! "epoch-version" = Some ev →
  commit_result !! "release-complete" = Some rc →
  k commit_result parent_results
  = Returns
      (<["changelog" :=
           PyTuple
             [ChangelogEntry (id commit)
                (changelog_header_of commit date ev rc +:+ "
- RPMAUTOSPEC: unresolvable merge")
                (Some "unresolvable merge")]]> commit_result).
Proof.
  intros Hk Hun Hspec Hdate Hev Hrc.
  rewrite (changelog_visitor_coroutine _ _ _ _ _ Hk).
  apply merge_unresolvable_iff in Hun. rewrite Hun.
  unfold changelog_resume, getitem. rewrite Hdate, Hev, Hrc. simpl.
  by rewrite bool_decide_eq_true_2.
Qed.

Lemma skip_for_changelog_of_true (files : gset string) :
  files ≠ ∅ → all_ignored files → skip_for_changelog_of files = true.
Proof.
  intros Hne Hall. unfold skip_for_changelog_of.
  rewrite bool_decide_eq_false_2 by done. cbn [negb andb].
  apply forallb_forall. intros f Hf%list_elem_of_In%elem_of_elements.
  destruct (Hall f Hf) as (pat & Hpat & Hmatch).
  apply existsb_exists. exists pat. by rewrite <- list_elem_of_In.
Qed.

Lemma skip_for_changelog_of_empty : skip_for_changelog_of ∅ = false.
Proof. done. Qed.

Lemma parent_to_follow_of_short commit changed :
  (length (parents commit) ≤ 1)%nat →
  parent_to_follow_of commit changed = (head (parents commit), false).
Proof.
  intros Hlen. unfold parent_to_follow_of. rewrite bool_decide_eq_true_2; [done|lia].
Qed.

(** C2, amended.  For a commit with the spec file, at most one parent and
    an unchanged changelog: when the set of changed paths is not empty
    and each of them matches an ignore pattern, the changelog is the one
    of the parent's result (empty for a root commit).  A change of
    [gating.yaml] alone is such a set. *)
Theorem changelog_inherited_when_all_ignored self commit cmc b k
    (commit_result : result) (parent_results : list result) date ev rc :
  changelog_visitor self commit cmc = Returns (b, k) →
  specfile_present_in self commit →
  changelog_unchanged commit →
  (length (parents commit) ≤ 1)%nat →
  length parent_results = length (parents commit) →
  utc_strftime (commit_time commit) = Returns date →
  commit_result !! "epoch-version" = Some ev →
  commit_result !! "release-complete" = Some rc →
  changed_files_of commit (head (parents commit)) ≠ ∅ →
  all_ignored (changed_files_of commit (head (parents commit))) →
  k commit_result parent_results
  = Returns
      (<["changelog" :=
           get_default (default ∅ (head parent_results)) "changelog" (PyTuple [])]>
         commit_result)
  ∧ ({[ "gating.yaml" ]} : gset string) ≠ ∅
  ∧ all_ignored {[ "gating.yaml" ]}.
Proof.
  intros Hk Hspec Hun Hlen Hprs Hdate Hev Hrc Hne Hall. split_and!.
  - rewrite (changelog_visitor_coroutine _ _ _ _ _ Hk).
    rewrite (parent_to_follow_of_short _ _ Hlen).
    apply changelog_changed_of_false in Hun. rewrite Hun.
    unfold changelog_resume, getitem. rewrite Hdate, Hev, Hrc. simpl.
    rewrite bool_decide_eq_true_2 by done. simpl.
    unfold changed_files_of in Hne, Hall.
    destruct (parents commit) as [|p [|??]] eqn:Hps; simpl in *; [| |lia].
    + destruct parent_results; [|done]. simpl.
      by rewrite (skip_for_changelog_of_true _ Hne Hall).
    + destruct parent_results as [|r [|??]]; [done| |done]. simpl.
      by rewrite (skip_for_changelog_of_true _ Hne Hall).
  - by apply (non_empty_inhabited_L "gating.yaml"), elem_of_singleton.
  - intros f ->%elem_of_singleton. exists "gating.yaml". split; [|done].
    right. by left.
Qed.

(** The loop that looks for the result of the followed parent compares the
    ["commit-id"] of a result, an [Oid], with a commit: on the results the
    walker hands over it finds nothing. *)
Lemma previous_changelog_of_oids parent_to_follow (parent_results : list result) :
  Forall (λ r : result, ∃ o, r !! "commit-id" = Some (PyOid o)) parent_results →
  previous_changelog_of parent_to_follow parent_results = Returns (PyTuple []).
Proof.
  induction 1 as [|r prs (o & Ho) _ IH]; [done|].
  simpl. unfold getitem. rewrite Ho. simpl. by destruct parent_to_follow.
Qed.

(** ** The discovery pass *)

(** Induction along first parents. *)
Lemma Commit_first_parent_ind (P : Commit → Prop) :
  (∀ c, (∀ p ps, parents c = p :: ps → P p) → P c) → ∀ c, P c.
Proof.
  intros H. fix IH 1. intros c. apply H.
  destruct c as [i ps t a ct m]. simpl.
  destruct ps as [|p0 ps0]; intros p ps' E; [discriminate|].
  assert (p = p0) as Hp by congruence. subst p. apply IH.
Qed.

Section Walker_facts.

Variable visitors : list visitor.
Variable head : Commit.

Lemma follow_first_parents_unfold commit_children commit st branch :
  follow_first_parents visitors head commit_children commit st branch
  = if discovered st commit then Returns (st, branch, true)
    else
      let this_children := default [] (commit_children !! id commit) in
      if negb (commit_eqb commit head)
         && negb (forallb (discovered st) this_children)
      then
        Returns
          (Discovery (commit_coroutines st) (commit_coroutines_must_continue st)
             (branch_heads st ++ [commit]) (branches st),
           branch,
           match branch with [] => false | _ :: _ => true end)
      else
        children_visitors_must_continue ←
          (if commit_eqb commit head then Returns (map (λ _, true) visitors)
           else
             outcome_map
               (λ vindex, any_child_must_continue st vindex this_children false)
               (seq 0 (length visitors)));
        let branch := branch ++ [commit] in
        started ←
          outcome_map (λ vc : visitor * bool, vc.1 commit vc.2)
            (zip visitors children_visitors_must_continue);
        let coroutines := started.*2 in
        let coroutines_must_continue := started.*1 in
        let st :=
          Discovery
            (<[id commit := coroutines]> (commit_coroutines st))
            (<[id commit := coroutines_must_continue]>
               (commit_coroutines_must_continue st))
            (branch_heads st) (branches st) in
        if negb (existsb (λ b : bool, b) coroutines_must_continue) then
          Returns (st, branch, true)
        else
          match parents commit with
          | [] => Returns (st, branch, true)
          | first_parent :: branch_parents =>
              let st :=
                if bool_decide (1 < length (parents commit))%nat then
                  let new_branches :=
                    filter (λ p, discovered st p = false) branch_parents in
                  Discovery (commit_coroutines st)
                    (commit_coroutines_must_continue st)
                    (branch_heads st ++ new_branches) (branches st)
                else st in
              follow_first_parents visitors head commit_children first_parent
                st branch
          end.
Proof. by destruct commit. Qed.

(** The invariant does not look at the work list. *)
Lemma discovery_inv_ext st st' branch :
  commit_coroutines st' = commit_coroutines st →
  branches st' = branches st →
  discovery_inv visitors st branch → discovery_inv visitors st' branch.
Proof.
  intros Hc Hb [H1 H2 H3]. split; rewrite ?Hc, ?Hb; done.
Qed.

Lemma outcome_map_length {A B : Type} (f : A → outcome B) l r :
  outcome_map f l = Returns r → length r = length l.
Proof.
  revert r. induction l as [|a l IH]; intros r; simpl; [by intros [= <-]|].
  destruct (f a); [|done]. simpl. destruct (outcome_map f l); [|done].
  intros [= <-]. simpl. f_equal. by apply IH.
Qed.

Lemma outcome_map_elem {A B : Type} (f : A → outcome B) l r y :
  outcome_map f l = Returns r → y ∈ r → ∃ x, x ∈ l ∧ f x = Returns y.
Proof.
  revert r. induction l as [|a l IH]; intros r; simpl.
  { intros [= <-] ?%elem_of_nil. done. }
  destruct (f a) as [b|] eqn:Hfa; [|done]. simpl.
  destruct (outcome_map f l) as [bs|]; [|done].
  intros [= <-] [->|Hy]%elem_of_cons.
  - exists a. split; [by left|done].
  - destruct (IH bs eq_refl Hy) as (x & Hx & Hfx). exists x. split; [by right|done].
Qed.

Lemma discovery_inv_start st branch commit cmcs started :
  discovery_inv visitors st branch →
  discovered st commit = false →
  length cmcs = length visitors →
  outcome_map (λ vc : visitor * bool, vc.1 commit vc.2) (zip visitors cmcs)
  = Returns started →
  discovery_inv visitors
    (Discovery (<[id commit := started.*2]> (commit_coroutines st))
       (<[id commit := started.*1]> (commit_coroutines_must_continue st))
       (branch_heads st) (branches st))
    (branch ++ [commit]).
Proof.
  intros [Hnd Hdom Hst] Hnew Hlen Hstarted.
  unfold discovered in Hnew. apply bool_decide_eq_false in Hnew.
  rewrite Hdom in Hnew.
  split; simpl.
  - rewrite app_assoc, fmap_app, NoDup_app. split_and!; [done| |].
    + intros k Hk [->|[]%elem_of_nil]%elem_of_cons. done.
    + simpl. apply NoDup_singleton.
  - intros k. rewrite app_assoc, fmap_app, elem_of_app, <- Hdom.
    simpl. rewrite list_elem_of_singleton.
    destruct (decide (id commit = k)) as [<-|Hne].
    + rewrite lookup_insert_eq. split; [by right|done].
    + rewrite lookup_insert_ne by done. split; [by left|].
      intros [?|?]; [done|congruence].
  - intros c. rewrite app_assoc, elem_of_app, list_elem_of_singleton.
    intros [Hc| ->].
    + destruct (Hst c Hc) as (cs & Hcs & Hon).
      exists cs. split; [|done]. rewrite lookup_insert_ne; [done|].
      intros Heq. apply Hnew. rewrite Heq. apply list_elem_of_fmap. eauto.
    + exists (started.*2). rewrite lookup_insert_eq. split; [done|].
      by exists cmcs, started.
Qed.

Lemma follow_first_parents_inv commit_children commit :
  ∀ st branch st' branch' keep,
    discovery_inv visitors st branch →
    follow_first_parents visitors head commit_children commit st branch
    = Returns (st', branch', keep) →
    discovery_inv visitors st' branch'
    ∧ branches st' = branches st
    ∧ (keep = false → branch' = []).
Proof.
  induction commit as [commit IH] using Commit_first_parent_ind.
  intros st branch st' branch' keep Hinv.
  rewrite follow_first_parents_unfold.
  destruct (discovered st commit) eqn:Hdisc.
  { intros [= <- <- <-]. done. }
  cbn zeta.
  destruct (negb (commit_eqb commit head) && _) eqn:Hdefer.
  { intros [= <- <- <-]. split_and!; [by apply (discovery_inv_ext st)| done |].
    by destruct branch. }
  destruct (if commit_eqb commit head then _ else _) as [cmcs|] eqn:Hcmcs;
    [|done].
  assert (length cmcs = length visitors) as Hlen.
  { destruct (commit_eqb commit head).
    - injection Hcmcs as <-. apply length_map.
    - apply outcome_map_length in Hcmcs. by rewrite Hcmcs, length_seq. }
  cbn [mbind outcome_bind].
  destruct (outcome_map _ (zip visitors cmcs)) as [started|] eqn:Hstarted;
    [|done].
  cbn [mbind outcome_bind].
  pose proof (discovery_inv_start _ _ _ _ _ Hinv Hdisc Hlen Hstarted) as Hinv'.
  destruct (negb (existsb _ _)).
  { intros [= <- <- <-]. done. }
  destruct (parents commit) as [|first_parent branch_parents] eqn:Hps.
  { intros [= <- <- <-]. done. }
  intros Hrec. eapply IH in Hrec; [|done|].
  - destruct Hrec as (? & Hb & ?). split_and!; [done| |done].
    rewrite Hb. by case_bool_decide.
  - case_bool_decide; [|done]. by eapply discovery_inv_ext; [..|exact Hinv'].
Qed.

Lemma discover_inv fuel commit_children :
  ∀ st st',
    discovery_inv visitors st [] →
    discover visitors head fuel commit_children st = Some (Returns st') →
    discovery_inv visitors st' [].
Proof.
  induction fuel as [|fuel IH]; intros st st' Hinv; simpl.
  - destruct (branch_heads st); [|done]. by intros [= <-].
  - destruct (branch_heads st) as [|commit rest]; [by intros [= <-]|].
    destruct (follow_first_parents _ _ _ _ _ _) as [[[st1 branch] keep]|]
      eqn:Hfollow; [|done].
    apply follow_first_parents_inv in Hfollow as (Hinv1 & Hb & Hkeep);
      [|by apply (discovery_inv_ext st)].
    apply IH. destruct Hinv1 as [H1 H2 H3].
    assert (concat (branches st1 ++ (if keep then [branch] else [])) ++ []
            = concat (branches st1) ++ branch) as Heq.
    { rewrite concat_app, app_nil_r. destruct keep; simpl.
      - by rewrite app_nil_r.
      - by rewrite Hkeep. }
    split; simpl; rewrite Heq; done.
Qed.

(** A commit that waits for a child that is not discovered is put back
    on the work list again and again. *)
Lemma discover_defers_for_ever commit_children c :
  commit_eqb c head = false →
  ∀ fuel st,
    branch_heads st = [c] →
    discovered st c = false →
    forallb (discovered st) (default [] (commit_children !! id c)) = false →
    discover visitors head fuel commit_children st = None.
Proof.
  intros Hne. induction fuel as [|fuel IH]; intros st Hheads Hnew Hchild;
    simpl; rewrite Hheads; [done|].
  rewrite follow_first_parents_unfold.
  change (discovered (Discovery _ _ _ _) c) with (discovered st c).
  rewrite Hnew. cbn zeta.
  change (forallb (discovered (Discovery _ _ _ _)) ?l)
    with (forallb (discovered st) l).
  rewrite Hne, Hchild. simpl. by apply IH.
Qed.

Lemma discovery_pass_inv fuel st :
  discovery_pass visitors head fuel = Some (Returns st) →
  discovery_inv visitors st [].
Proof.
  apply discover_inv. split; simpl.
  - constructor.
  - intros k. rewrite lookup_empty. split; [by intros []|by intros ?%elem_of_nil].
  - by intros c ?%elem_of_nil.
Qed.

End Walker_facts.

(** ** The resolution pass *)

Lemma log_is_dom_snoc (visited : gmap oid result) log c r :
  log_is_dom visited log → log_is_dom (<[id c := r]> visited) (log ++ [c]).
Proof.
  intros Hdom k. rewrite fmap_app, elem_of_app, <- (Hdom k). simpl.
  rewrite list_elem_of_singleton.
  destruct (decide (id c = k)) as [<-|Hne].
  - rewrite lookup_insert_eq. split; [by right|done].
  - rewrite lookup_insert_ne by done. split; [by left|].
    intros [?|?]; [done|congruence].
Qed.

(** An induction principle for the resolution pass: a property of the
    results and the log that holds at the start, and that every
    resolution of a commit keeps, holds at the end; and at the end the
    log is a rearrangement of the commits that were on the branches. *)
Section Resolution_facts.

Variable coroutines : gmap oid (list coroutine).
Variable all : list Commit.
Variable P : gmap oid result → list Commit → Prop.

Hypothesis P_step : ∀ (visited : gmap oid result) log c cs r,
  P visited log →
  log_is_dom visited log →
  c ∈ all →
  id c ∉ id <$> log →
  coroutines !! id c = Some cs →
  parents_ready coroutines visited c = true →
  send_all cs {[ "commit-id" := PyOid (id c) ]} (parent_results_of visited c)
  = Returns r →
  P (<[id c := r]> visited) (log ++ [c]).

Lemma resolve_branch_inv todo :
  ∀ (visited : gmap oid result) log visited' log' remaining,
    resolve_branch coroutines todo visited log
    = Returns (visited', log', remaining) →
    P visited log →
    log_is_dom visited log →
    NoDup (id <$> (log ++ todo)) →
    (∀ c, c ∈ todo → c ∈ all) →
    P visited' log' ∧ log_is_dom visited' log'
    ∧ ∃ resolved, todo = resolved ++ remaining ∧ log' = log ++ resolved.
Proof using P_step.
  induction todo as [|c rest IH]; intros visited log visited' log' remaining.
  - intros [= <- <- <-] HP Hdom _ _. split_and!; [done..|].
    exists []. split; [done|by rewrite app_nil_r].
  - simpl. destruct (parents_ready coroutines visited c) eqn:Hready; simpl.
    2: { intros [= <- <- <-] HP Hdom _ _. split_and!; [done..|].
         exists []. split; [done|by rewrite app_nil_r]. }
    destruct (coroutines !! id c) as [cs|] eqn:Hcs; [|done].
    destruct (send_all cs _ _) as [r|] eqn:Hsend; [|done].
    cbn [mbind outcome_bind].
    intros Hrec HP Hdom Hnd Hall.
    assert (id c ∉ id <$> log) as Hfresh.
    { rewrite fmap_app, NoDup_app in Hnd. destruct Hnd as (_ & Hdisj & _).
      intros Hin. apply (Hdisj _ Hin). rewrite fmap_cons. by left. }
    apply IH in Hrec as (HP' & Hdom' & resolved & -> & ->).
    + split_and!; [done..|]. exists (c :: resolved).
      by rewrite <- app_assoc.
    + eapply P_step; eauto. apply Hall. by left.
    + by apply log_is_dom_snoc.
    + by rewrite <- app_assoc.
    + intros d Hd. apply Hall. by right.
Qed.

Lemma resolve_inv fuel :
  ∀ bs (visited : gmap oid result) log visited' log',
    resolve fuel coroutines bs visited log = Some (Returns (visited', log')) →
    P visited log →
    log_is_dom visited log →
    NoDup (id <$> (log ++ concat bs)) →
    (∀ c, c ∈ concat bs → c ∈ all) →
    P visited' log' ∧ log_is_dom visited' log' ∧ log' ≡ₚ log ++ concat bs.
Proof using P_step.
  induction fuel as [|fuel IH]; intros bs visited log visited' log'.
  - destruct bs; [|done]. intros [= <- <-] HP Hdom _ _.
    by rewrite app_nil_r.
  - destruct bs as [|branch rest].
    { intros [= <- <-] HP Hdom _ _. by rewrite app_nil_r. }
    cbn [resolve concat].
    destruct (resolve_branch coroutines (reverse branch) visited log)
      as [[[visited1 log1] remaining]|] eqn:Hbranch; [|done].
    intros Hrec HP Hdom Hnd Hall.
    assert (NoDup (id <$> (log ++ reverse branch))) as Hnd1.
    { rewrite reverse_Permutation. rewrite (app_assoc log), fmap_app in Hnd.
      by apply NoDup_app in Hnd as [? _]. }
    assert (∀ c, c ∈ reverse branch → c ∈ all) as Hall1.
    { intros c Hc. rewrite elem_of_reverse in Hc. apply Hall, elem_of_app.
      by left. }
    destruct (resolve_branch_inv _ _ _ _ _ _ Hbranch HP Hdom Hnd1 Hall1)
      as (HP1 & Hdom1 & resolved & Hsplit & ->).
    assert (branch ≡ₚ resolved ++ remaining) as Hperm.
    { by rewrite <- Hsplit, reverse_Permutation. }
    assert (∀ bs',
      concat bs' ≡ₚ remaining ++ concat rest →
      resolve fuel coroutines bs' visited1 (log ++ resolved)
      = Some (Returns (visited', log')) →
      P visited' log' ∧ log_is_dom visited' log'
      ∧ log' ≡ₚ log ++ branch ++ concat rest) as Hnext.
    { intros bs' Hbs' Hres.
      assert (NoDup (id <$> ((log ++ resolved) ++ concat bs'))) as Hnd2.
      { rewrite Hbs'. rewrite Hperm in Hnd. rewrite <- !app_assoc in Hnd.
        by rewrite <- !app_assoc. }
      assert (∀ c, c ∈ concat bs' → c ∈ all) as Hall2.
      { intros c Hc. apply Hall. rewrite Hbs' in Hc. rewrite Hperm.
        rewrite !elem_of_app in Hc. rewrite !elem_of_app.
        destruct Hc as [?|?]; [left; by right|by right]. }
      destruct (IH _ _ _ _ _ Hres HP1 Hdom1 Hnd2 Hall2) as (? & ? & Hlog).
      split_and!; [done..|]. rewrite Hlog, Hbs', Hperm.
      by rewrite <- !app_assoc. }
    destruct remaining as [|c remaining].
    + apply Hnext in Hrec; done.
    + apply Hnext in Hrec; [done|].
      rewrite concat_app. simpl. rewrite app_nil_r, reverse_Permutation.
      apply Permutation_app_comm.
Qed.

End Resolution_facts.

(** ** The whole run *)

Lemma parents_ready_spec (coroutines : gmap oid (list coroutine))
    (visited : gmap oid result) c :
  parents_ready coroutines visited c = true
  ↔ ∀ p, p ∈ parents c →
         is_Some (visited !! id p) ∨ coroutines !! id p = None.
Proof.
  unfold parents_ready. rewrite forallb_forall. split.
  - intros H p Hp%list_elem_of_In. specialize (H p Hp).
    apply orb_true_iff in H as [H|H].
    + left. by apply bool_decide_eq_true in H.
    + right. apply negb_true_iff, bool_decide_eq_false in H.
      by apply eq_None_not_Some.
  - intros H p Hp%list_elem_of_In. apply orb_true_iff.
    destruct (H p Hp) as [Hv|Hc].
    + left. by apply bool_decide_eq_true.
    + right. apply negb_true_iff, bool_decide_eq_false. rewrite Hc.
      by intros [].
Qed.

Lemma snoc_eq_split {A : Type} (l : list A) x before c after :
  l ++ [x] = before ++ c :: after →
  (after = [] ∧ before = l ∧ c = x)
  ∨ ∃ after', after = after' ++ [x] ∧ l = before ++ c :: after'.
Proof.
  destruct after as [|y after _] using rev_ind.
  - intros [-> ->]%(app_inj_tail l before x c). by left.
  - rewrite app_comm_cons, app_assoc.
    intros [-> ->]%(app_inj_tail l (before ++ c :: after) x y).
    right. by exists after.
Qed.

Section Run_facts.

Variable visitors : list visitor.
Variable head : Commit.

(** Induction over a run that returns: a property of the results and the
    log that holds for the empty ones, and that every resolution of a
    discovered commit with its own coroutines keeps, holds for what the
    run returns.  The log is then a rearrangement of the discovered
    commits. *)
Lemma _run_on_history_log_ind (P : gmap oid result → list Commit → Prop)
    fuel st (visited : gmap oid result) log :
  discovery_pass visitors head fuel = Some (Returns st) →
  _run_on_history_log visitors head fuel = Some (Returns (visited, log)) →
  P ∅ [] →
  (∀ (visited : gmap oid result) log c cs r,
     P visited log →
     log_is_dom visited log →
     id c ∉ id <$> log →
     commit_coroutines st !! id c = Some cs →
     started_on visitors cs c →
     parents_ready (commit_coroutines st) visited c = true →
     send_all cs {[ "commit-id" := PyOid (id c) ]} (parent_results_of visited c)
     = Returns r →
     P (<[id c := r]> visited) (log ++ [c])) →
  P visited log ∧ log_is_dom visited log ∧ log ≡ₚ concat (branches st)
  ∧ discovery_inv visitors st [].
Proof.
  intros Hdisc Hrun HP0 Hstep. unfold _run_on_history_log in Hrun.
  rewrite Hdisc in Hrun.
  pose proof (discovery_pass_inv _ _ _ _ Hdisc) as Hinv.
  destruct Hinv as [Hnd Hdom Hst]. rewrite app_nil_r in Hnd.
  eapply (resolve_inv (commit_coroutines st) (concat (branches st)) P)
    in Hrun as (HP & Hlog & Hperm); [| |done| |done|done].
  - split_and!; [done..|]. split; [by rewrite app_nil_r|done..].
  - intros visited0 log0 c cs r ? ? Hc ? Hcs ? ?.
    eapply Hstep; eauto.
    destruct (Hst c) as (cs' & Hcs' & Hon).
    { rewrite app_nil_r. done. }
    congruence.
  - intros k. rewrite lookup_empty. split; [by intros []|by intros ?%elem_of_nil].
Qed.

(** C8, amended.  In a run that returns, the commits that were resolved
    are the commits that were discovered, each resolved once (the log has
    no commit id twice), and each after those of its parents that were
    discovered. *)
Theorem discovered_commits_resolved_once fuel st (visited : gmap oid result) log :
  discovery_pass visitors head fuel = Some (Returns st) →
  _run_on_history_log visitors head fuel = Some (Returns (visited, log)) →
  NoDup (id <$> log)
  ∧ (∀ k, k ∈ id <$> log ↔ is_Some (commit_coroutines st !! k))
  ∧ (∀ k, is_Some (visited !! k) ↔ k ∈ id <$> log)
  ∧ parents_first (commit_coroutines st) log.
Proof.
  intros Hdisc Hrun.
  destruct (_run_on_history_log_ind
              (λ visited log, parents_first (commit_coroutines st) log)
              fuel st visited log Hdisc Hrun)
    as (Hfirst & Hdom & Hperm & [Hnd Hcor _]).
  - by intros [|??] ? ? ?.
  - intros visited0 log0 c cs r Hfirst Hdom Hfresh Hcs _ Hready _.
    intros before d after Hsplit p Hp Hdiscovered.
    apply snoc_eq_split in Hsplit as [(-> & -> & ->)|(after' & -> & ->)].
    + rewrite parents_ready_spec in Hready.
      destruct (Hready p Hp) as [Hv|Hnone].
      * by apply Hdom.
      * rewrite Hnone in Hdiscovered. by destruct Hdiscovered.
    + by eapply Hfirst.
  - rewrite app_nil_r in Hnd, Hcor. split_and!; [|..|done|done].
    + by rewrite Hperm.
    + intros k. by rewrite Hcor, Hperm.
Qed.

End Run_facts.

(** ** What the built-in visitors leave alone *)

Lemma release_number_resume_preserves key ev pre b tag :
  key ≠ "epoch-version" → key ≠ "release-number" → key ≠ "release-complete" →
  preserves_key key (release_number_resume ev pre b tag).
Proof.
  intros H1 H2 H3 cr prs r. unfold release_number_resume.
  destruct (max_release ev prs None); [|done]. simpl. intros [= <-].
  by rewrite !lookup_insert_ne.
Qed.

Lemma changelog_resume_preserves key commit sp blob changed ptf mu :
  key ≠ "changelog" →
  preserves_key key (changelog_resume commit sp blob changed ptf mu).
Proof.
  intros Hkey cr prs r. unfold changelog_resume.
  destruct (utc_strftime _) as [date|]; [|done]. simpl.
  destruct (getitem cr "epoch-version") as [ev|]; [|done]. simpl.
  destruct (getitem cr "release-complete") as [rc|]; [|done]. simpl.
  destruct sp; simpl; [|intros [= <-]; by rewrite lookup_insert_ne].
  destruct mu; [intros [= <-]; by rewrite lookup_insert_ne|].
  destruct changed; [intros [= <-]; by rewrite lookup_insert_ne|].
  destruct (if bool_decide (length (parents commit) = 1%nat) then _ else _)
    as [previous|]; [|done].
  simpl. destruct (negb _).
  - destruct (negb (str_truthy _));
      (destruct (prepend_entry _ previous); [|done]); simpl;
      intros [= <-]; by rewrite lookup_insert_ne.
  - intros [= <-]. by rewrite lookup_insert_ne.
Qed.

Lemma release_number_visitor_coroutine self commit cmc b k :
  release_number_visitor self commit cmc = Returns (b, k) →
  ∃ ev pre base tag, k = release_number_resume ev pre base tag.
Proof.
  unfold release_number_visitor.
  destruct (_get_rpmverflags_for_commit self commit) as [[vf|]|]; [| |done];
    simpl.
  - destruct (if negb _ then _ else _); [|done]. simpl.
    intros [= _ <-]. eauto.
  - intros [= _ <-]. eauto.
Qed.

Lemma send_all_preserves key (cs : list coroutine) :
  Forall (preserves_key key) cs →
  ∀ (cr : result) prs r, send_all cs cr prs = Returns r → r !! key = cr !! key.
Proof.
  induction 1 as [|co cs Hco _ IH]; intros cr prs r; simpl.
  - by intros [= <-].
  - destruct (co cr prs) as [cr'|] eqn:Hcr'; [|done]. simpl.
    intros Hr%IH. rewrite Hr. by eapply Hco.
Qed.

(** The coroutines of a commit are those of the visitors, one for one. *)
Lemma started_on_Forall visitors cs c (Q : visitor → Prop)
    (R : coroutine → Prop) :
  (∀ v cmc b k, Q v → v c cmc = Returns (b, k) → R k) →
  Forall Q visitors → started_on visitors cs c → Forall R cs.
Proof.
  intros HQR HQ (cmcs & started & _ & Hstarted & ->).
  apply Forall_fmap, Forall_forall. intros [b k] Hy.
  destruct (outcome_map_elem _ _ _ _ Hstarted Hy) as ([v cmc] & Hx & Hv).
  simpl in *. eapply HQR; [|done].
  rewrite Forall_forall in HQ. apply HQ. by eapply elem_of_zip_l.
Qed.

Lemma _run_on_history_returns visitors head fuel (visited : gmap oid result) :
  _run_on_history visitors head fuel = Some (Returns visited) →
  ∃ st log,
    discovery_pass visitors head fuel = Some (Returns st)
    ∧ _run_on_history_log visitors head fuel = Some (Returns (visited, log)).
Proof.
  unfold _run_on_history.
  destruct (_run_on_history_log visitors head fuel) as [[[v log]|]|] eqn:Hlog;
    [|done..].
  intros [= ->]. unfold _run_on_history_log in Hlog.
  destruct (discovery_pass visitors head fuel) as [[st|]|] eqn:Hdisc; [|done..].
  by exists st, log.
Qed.

(** C10.  With the built-in visitors, every result of a run has the key
    ["commit-id"], bound to the id of its commit: the walker puts it into
    the dictionary that it sends to the first coroutine, and the coroutines
    of both visitors leave it alone. *)
Theorem commit_id_is_kept self visitors head fuel (visited : gmap oid result) :
  Forall (λ v, v = release_number_visitor self ∨ v = changelog_visitor self)
    visitors →
  _run_on_history visitors head fuel = Some (Returns visited) →
  ∀ k r, visited !! k = Some r → r !! "commit-id" = Some (PyOid k).
Proof.
  intros Hvisitors Hret.
  apply _run_on_history_returns in Hret as (st & log & Hdisc & Hrun).
  eapply (_run_on_history_log_ind visitors head
            (λ visited log, ∀ k r, visited !! k = Some r →
                                   r !! "commit-id" = Some (PyOid k)));
    [done|done|done|].
  intros visited0 log0 c cs r0 HP _ _ _ Hon _ Hsend k r.
  destruct (decide (id c = k)) as [<-|Hne].
  - rewrite lookup_insert_eq. intros [= <-].
    erewrite send_all_preserves; [|..|done]; [by rewrite lookup_singleton_eq|].
    eapply started_on_Forall; [|done..].
    intros v cmc b co [->| ->] Hv.
    + apply release_number_visitor_coroutine in Hv as (?&?&?&?& ->).
      by apply release_number_resume_preserves.
    + apply changelog_visitor_coroutine in Hv as ->.
      by apply changelog_resume_preserves.
  - rewrite lookup_insert_ne by done. apply HP.
Qed.

(** ** Release numbers along a run *)

Lemma py_eq_of_opt_str_refl ev : py_eq (of_opt_str ev) (of_opt_str ev) = true.
Proof. destruct ev; simpl; [by apply bool_decide_eq_true|done]. Qed.

Lemma parent_results_of_insert (visited : gmap oid result) c k r :
  (∀ p, p ∈ parents c → id p ≠ k) →
  parent_results_of (<[k := r]> visited) c = parent_results_of visited c.
Proof.
  intros Hne. unfold parent_results_of. apply map_ext_in.
  intros p Hp%list_elem_of_In. rewrite lookup_insert_ne; [done|].
  intros Heq. by apply (Hne p).
Qed.

Lemma parent_results_of_ok (visited : gmap oid result) c :
  (∀ k r, visited !! k = Some r → release_result_ok r) →
  Forall release_result_ok (parent_results_of visited c).
Proof.
  intros Hok. unfold parent_results_of. apply Forall_forall.
  intros res (p & <- & Hp)%list_elem_of_In%in_map_iff. cbn beta.
  destruct (visited !! id p) as [r|] eqn:Hr; simpl; [by eapply Hok|by left].
Qed.

Lemma _run_on_history_log_returns visitors head fuel
    (visited : gmap oid result) log :
  _run_on_history_log visitors head fuel = Some (Returns (visited, log)) →
  ∃ st, discovery_pass visitors head fuel = Some (Returns st).
Proof.
  unfold _run_on_history_log.
  destruct (discovery_pass visitors head fuel) as [[st|]|]; [|done..]. eauto.
Qed.

Lemma release_inv_step self rest coroutines (visited : gmap oid result)
    log c cs r :
  Forall (λ v, v = changelog_visitor self) rest →
  release_inv coroutines visited log →
  log_is_dom visited log →
  id c ∉ id <$> log →
  coroutines !! id c = Some cs →
  started_on (release_number_visitor self :: rest) cs c →
  parents_ready coroutines visited c = true →
  send_all cs {[ "commit-id" := PyOid (id c) ]} (parent_results_of visited c)
  = Returns r →
  release_inv coroutines (<[id c := r]> visited) (log ++ [c]).
Proof.
  intros Hrest [Hok Hlog] Hdom Hfresh Hcs Hon Hready Hsend.
  assert (visited !! id c = None) as Hnone.
  { apply eq_None_not_Some. by rewrite (Hdom (id c)). }
  rewrite parents_ready_spec in Hready.
  assert (∀ d, (∀ p, p ∈ parents d →
                     is_Some (visited !! id p) ∨ coroutines !! id p = None) →
               ∀ p, p ∈ parents d → id p ≠ id c) as Hother.
  { intros d Hd p Hp Heq. destruct (Hd p Hp) as [[? Hv]|Hc]; congruence. }
  (* the result [r] of the new commit *)
  destruct Hon as (cmcs & started & Hlen & Hstarted & ->).
  destruct cmcs as [|cmc0 cmcs]; [done|]. simpl in Hstarted.
  destruct (release_number_visitor self c cmc0) as [[b0 k0]|] eqn:Hk0; [|done].
  simpl in Hstarted.
  destruct (outcome_map _ (zip rest cmcs)) as [started'|] eqn:Hstarted';
    [|done].
  injection Hstarted as <-. simpl in Hsend.
  apply release_number_visitor_coroutine in Hk0 as (ev & pre & bs & tag & ->).
  destruct (release_number_resume_spec ev pre bs tag
              {[ "commit-id" := PyOid (id c) ]} (parent_results_of visited c))
    as (r1 & Hr1 & Hev & Hrn & Hpos & _); [by apply parent_results_of_ok|].
  rewrite Hr1 in Hsend. simpl in Hsend.
  assert (∀ key, key ≠ "changelog" → r !! key = r1 !! key) as Hkeep.
  { intros key Hkey. eapply send_all_preserves; [|done].
    eapply (started_on_Forall rest _ c); [|exact Hrest|].
    - intros v cmc b co -> Hv. apply changelog_visitor_coroutine in Hv as ->.
      by apply changelog_resume_preserves.
    - exists cmcs, started'. simpl in Hlen. split_and!; [lia|done..]. }
  assert (∃ ev' rn,
            r !! "epoch-version" = Some ev'
            ∧ r !! "release-number" = Some (PyInt rn)
            ∧ rn = spec_release_number ev' (parent_results_of visited c)
            ∧ 1 ≤ rn) as (ev' & rn & Hev' & Hrn' & Hspec & Hrnpos).
  { eexists _, _. rewrite !Hkeep by done. eauto. }
  split.
  - intros k r'. destruct (decide (id c = k)) as [<-|Hne].
    + rewrite lookup_insert_eq. intros [= <-]. right. by exists ev', rn.
    + rewrite lookup_insert_ne by done. apply Hok.
  - intros d [Hd| ->%list_elem_of_singleton]%elem_of_app.
    + destruct (Hlog d Hd) as ((rd & evd & rnd & Hvd & ? & ? & ? & ?) & Hpd).
      assert (id d ≠ id c) as Hne.
      { intros Heq. apply Hfresh. rewrite <- Heq. apply list_elem_of_fmap. eauto. }
      split.
      * exists rd, evd, rnd. rewrite lookup_insert_ne by done.
        rewrite parent_results_of_insert by eauto. done.
      * intros p Hp. destruct (Hpd p Hp) as [Hv|?]; [left|by right].
        rewrite lookup_insert_ne; [done|]. by apply not_eq_sym, (Hother d).
    + split.
      * exists r, ev', rn. rewrite lookup_insert_eq.
        rewrite parent_results_of_insert by eauto. done.
      * intros p Hp. destruct (Hready p Hp) as [Hv|?]; [left|by right].
        rewrite lookup_insert_ne; [done|]. by apply not_eq_sym, (Hother c).
Qed.

(** C1.  In a run of the release-number visitor (alone, or followed by
    the changelog visitor), the release number of every resolved commit is
    1 plus the maximum of the release numbers of the parent results whose
    epoch-version is the one of the commit, 0 standing in when there is
    none; it is at least 1.  On two parent results with the epoch-version
    of the commit and the release numbers 3 and 5, the second phase gives
    6. *)
Theorem release_number_is_one_plus_max self rest head fuel
    (visited : gmap oid result) log :
  Forall (λ v, v = changelog_visitor self) rest →
  _run_on_history_log (release_number_visitor self :: rest) head fuel
  = Some (Returns (visited, log)) →
  (∀ c, c ∈ log →
     ∃ r ev rn,
       visited !! id c = Some r
       ∧ r !! "epoch-version" = Some ev
       ∧ r !! "release-number" = Some (PyInt rn)
       ∧ rn = spec_release_number ev (parent_results_of visited c)
       ∧ 1 ≤ rn)
  ∧ (∀ ev pre b tag (commit_result r3 r5 : result),
       r3 !! "epoch-version" = Some (of_opt_str ev) →
       r3 !! "release-number" = Some (PyInt 3) →
       r5 !! "epoch-version" = Some (of_opt_str ev) →
       r5 !! "release-number" = Some (PyInt 5) →
       ∃ r, release_number_resume ev pre b tag commit_result [r3; r5]
            = Returns r
            ∧ r !! "release-number" = Some (PyInt 6)).
Proof.
  intros Hrest Hrun. split.
  - destruct (_run_on_history_log_returns _ _ _ _ _ Hrun) as (st & Hdisc).
    destruct (_run_on_history_log_ind (release_number_visitor self :: rest)
                head (release_inv (commit_coroutines st))
                fuel st visited log Hdisc Hrun)
      as ([_ Hlog] & _).
    + split; [by intros k r; rewrite lookup_empty|by intros c ?%elem_of_nil].
    + intros. by eapply release_inv_step.
    + intros c Hc. by destruct (Hlog c Hc).
  - intros ev pre b tag cr r3 r5 Hev3 Hrn3 Hev5 Hrn5.
    destruct (release_number_resume_spec ev pre b tag cr [r3; r5])
      as (r & Hr & _ & Hrn & _).
    { repeat apply Forall_cons_2; [| |constructor];
        right; eexists _, _; split_and!; eauto; lia. }
    exists r. split; [done|]. rewrite Hrn. unfold spec_release_number.
    rewrite !matching_release_numbers_cons, Hev3, Hrn3, Hev5, Hrn5.
    by rewrite py_eq_of_opt_str_refl.
Qed.

(** ** Determinism *)





(** * Further properties *)

(** ** The files of a diff *)

Lemma _files_changed_in_diff_fold (diff : list diff_delta) (acc : gset string) f :
  f ∈ foldl
        (λ (files : gset string) delta,
           let files :=
             match old_file delta with
             | Some f => files ∪ {[ path f ]}
             | None => files
             end in
           match new_file delta with
           | Some f => files ∪ {[ path f ]}
           | None => files
           end)
        acc diff
  ↔ f ∈ acc
    ∨ ∃ delta, delta ∈ diff
               ∧ (path <$> old_file delta = Some f
                  ∨ path <$> new_file delta = Some f).
Proof.
  revert acc. induction diff as [|delta diff IH]; intros acc; simpl.
  - split; [by left|]. intros [?|(? & ?%elem_of_nil & _)]; done.
  - rewrite IH. clear IH.
    assert ((∃ d, d ∈ delta :: diff
                  ∧ (path <$> old_file d = Some f ∨ path <$> new_file d = Some f))
            ↔ (path <$> old_file delta = Some f
               ∨ path <$> new_file delta = Some f)
              ∨ ∃ d, d ∈ diff
                     ∧ (path <$> old_file d = Some f
                        ∨ path <$> new_file d = Some f)) as ->.
    { split.
      - intros (d & [->|Hd]%elem_of_cons & Hf); [by left|right; by exists d].
      - intros [Hf|(d & Hd & Hf)].
        + exists delta. split; [by left|done].
        + exists d. split; [by right|done]. }
    destruct (old_file delta) as [[o]|], (new_file delta) as [[n]|]; simpl;
      rewrite ?elem_of_union, ?elem_of_singleton;
      (split; [intros H|intros H]);
      repeat match goal with
             | H : _ ∨ _ |- _ => destruct H as [H|H]
             | H : Some _ = Some _ |- _ => injection H as ->
             | H : None = Some _ |- _ => discriminate H
             | H : _ = _ |- _ => rewrite H
             end; auto 6.
Qed.

(** X1.  The set of changed files holds exactly the paths of the old and
    of the new file of the deltas of the diff. *)
Theorem _files_changed_in_diff_spec (diff : list diff_delta) f :
  f ∈ _files_changed_in_diff diff
  ↔ ∃ delta, delta ∈ diff
             ∧ (path <$> old_file delta = Some f
                ∨ path <$> new_file delta = Some f).
Proof.
  unfold _files_changed_in_diff. rewrite _files_changed_in_diff_fold.
  split; [|by right]. intros [?%not_elem_of_empty|?]; done.
Qed.

(** ** The ignore patterns *)

Lemma fnmatchcase_go_literal pat f :
  literal_pattern pat = true → fnmatchcase_go pat f = true ↔ f = pat.
Proof.
  revert f. induction pat as [|p pat IH]; intros f Hlit.
  - destruct f; simpl; split; done.
  - cbn [literal_pattern] in Hlit.
    apply andb_true_iff in Hlit as [[Hstar Hq]%andb_true_iff Hlit].
    apply negb_true_iff in Hstar, Hq. cbn [fnmatchcase_go]. rewrite Hstar.
    destruct f as [|c f]; [split; done|]. rewrite Hq. cbn [orb].
    rewrite andb_true_iff, Ascii.eqb_eq, (IH f Hlit). split.
    + by intros [-> ->].
    + by intros [= -> ->].
Qed.

Lemma fnmatchcase_go_star f : fnmatchcase_go "*" f = true.
Proof.
  cbn [fnmatchcase_go]. change (Ascii.eqb "*" "*") with true. cbn iota.
  induction f as [|c f IH]; [done|]. cbn [fnmatchcase_go orb]. exact IH.
Qed.

Lemma fnmatchcase_go_prefix_star pre f :
  literal_pattern pre = true →
  fnmatchcase_go (pre +:+ "*") f = true ↔ ∃ rest, f = pre +:+ rest.
Proof.
  revert f. induction pre as [|p pre IH]; intros f Hlit.
  - change (EmptyString +:+ "*") with "*". rewrite fnmatchcase_go_star.
    split; [|done]. intros _. by exists f.
  - cbn [literal_pattern] in Hlit.
    apply andb_true_iff in Hlit as [[Hstar Hq]%andb_true_iff Hlit].
    apply negb_true_iff in Hstar, Hq.
    change (String p pre +:+ "*") with (String p (pre +:+ "*")).
    cbn [fnmatchcase_go]. rewrite Hstar.
    destruct f as [|c f].
    { split; [done|]. by intros (rest & [=]). }
    rewrite Hq. cbn [orb]. rewrite andb_true_iff, Ascii.eqb_eq, (IH f Hlit).
    split.
    + intros [-> (rest & ->)]. by exists rest.
    + intros (rest & [= -> ->]). split; [done|]. by exists rest.
Qed.

Lemma ignored_path_iff f :
  existsb (λ pat, fnmatchcase f pat) changelog_ignore_patterns = true
  ↔ ignored_path f.
Proof.
  unfold changelog_ignore_patterns, ignored_path, fnmatchcase.
  cbn [existsb]. rewrite !orb_true_iff.
  rewrite !fnmatchcase_go_literal by done.
  rewrite (fnmatchcase_go_prefix_star "tests/" f) by done.
  split.
  - intros [?|[?|[?|[?|[]%Bool.diff_false_true]]]]; auto.
  - intros [?|[?|[?|?]]]; auto.
Qed.

(** X2.  A path matches one of the ignore patterns exactly when it is
    [.gitignore], [gating.yaml] or [sources], or starts with [tests/]
    (whatever follows, further slashes included). *)
Theorem ignore_patterns_spec f :
  existsb (λ pat, fnmatchcase f pat) changelog_ignore_patterns = true
  ↔ ignored_path f.
Proof. apply ignored_path_iff. Qed.

(** ** The other branches of the changelog visitor *)


(** X3.  A commit without the spec file gets the empty changelog, whatever
    the results of its parents are, and its visitor does not ask to
    continue. *)
Theorem changelog_empty_without_spec_file self commit cmc b k
    (commit_result : result) (parent_results : list result) date ev rc :
  changelog_visitor self commit cmc = Returns (b, k) →
  ¬ specfile_present_in self commit →
  utc_strftime (commit_time commit) = Returns date →
  commit_result !! "epoch-version" = Some ev →
  commit_result !! "release-complete" = Some rc →
  b = false
  ∧ k commit_result parent_results
    = Returns (<["changelog" := PyTuple []]> commit_result).
Proof.
  intros Hk Hspec Hdate Hev Hrc.
  assert (bool_decide (is_Some (tree commit !! (name self +:+ ".spec"))) = false)
    as Hsp by (by apply bool_decide_eq_false).
  split.
  - unfold changelog_visitor in Hk.
    destruct (parent_to_follow_of commit (changelog_changed_of commit)).
    injection Hk as <- _. rewrite Hsp. by rewrite andb_false_r.
  - rewrite (changelog_visitor_coroutine _ _ _ _ _ Hk), Hsp.
    unfold changelog_resume, getitem. by rewrite Hdate, Hev, Hrc.
Qed.


(** ** A new entry *)

Lemma string_app_assoc (a b c : string) : (a +:+ b) +:+ c = a +:+ b +:+ c.
Proof.
  induction a as [|x a IH]; [done|].
  change (String x ((a +:+ b) +:+ c) = String x (a +:+ b +:+ c)).
  by rewrite IH.
Qed.




(** ** The subject of a commit *)







(** ** Release numbers along the edges of the history *)

Lemma release_inv_final self rest head fuel st (visited : gmap oid result) log :
  Forall (λ v, v = changelog_visitor self) rest →
  discovery_pass (release_number_visitor self :: rest) head fuel
  = Some (Returns st) →
  _run_on_history_log (release_number_visitor self :: rest) head fuel
  = Some (Returns (visited, log)) →
  release_inv (commit_coroutines st) visited log.
Proof.
  intros Hrest Hdisc Hrun.
  eapply (_run_on_history_log_ind (release_number_visitor self :: rest) head
            (release_inv (commit_coroutines st))); [done|done| |].
  - split; [by intros k r; rewrite lookup_empty|by intros c ?%elem_of_nil].
  - intros. by eapply release_inv_step.
Qed.

Lemma foldl_max_le (l : list Z) x : x ≤ foldl Z.max x l.
Proof.
  revert x. induction l as [|a l IH]; intros x; simpl; [lia|].
  etrans; [|apply IH]. lia.
Qed.

Lemma foldl_max_elem (l : list Z) x y : y ∈ l → y ≤ foldl Z.max x l.
Proof.
  revert x. induction l as [|a l IH]; intros x; [by intros ?%elem_of_nil|].
  intros [->|Hy]%elem_of_cons; simpl; [|by apply IH].
  etrans; [|apply foldl_max_le]. lia.
Qed.

Lemma max_default_elem (l : list Z) d y : y ∈ l → y ≤ max_default d l.
Proof.
  destruct l as [|x l]; [by intros ?%elem_of_nil|].
  intros [->|Hy]%elem_of_cons; simpl; [apply foldl_max_le|by apply foldl_max_elem].
Qed.

Lemma py_eq_refl v : py_eq v v = true.
Proof.
  destruct v; simpl; try done; try by apply bool_decide_eq_true.
Qed.

Lemma matching_release_numbers_elem ev (prs : list result) (rp : result) rn :
  rp ∈ prs →
  rp !! "epoch-version" = Some ev →
  rp !! "release-number" = Some (PyInt rn) →
  rn ∈ matching_release_numbers ev prs.
Proof.
  intros Hin Hev Hrn. induction prs as [|r prs IH]; [by apply elem_of_nil in Hin|].
  rewrite matching_release_numbers_cons.
  apply elem_of_cons in Hin as [<-|Hin].
  - rewrite Hev, Hrn, py_eq_refl. by left.
  - specialize (IH Hin). destruct (r !! "epoch-version") as [ev'|]; [|done].
    destruct (r !! "release-number") as [[]|]; try done.
    destruct (py_eq ev ev'); [by right|done].
Qed.

Lemma parent_results_of_elem (visited : gmap oid result) c p rp :
  p ∈ parents c → visited !! id p = Some rp → rp ∈ parent_results_of visited c.
Proof.
  intros Hp Hrp. unfold parent_results_of. apply list_elem_of_In, in_map_iff.
  exists p. rewrite Hrp. split; [done|]. by apply list_elem_of_In.
Qed.

(** X7.  Along a run of the release-number visitor (alone, or followed by
    the changelog visitor), the release number of a commit is greater
    than the release number of each of its parents that has a result with
    the same epoch-version. *)
Theorem release_number_increases self rest head fuel
    (visited : gmap oid result) log c p (rc rp : result) ev :
  Forall (λ v, v = changelog_visitor self) rest →
  _run_on_history_log (release_number_visitor self :: rest) head fuel
  = Some (Returns (visited, log)) →
  c ∈ log →
  p ∈ parents c →
  visited !! id c = Some rc →
  visited !! id p = Some rp →
  rc !! "epoch-version" = Some ev →
  rp !! "epoch-version" = Some ev →
  ∃ rnc rnp,
    rc !! "release-number" = Some (PyInt rnc)
    ∧ rp !! "release-number" = Some (PyInt rnp)
    ∧ rnp < rnc.
Proof.
  intros Hrest Hrun Hc Hp Hrc Hrp Hevc Hevp.
  destruct (_run_on_history_log_returns _ _ _ _ _ Hrun) as (st & Hdisc).
  destruct (release_inv_final _ _ _ _ _ _ _ Hrest Hdisc Hrun) as [Hok Hlog].
  destruct (Hlog c Hc) as ((rc' & ev' & rnc & Hrc' & Hev' & Hrnc & Hspec & _) & _).
  assert (rc' = rc) as -> by congruence. assert (ev' = ev) as -> by congruence.
  destruct (Hok _ _ Hrp) as [->|(ev'' & rnp & Hev'' & Hrnp & Hpos)];
    [by rewrite lookup_empty in Hevp|].
  exists rnc, rnp. split_and!; [done..|].
  rewrite Hspec. unfold spec_release_number.
  pose proof (max_default_elem
                (matching_release_numbers ev (parent_results_of visited c))
                0 rnp) as Hle.
  assert (rnp ≤ max_default 0
                  (matching_release_numbers ev (parent_results_of visited c)));
    [|lia].
  apply Hle. apply (matching_release_numbers_elem ev _ rp rnp); [|done|done].
  by apply (parent_results_of_elem _ _ p).
Qed.

Lemma matching_release_numbers_nil ev (prs : list result) :
  (∀ (rp : result) ev', rp ∈ prs → rp !! "epoch-version" = Some ev' →
                        py_eq ev ev' = false) →
  matching_release_numbers ev prs = [].
Proof.
  induction prs as [|r prs IH]; intros Hno; [done|].
  rewrite matching_release_numbers_cons, IH.
  - destruct (r !! "epoch-version") as [ev'|] eqn:Hev'; [|done].
    destruct (r !! "release-number") as [[]|]; try done.
    by rewrite (Hno r ev') by (done || by left).
  - intros rp ev' Hin. apply Hno. by right.
Qed.

(** X8.  Along such a run, a commit none of whose parents has a result
    with its epoch-version gets the release number 1; this is so for every
    commit without parents. *)
Theorem release_number_starts_at_one self rest head fuel
    (visited : gmap oid result) log c (rc : result) ev :
  Forall (λ v, v = changelog_visitor self) rest →
  _run_on_history_log (release_number_visitor self :: rest) head fuel
  = Some (Returns (visited, log)) →
  c ∈ log →
  visited !! id c = Some rc →
  rc !! "epoch-version" = Some ev →
  (∀ p (rp : result) ev',
     p ∈ parents c → visited !! id p = Some rp →
     rp !! "epoch-version" = Some ev' → py_eq ev ev' = false) →
  rc !! "release-number" = Some (PyInt 1).
Proof.
  intros Hrest Hrun Hc Hrc Hevc Hno.
  destruct (_run_on_history_log_returns _ _ _ _ _ Hrun) as (st & Hdisc).
  destruct (release_inv_final _ _ _ _ _ _ _ Hrest Hdisc Hrun) as [Hok Hlog].
  destruct (Hlog c Hc) as ((rc' & ev' & rnc & Hrc' & Hev' & Hrnc & Hspec & _) & _).
  assert (rc' = rc) as -> by congruence. assert (ev' = ev) as -> by congruence.
  rewrite Hrnc, Hspec. unfold spec_release_number.
  rewrite matching_release_numbers_nil; [done|].
  intros rp ev' Hin Hev''. unfold parent_results_of in Hin.
  apply list_elem_of_In, in_map_iff in Hin as (p & <- & Hp%list_elem_of_In).
  destruct (visited !! id p) as [r|] eqn:Hr; simpl in Hev''.
  - by eapply Hno.
  - by rewrite lookup_empty in Hev''.
Qed.

(** ** The flags of the autorelease macro *)

Ltac split_char c := destruct c as [[] [] [] [] [] [] [] []]; try discriminate.

Lemma span_no_underscore_app e rest :
  no_underscore e = true →
  rest = EmptyString ∨ (∃ rest', rest = String "_" rest') →
  span_no_underscore (e +:+ rest) = (e, rest).
Proof.
  intros He Hrest. induction e as [|c e IH].
  - destruct Hrest as [->|(rest' & ->)]; done.
  - cbn [no_underscore] in He. apply andb_true_iff in He as [Hc He].
    apply negb_true_iff in Hc.
    change (String c e +:+ rest) with (String c (e +:+ rest)).
    cbn [span_no_underscore]. by rewrite Hc, (IH He).
Qed.

Lemma span_no_underscore_inv s a b :
  span_no_underscore s = (a, b) →
  s = a +:+ b ∧ no_underscore a = true
  ∧ (b = EmptyString ∨ ∃ b', b = String "_" b').
Proof.
  revert a. induction s as [|c s IH]; intros a.
  - intros [= <- <-]. split_and!; [done..|by left].
  - cbn [span_no_underscore]. destruct (Ascii.eqb c "_") eqn:Hc.
    + intros [= <- <-]. apply Ascii.eqb_eq in Hc as ->.
      split_and!; [done..|]. right. by exists s.
    + destruct (span_no_underscore s) as [a' b'] eqn:Hs. intros [= <- <-].
      destruct (IH a' eq_refl) as (-> & Ha' & Hb).
      split_and!; [done| |done]. cbn [no_underscore]. by rewrite Hc, Ha'.
Qed.

Lemma span_digits_end_digits b :
  all_digits b = true →
  span_digits_end b = Some b ∧ span_digits_end (b +:+ "
") = Some b.
Proof.
  induction b as [|c b IH]; [done|]. cbn [all_digits].
  intros [Hc Hb]%andb_true_iff. destruct (IH Hb) as [IH1 IH2].
  change (String c b +:+ "
") with (String c (b +:+ "
")).
  cbn [span_digits_end]. by rewrite Hc, IH1, IH2.
Qed.

Lemma span_digits_end_inv s b :
  span_digits_end s = Some b →
  all_digits b = true ∧ (s = b ∨ s = b +:+ "
").
Proof.
  revert b. induction s as [|c s IH]; intros b.
  - intros [= <-]. split; [done|by left].
  - cbn [span_digits_end]. destruct (is_digit c) eqn:Hc.
    + destruct (span_digits_end s) as [b'|]; [|done]. intros [= <-].
      destruct (IH b' eq_refl) as (Hb' & Hs).
      split; [cbn [all_digits]; by rewrite Hc, Hb'|].
      destruct Hs as [->| ->]; [by left|by right].
    + destruct (Ascii.eqb c "010") eqn:Hnl; [|done].
      apply Ascii.eqb_eq in Hnl as ->. destruct s; [|done].
      intros [= <-]. split; [done|by right].
Qed.

Lemma autorelease_flags_re_match_inv info e s p b :
  autorelease_flags_re_match info = Some (e, s, p, b) →
  no_underscore e = true ∧ no_underscore s = true
  ∧ (p = "0" ∨ p = "1") ∧ all_digits b = true
  ∧ (info = autorelease_info e s p b
     ∨ info = autorelease_info e s p b +:+ "
").
Proof.
  unfold autorelease_flags_re_match.
  destruct info as [|c0 r1]; [done|]. split_char c0.
  destruct (span_no_underscore r1) as [e' r2] eqn:He.
  destruct r2 as [|c1 [|c2 r3]]; [done|by split_char c1|].
  split_char c1. split_char c2.
  destruct (span_no_underscore r3) as [s' r4] eqn:Hs.
  destruct r4 as [|c3 [|c4 [|c5 [|c6 [|c7 r5]]]]];
    [done|by split_char c3|by split_char c3; split_char c4
    |by split_char c3; split_char c4
    |by split_char c3; split_char c4; split_char c6|].
  split_char c3. split_char c4. split_char c6. split_char c7.
  destruct (Ascii.eqb c5 "0" || Ascii.eqb c5 "1") eqn:Hp; [|done].
  destruct (span_digits_end r5) as [b'|] eqn:Hb; [|done].
  simpl. intros [= <- <- <- <-].
  apply span_no_underscore_inv in He as (-> & He & _).
  apply span_no_underscore_inv in Hs as (-> & Hs & _).
  apply span_digits_end_inv in Hb as (Hb & Hr5).
  split_and!; [done..| |done|].
  + apply orb_true_iff in Hp as [->%Ascii.eqb_eq| ->%Ascii.eqb_eq]; auto.
  + unfold autorelease_info.
    destruct Hr5 as [->| ->]; [by left|right].
    by rewrite !string_app_assoc.
Qed.

Lemma autorelease_flags_re_match_info info e s p b :
  no_underscore e = true ∧ no_underscore s = true
  ∧ (p = "0" ∨ p = "1") ∧ all_digits b = true
  ∧ (info = autorelease_info e s p b
     ∨ info = autorelease_info e s p b +:+ "
") →
  autorelease_flags_re_match info = Some (e, s, p, b).
Proof.
  intros (He & Hs & Hp & Hb & Hinfo).
  assert (∀ tl, (tl = b ∨ tl = b +:+ "
") →
                autorelease_flags_re_match
                  ("E" +:+ e +:+ "_S" +:+ s +:+ "_P" +:+ p +:+ "_B" +:+ tl)
                = Some (e, s, p, b)) as Hgo.
  { intros tl Htl. unfold autorelease_flags_re_match.
    change ("E" +:+ ?x) with (String "E" x). cbn iota.
    rewrite (span_no_underscore_app e) by (done || right; by eexists).
    change ("_S" +:+ ?x) with (String "_" (String "S" x)). cbn iota.
    rewrite (span_no_underscore_app s) by (done || right; by eexists).
    assert (span_digits_end tl = Some b) as Htl'.
    { destruct (span_digits_end_digits b Hb). by destruct Htl as [->| ->]. }
    destruct Hp as [->| ->]; simpl; change ("" +:+ tl) with tl;
      by rewrite Htl'. }
  destruct Hinfo as [->| ->].
  + apply Hgo. by left.
  + unfold autorelease_info. rewrite !string_app_assoc. apply Hgo. by right.
Qed.

(** X9.  The regular expression for the flags accepts a line exactly when
    it is the line the macro definition prints (with or without a final
    newline) for an extraver and a snapinfo without underscore, a
    prerelease flag [0] or [1] and a base made of the digits [0] to [9]
    (strings are on the ASCII range); it then gives back these four. *)
Theorem autorelease_flags_re_match_spec info e s p b :
  autorelease_flags_re_match info = Some (e, s, p, b)
  ↔ no_underscore e = true ∧ no_underscore s = true
    ∧ (p = "0" ∨ p = "1") ∧ all_digits b = true
    ∧ (info = autorelease_info e s p b
       ∨ info = autorelease_info e s p b +:+ "
").
Proof.
  split.
  - apply autorelease_flags_re_match_inv.
  - apply autorelease_flags_re_match_info.
Qed.

Lemma count_underscores_app a b :
  count_underscores (a +:+ b) = (count_underscores a + count_underscores b)%nat.
Proof.
  induction a as [|c a IH]; [done|].
  change (String c a +:+ b) with (String c (a +:+ b)).
  cbn [count_underscores]. rewrite IH. lia.
Qed.

Lemma count_underscores_none s :
  no_underscore s = true → count_underscores s = O.
Proof.
  induction s as [|c s IH]; [done|]. cbn [no_underscore count_underscores].
  intros [Hc Hs]%andb_true_iff. apply negb_true_iff in Hc.
  by rewrite Hc, IH.
Qed.

Lemma all_digits_no_underscore s : all_digits s = true → no_underscore s = true.
Proof.
  induction s as [|c s IH]; [done|]. cbn [all_digits no_underscore].
  intros [Hc Hs]%andb_true_iff. rewrite (IH Hs), andb_true_r.
  apply negb_true_iff, Ascii.eqb_neq. by intros ->.
Qed.

(** X10.  A line with another number of underscores than three is not
    accepted: when the extraver or the snapinfo given to the macro holds
    an underscore, the line it prints is rejected, and the flags are
    lost. *)
Theorem autorelease_flags_lost_with_underscore e s p b :
  no_underscore e = false ∨ no_underscore s = false →
  autorelease_flags_re_match (autorelease_info e s p b) = None.
Proof.
  intros Hes.
  destruct (autorelease_flags_re_match (autorelease_info e s p b))
    as [[[[e' s'] p'] b']|] eqn:Hm; [|done]. exfalso.
  apply autorelease_flags_re_match_inv in Hm as (He' & Hs' & Hp' & Hb' & Hinfo).
  assert (count_underscores (autorelease_info e' s' p' b') = 3%nat) as H3.
  { unfold autorelease_info. rewrite !count_underscores_app.
    rewrite (count_underscores_none e'), (count_underscores_none s') by done.
    rewrite (count_underscores_none b') by by apply all_digits_no_underscore.
    by destruct Hp' as [->| ->]. }
  assert (3 < count_underscores (autorelease_info e s p b))%nat as Hmore.
  { unfold autorelease_info. rewrite !count_underscores_app.
    change (count_underscores "E") with O.
    change (count_underscores "_S") with 1%nat.
    change (count_underscores "_P") with 1%nat.
    change (count_underscores "_B") with 1%nat.
    assert (∀ x, no_underscore x = false → (0 < count_underscores x)%nat)
      as Hpos.
    { induction x as [|c x IH]; [done|]. cbn [no_underscore count_underscores].
      destruct (Ascii.eqb c "_"); [lia|]. simpl. intros ?%IH. lia. }
    destruct Hes as [?%Hpos|?%Hpos]; lia. }
  destruct Hinfo as [Hinfo|Hinfo]; rewrite Hinfo in Hmore.
  - lia.
  - rewrite count_underscores_app in Hmore.
    change (count_underscores "
") with O in Hmore. lia.
Qed.

(** ** What the metadata query returns *)



(** ** The discovery pass *)

Lemma outcome_map_raises {A B : Type} (f : A → outcome B) l :
  outcome_map f l = Raises → ∃ x, x ∈ l ∧ f x = Raises.
Proof.
  induction l as [|a l IH]; simpl; [done|].
  destruct (f a) as [b|] eqn:Hfa; simpl.
  - destruct (outcome_map f l); [done|]. intros _.
    destruct IH as (x & ? & ?); [done|]. exists x. split; [by right|done].
  - intros _. exists a. split; [by left|done].
Qed.

Lemma any_child_must_continue_returns st vindex this_children must_continue :
  (∀ child, child ∈ this_children →
     ∃ l, commit_coroutines_must_continue st !! id child = Some l
          ∧ (vindex < length l)%nat) →
  ∃ b, any_child_must_continue st vindex this_children must_continue
       = Returns b.
Proof.
  revert must_continue.
  induction this_children as [|child rest IH]; intros mc Hall; simpl; [eauto|].
  destruct mc; simpl.
  - apply IH. intros c Hc. apply Hall. by right.
  - destruct (Hall child) as (l & -> & Hlt); [by left|].
    destruct (lookup_lt_is_Some_2 l vindex Hlt) as [b ->]. simpl.
    apply IH. intros c Hc. apply Hall. by right.
Qed.

Lemma outcome_map_lookup {A B : Type} (f : A → outcome B) l r i x :
  outcome_map f l = Returns r → l !! i = Some x →
  ∃ y, r !! i = Some y ∧ f x = Returns y.
Proof.
  revert r i. induction l as [|a l IH]; intros r i; simpl; [done|].
  destruct (f a) as [b|] eqn:Hfa; [|done]. simpl.
  destruct (outcome_map f l) as [bs|]; [|done]. intros [= <-].
  destruct i as [|i]; simpl.
  - intros [= <-]. by exists b.
  - by apply IH.
Qed.

Lemma any_child_must_continue_spec st vindex this_children must_continue b :
  any_child_must_continue st vindex this_children must_continue = Returns b →
  b = must_continue
      || existsb
           (λ child,
              match commit_coroutines_must_continue st !! id child with
              | Some l => default false (l !! vindex)
              | None => false
              end)
           this_children.
Proof.
  revert must_continue.
  induction this_children as [|child rest IH]; intros mc; simpl.
  { intros [= <-]. by rewrite orb_false_r. }
  destruct mc; simpl.
  - by intros ->%IH.
  - destruct (commit_coroutines_must_continue st !! id child) as [l|]; [|done].
    destruct (l !! vindex) as [b1|]; [|done]. simpl. by intros ->%IH.
Qed.

Lemma children_flags_mono visitors head commit_children
    (mc mc' : gmap oid (list bool)) c cmcs :
  commit_eqb c head = true
  ∨ (∀ child, child ∈ default [] (commit_children !! id c) →
              mc' !! id child = mc !! id child) →
  children_flags visitors head commit_children mc c cmcs →
  children_flags visitors head commit_children mc' c cmcs.
Proof.
  unfold children_flags. intros [->|Hsame]; [done|].
  destruct (commit_eqb c head); [done|].
  intros H vindex Hlt. rewrite (H vindex Hlt). f_equal. clear H.
  induction (default [] (commit_children !! id c)) as [|child l IH]; [done|].
  simpl. rewrite Hsame by by left. f_equal. apply IH.
  intros ch Hch. apply Hsame. by right.
Qed.

Lemma wanted_mono (mc mc' : gmap oid (list bool)) seen seen' k :
  (∀ c, c ∈ seen → c ∈ seen') →
  (∀ c l, c ∈ seen → mc !! id c = Some l → mc' !! id c = Some l) →
  wanted mc seen k → wanted mc' seen' k.
Proof.
  intros Hseen Hmc (child & l & p & Hchild & Hl & Hany & Hp & Hk).
  exists child, l, p. split_and!; [by apply Hseen|by apply Hmc|done..].
Qed.

Section Discovery_facts.

Variable visitors : list visitor.
Variable head : Commit.
Variable commit_children : gmap oid (list Commit).

(** The invariant allows to take discovered commits off the work list. *)
Lemma walk_inv_todo st st' seen todo todo' :
  commit_coroutines st' = commit_coroutines st →
  commit_coroutines_must_continue st' = commit_coroutines_must_continue st →
  (∀ q, q ∈ todo → q ∈ todo' ∨ is_Some (commit_coroutines st !! id q)) →
  (∀ q, q ∈ todo' → q ∈ todo) →
  walk_inv visitors head commit_children st seen todo →
  walk_inv visitors head commit_children st' seen todo'.
Proof.
  intros Hcc Hmc Hsub Hsup [H1 H2 H3 H4 H5 H6].
  assert (∀ k, todo_has todo k →
               is_Some (commit_coroutines st !! k) ∨ todo_has todo' k) as Hhas.
  { intros k (q & Hq & <-).
    destruct (Hsub q Hq) as [?|?]; [right; by exists q|by left]. }
  split; rewrite ?Hcc, ?Hmc.
  - done.
  - destruct H2 as [?|Hh]; [by left|]. by apply Hhas.
  - intros q Hq. by apply H3, Hsup.
  - done.
  - done.
  - intros c l Hc Hl Hany p Hp.
    destruct (H6 c l Hc Hl Hany p Hp) as [?|Hh]; [by left|]. by apply Hhas.
Qed.

Lemma walk_inv_start st seen todo commit cmcs started :
  walk_inv visitors head commit_children st seen (commit :: todo) →
  (∀ k, is_Some (commit_coroutines st !! k) ↔ k ∈ id <$> seen) →
  discovered st commit = false →
  commit_eqb commit head = true
  ∨ forallb (discovered st) (default [] (commit_children !! id commit)) = true →
  length cmcs = length visitors →
  children_flags visitors head commit_children
    (commit_coroutines_must_continue st) commit cmcs →
  outcome_map (λ vc : visitor * bool, vc.1 commit vc.2) (zip visitors cmcs)
  = Returns started →
  walk_inv visitors head commit_children
    (Discovery (<[id commit := started.*2]> (commit_coroutines st))
       (<[id commit := started.*1]> (commit_coroutines_must_continue st))
       (branch_heads st) (branches st))
    (seen ++ [commit])
    (if existsb (λ b : bool, b) (started.*1) then parents commit ++ todo
     else todo).
Proof.
  intros [H1 H2 H3 H4 H5 H6] Hdom Hnew Hchildren Hlen Hflags Hstarted.
  unfold discovered in Hnew. apply bool_decide_eq_false in Hnew.
  assert (∀ child, is_Some (commit_coroutines st !! id child) →
                   <[id commit := started.*1]>
                     (commit_coroutines_must_continue st) !! id child
                   = commit_coroutines_must_continue st !! id child) as Hold.
  { intros child Hchild. rewrite lookup_insert_ne; [done|].
    intros Heq. apply Hnew. by rewrite Heq. }
  assert (∀ c, c ∈ seen → id c ≠ id commit) as Hne.
  { intros c Hc Heq. apply Hnew. rewrite <- Heq.
    apply Hdom, list_elem_of_fmap. by exists c. }
  assert (∀ k, is_Some (commit_coroutines st !! k) →
               is_Some (<[id commit := started.*2]> (commit_coroutines st) !! k))
    as Hmono.
  { intros k Hk. destruct (decide (id commit = k)) as [<-|?];
      [by rewrite lookup_insert_eq|by rewrite lookup_insert_ne]. }
  assert (∀ k, wanted (commit_coroutines_must_continue st) seen k →
               wanted (<[id commit := started.*1]>
                         (commit_coroutines_must_continue st))
                 (seen ++ [commit]) k) as Hwanted.
  { intros k. apply wanted_mono.
    - intros c Hc. apply elem_of_app. by left.
    - intros c l Hc Hl. rewrite lookup_insert_ne; [done|].
      intros Heq. by apply (Hne c). }
  set (todo' := if existsb _ _ then _ else _).
  assert (∀ q, q ∈ todo → q ∈ todo') as Hkeep.
  { intros q Hq. unfold todo'.
    destruct (existsb _ _); [apply elem_of_app; by right|done]. }
  assert (∀ k, todo_has (commit :: todo) k →
               is_Some (<[id commit := started.*2]> (commit_coroutines st) !! k)
               ∨ todo_has todo' k) as Hhas.
  { intros k (q & [->|Hq]%elem_of_cons & <-).
    - left. by rewrite lookup_insert_eq.
    - right. exists q. split; [by apply Hkeep|done]. }
  split; simpl.
  - intros c [Hc| ->%list_elem_of_singleton]%elem_of_app.
    + destruct (H1 c Hc) as (cmcs' & started' & ? & Hfl & ? & ? & ?).
      exists cmcs', started'.
      rewrite !lookup_insert_ne by (intros Heq; by apply (Hne c)).
      split_and!; [done| |done..].
      eapply children_flags_mono; [|exact Hfl].
      destruct (commit_eqb c head) eqn:Hhead; [by left|right].
      apply bool_decide_eq_false in Hhead.
      intros child Hchild. apply Hold. by apply (H5 c).
    + exists cmcs, started. rewrite !lookup_insert_eq.
      split_and!; [done| |done..].
      eapply children_flags_mono; [|exact Hflags].
      destruct Hchildren as [?|Hall]; [by left|right].
      intros child Hchild. apply Hold.
      rewrite forallb_forall in Hall.
      apply (bool_decide_eq_true (is_Some _)), Hall.
      by apply list_elem_of_In.
  - destruct H2 as [?|Hh]; [left; by apply Hmono|]. by apply Hhas.
  - intros q Hq.
    assert (q ∈ todo
            ∨ (existsb (λ b : bool, b) (started.*1) = true ∧ q ∈ parents commit))
      as [Hq'|[Hany Hq']].
    { unfold todo' in Hq. destruct (existsb _ _); [|by left].
      apply elem_of_app in Hq as [?|?]; [right|left]; done. }
    + destruct (H3 q) as [?|?]; [by right|by left|right; by apply Hwanted].
    + right. exists commit, (started.*1), q.
      split_and!; [|by rewrite lookup_insert_eq|done..].
      apply elem_of_app. right. by apply list_elem_of_singleton.
  - intros c [Hc| ->%list_elem_of_singleton]%elem_of_app.
    + destruct (H4 c Hc) as [?|?]; [by left|right; by apply Hwanted].
    + destruct (H3 commit) as [?|?]; [by left|by left|right; by apply Hwanted].
  - intros c [Hc| ->%list_elem_of_singleton]%elem_of_app Hnh child Hchild;
      apply Hmono.
    + by eapply H5.
    + destruct Hchildren as [Heq|Hall].
      * by apply bool_decide_eq_true in Heq.
      * rewrite forallb_forall in Hall.
        apply (bool_decide_eq_true (is_Some _)), Hall.
        by apply list_elem_of_In.
  - intros c l [Hc| ->%list_elem_of_singleton]%elem_of_app.
    + rewrite lookup_insert_ne by (intros Heq; by apply (Hne c)).
      intros Hl Hany p Hp.
      destruct (H6 c l Hc Hl Hany p Hp) as [?|Hh]; [left; by apply Hmono|].
      by apply Hhas.
    + rewrite lookup_insert_eq. intros [= <-] Hany p Hp. right.
      exists p. split; [|done]. unfold todo'. rewrite Hany.
      apply elem_of_app. by left.
Qed.

(** One branch of the discovery pass keeps the invariant, and it raises
    only when a visitor does: the look-ups in
    [commit_coroutines_must_continue] find what they look for. *)
Lemma follow_first_parents_walk commit :
  ∀ st branch,
    discovery_inv visitors st branch →
    walk_inv visitors head commit_children st
      (concat (branches st) ++ branch) (commit :: branch_heads st) →
    match follow_first_parents visitors head commit_children commit st branch
    with
    | Returns (st', branch', keep) =>
        walk_inv visitors head commit_children st'
          (concat (branches st') ++ branch') (branch_heads st')
    | Raises => ∃ v c cmc, v ∈ visitors ∧ v c cmc = Raises
    end.
Proof.
  induction commit as [commit IH] using Commit_first_parent_ind.
  intros st branch Hinv Hwalk.
  rewrite follow_first_parents_unfold.
  destruct (discovered st commit) eqn:Hdisc.
  { apply (walk_inv_todo st _ _ (commit :: branch_heads st));
      [done|done| | |exact Hwalk].
    - intros q [->|?]%elem_of_cons; [right|by left].
      by apply bool_decide_eq_true in Hdisc.
    - intros q ?. by right. }
  cbn zeta.
  destruct (negb (commit_eqb commit head) && _) eqn:Hdefer.
  { apply (walk_inv_todo st _ _ (commit :: branch_heads st));
      [done|done| | |exact Hwalk]; simpl.
    - intros q [->|?]%elem_of_cons; left; apply elem_of_app;
        [right; by apply list_elem_of_singleton|by left].
    - intros q [?| ->%list_elem_of_singleton]%elem_of_app; [by right|by left]. }
  assert (commit_eqb commit head = true
          ∨ forallb (discovered st) (default [] (commit_children !! id commit))
            = true) as Hchildren.
  { apply andb_false_iff in Hdefer as [H|H]; apply negb_false_iff in H; auto. }
  pose proof Hinv as [_ Hdom _].
  destruct (if commit_eqb commit head then _ else _) as [cmcs|] eqn:Hcmcs.
  2: { exfalso. destruct (commit_eqb commit head) eqn:Hhead; [done|].
       destruct Hchildren as [?|Hall]; [done|].
       apply outcome_map_raises in Hcmcs as (vindex & Hv & Hraise).
       apply elem_of_seq in Hv as [_ Hlt]. simpl in Hlt.
       destruct (any_child_must_continue_returns st vindex
                   (default [] (commit_children !! id commit)) false)
         as [b Hb]; [|congruence].
       intros child Hchild. rewrite forallb_forall in Hall.
       assert (discovered st child = true) as Hd.
       { apply Hall. by apply list_elem_of_In. }
       apply bool_decide_eq_true in Hd. apply Hdom in Hd.
       apply list_elem_of_fmap in Hd as (c' & Heq & Hc').
       destruct (wi_started _ _ _ _ _ _ Hwalk c' Hc')
         as (cmcs' & started' & Hlen' & _ & Hst' & _ & Hmc').
       exists (started'.*1). rewrite Heq. split; [done|].
       rewrite length_fmap. apply outcome_map_length in Hst'.
       rewrite Hst', length_zip. lia. }
  assert (length cmcs = length visitors) as Hlen.
  { destruct (commit_eqb commit head).
    - injection Hcmcs as <-. apply length_map.
    - apply outcome_map_length in Hcmcs. by rewrite Hcmcs, length_seq. }
  assert (children_flags visitors head commit_children
            (commit_coroutines_must_continue st) commit cmcs) as Hflags.
  { unfold children_flags. destruct (commit_eqb commit head).
    - by injection Hcmcs as <-.
    - intros vindex Hlt.
      destruct (outcome_map_lookup _ _ _ vindex vindex Hcmcs)
        as (b & -> & Hb); [by apply lookup_seq_lt|].
      by apply any_child_must_continue_spec in Hb as ->. }
  cbn [mbind outcome_bind].
  destruct (outcome_map _ (zip visitors cmcs)) as [started|] eqn:Hstarted.
  2: { apply outcome_map_raises in Hstarted as ([v cmc] & Hin & Hraise).
       exists v, commit, cmc. split; [by eapply elem_of_zip_l|done]. }
  cbn [mbind outcome_bind].
  pose proof (discovery_inv_start _ _ _ _ _ _ Hinv Hdisc Hlen Hstarted) as Hinv'.
  pose proof (walk_inv_start _ _ _ _ _ _ Hwalk Hdom Hdisc Hchildren Hlen
                Hflags Hstarted) as Hwalk'.
  rewrite <- app_assoc in Hwalk'.
  destruct (existsb (λ b : bool, b) (started.*1)) eqn:Hany; cbn [negb].
  2: { exact Hwalk'. }
  destruct (parents commit) as [|first_parent branch_parents] eqn:Hps.
  { exact Hwalk'. }
  destruct (bool_decide (1 < length (first_parent :: branch_parents))%nat)
    eqn:Hmerge.
  - apply (IH _ _ eq_refl);
      [by eapply discovery_inv_ext; [..|exact Hinv']|].
    eapply walk_inv_todo; [| | | |exact Hwalk']; [done|done|..]; simpl.
    + intros q [->|[Hq|Hq]%elem_of_app]%elem_of_cons.
      * left. by left.
      * match goal with
        | |- _ ∨ is_Some ?x => destruct x as [cs|] eqn:Hq'
        end; [by right|left].
        right. apply elem_of_app. right. apply list_elem_of_filter.
        split; [|done]. apply bool_decide_eq_false. simpl. rewrite Hq'.
        by intros [].
      * left. right. apply elem_of_app. by left.
    + intros q [->|[Hq|[_ Hq]%list_elem_of_filter]%elem_of_app]%elem_of_cons.
      * by left.
      * right. apply elem_of_app. by right.
      * right. apply elem_of_app. by left.
  - apply bool_decide_eq_false in Hmerge.
    destruct branch_parents; [|simpl in Hmerge; lia].
    apply (IH _ _ eq_refl); done.
Qed.

Lemma discover_walk fuel :
  ∀ st,
    discovery_inv visitors st [] →
    walk_inv visitors head commit_children st (concat (branches st))
      (branch_heads st) →
    match discover visitors head fuel commit_children st with
    | Some (Returns st') =>
        walk_inv visitors head commit_children st' (concat (branches st')) []
    | Some Raises => ∃ v c cmc, v ∈ visitors ∧ v c cmc = Raises
    | None => True
    end.
Proof.
  induction fuel as [|fuel IH]; intros st Hinv Hwalk; simpl.
  { destruct (branch_heads st) eqn:Hheads; [|done].
    rewrite ?Hheads in Hwalk. exact Hwalk. }
  destruct (branch_heads st) as [|commit rest] eqn:Hheads.
  { rewrite ?Hheads in Hwalk. exact Hwalk. }
  rewrite ?Hheads in Hwalk.
  pose proof (follow_first_parents_walk commit
                (Discovery (commit_coroutines st)
                   (commit_coroutines_must_continue st) rest (branches st)) [])
    as Hfollow.
  destruct (follow_first_parents _ _ _ _ _ _) as [[[st1 branch] keep]|]
    eqn:Hf.
  2: { apply Hfollow; [by apply (discovery_inv_ext _ st)|].
       simpl. rewrite app_nil_r.
       apply (walk_inv_todo st _ _ (commit :: rest));
         [done|done| | |exact Hwalk]; auto. }
  apply follow_first_parents_inv in Hf as (Hinv1 & Hb & Hkeep);
    [|by apply (discovery_inv_ext _ st)].
  assert (concat (branches st1 ++ (if keep then [branch] else []))
          = concat (branches st1) ++ branch) as Heq.
  { rewrite concat_app. destruct keep; simpl.
    - by rewrite app_nil_r.
    - by rewrite Hkeep. }
  apply IH.
  - destruct Hinv1 as [H1 H2 H3]. split; simpl; rewrite Heq, app_nil_r; done.
  - simpl. rewrite Heq.
    apply (walk_inv_todo st1 _ _ (branch_heads st1));
      [done|done| | |apply Hfollow]; auto.
    + by apply (discovery_inv_ext _ st).
    + simpl. rewrite app_nil_r.
      apply (walk_inv_todo st _ _ (commit :: rest));
        [done|done| | |exact Hwalk]; auto.
Qed.

End Discovery_facts.

Lemma discovery_pass_walk visitors head fuel :
  match discovery_pass visitors head fuel with
  | Some (Returns st) =>
      walk_inv visitors head (commit_children_of head) st
        (concat (branches st)) []
  | Some Raises => ∃ v c cmc, v ∈ visitors ∧ v c cmc = Raises
  | None => True
  end.
Proof.
  apply discover_walk.
  - split; simpl.
    + constructor.
    + intros k. rewrite lookup_empty.
      split; [by intros []|by intros ?%elem_of_nil].
    + by intros c ?%elem_of_nil.
  - split; simpl.
    + by intros c ?%elem_of_nil.
    + right. exists head. split; [by left|done].
    + intros q ->%list_elem_of_singleton. by left.
    + by intros c ?%elem_of_nil.
    + by intros c ?%elem_of_nil.
    + by intros c l ?%elem_of_nil.
Qed.

(** ** What the discovery pass leaves behind *)

Lemma discovery_pass_walk_inv visitors head fuel st :
  discovery_pass visitors head fuel = Some (Returns st) →
  walk_inv visitors head (commit_children_of head) st (concat (branches st)) [].
Proof.
  intros H. pose proof (discovery_pass_walk visitors head fuel) as Hw.
  by rewrite H in Hw.
Qed.

(** X12.  The discovery pass goes as far as the visitors ask, and no
    further: the commits it has discovered are the head and the parents of
    the discovered commits at which some visitor wanted to continue. *)
Theorem discovered_iff_wanted visitors head fuel st k :
  discovery_pass visitors head fuel = Some (Returns st) →
  is_Some (commit_coroutines st !! k)
  ↔ k = id head
    ∨ wanted (commit_coroutines_must_continue st) (concat (branches st)) k.
Proof.
  intros Hdisc.
  pose proof (discovery_pass_walk_inv _ _ _ _ Hdisc) as [_ Hhead _ Hwhy _ Hpar].
  pose proof (discovery_pass_inv _ _ _ _ Hdisc) as [_ Hdom _].
  assert (∀ k', ¬ todo_has [] k') as Hnone.
  { by intros k' (q & ?%elem_of_nil & _). }
  split.
  - intros Hk. apply Hdom in Hk. rewrite app_nil_r in Hk.
    apply list_elem_of_fmap in Hk as (c & -> & Hc). by apply Hwhy.
  - intros [->|(child & l & p & Hchild & Hl & Hany & Hp & <-)].
    + destruct Hhead as [?|?]; [done|]. by destruct (Hnone (id head)).
    + destruct (Hpar child l Hchild Hl Hany p Hp) as [?|?]; [done|].
      by destruct (Hnone (id p)).
Qed.

(** X13.  A commit other than the head is discovered only once all its
    children, as the walk of the repository gives them, are. *)
Theorem discovery_children_first visitors head fuel st c child :
  discovery_pass visitors head fuel = Some (Returns st) →
  c ∈ concat (branches st) →
  id c ≠ id head →
  child ∈ default [] (commit_children_of head !! id c) →
  discovered st child = true.
Proof.
  intros Hdisc Hc Hne Hchild.
  pose proof (discovery_pass_walk_inv _ _ _ _ Hdisc) as [_ _ _ _ Hchildren _].
  apply bool_decide_eq_true. by apply (Hchildren c).
Qed.

(** X14.  What the visitors of a discovered commit were started with: the
    flag [children_must_continue] is true for the head; for another
    commit it tells, visitor by visitor, whether that visitor wanted to
    continue at one of the children.  What they answered and the
    coroutines they left are what the two dictionaries hold. *)
Theorem visitors_started_with_children_flags visitors head fuel st c :
  discovery_pass visitors head fuel = Some (Returns st) →
  c ∈ concat (branches st) →
  ∃ cmcs started,
    children_flags visitors head (commit_children_of head)
      (commit_coroutines_must_continue st) c cmcs
    ∧ outcome_map (λ vc : visitor * bool, vc.1 c vc.2) (zip visitors cmcs)
      = Returns started
    ∧ commit_coroutines st !! id c = Some (started.*2)
    ∧ commit_coroutines_must_continue st !! id c = Some (started.*1).
Proof.
  intros Hdisc Hc.
  pose proof (discovery_pass_walk_inv _ _ _ _ Hdisc) as [Hstarted _ _ _ _ _].
  destruct (Hstarted c Hc) as (cmcs & started & _ & ? & ? & ? & ?).
  by exists cmcs, started.
Qed.

(** ** Where a run can raise *)

Lemma send_all_raises (cs : list coroutine) (cr : result) prs :
  send_all cs cr prs = Raises → ∃ k cr', k ∈ cs ∧ k cr' prs = Raises.
Proof.
  revert cr. induction cs as [|k cs IH]; intros cr; simpl; [done|].
  destruct (k cr prs) as [cr1|] eqn:Hk; simpl.
  - intros (k' & cr' & ? & ?)%IH. exists k', cr'. split; [by right|done].
  - intros _. exists k, cr. split; [by left|done].
Qed.

Lemma resolve_branch_remaining coroutines todo :
  ∀ (visited : gmap oid result) log visited' log' remaining,
    resolve_branch coroutines todo visited log
    = Returns (visited', log', remaining) →
    ∀ c, c ∈ remaining → c ∈ todo.
Proof.
  induction todo as [|d rest IH]; intros visited log visited' log' remaining;
    simpl.
  { by intros [= <- <- <-]. }
  destruct (negb (parents_ready coroutines visited d)).
  { by intros [= <- <- <-]. }
  destruct (coroutines !! id d) as [cs|]; [|done].
  destruct (send_all cs _ _) as [r|]; [|done]. cbn [mbind outcome_bind].
  intros Hrec c Hc. right. by eapply IH.
Qed.

Lemma resolve_branch_raises coroutines todo :
  ∀ (visited : gmap oid result) log,
    resolve_branch coroutines todo visited log = Raises →
    ∃ c, c ∈ todo
         ∧ (coroutines !! id c = None
            ∨ ∃ cs cr prs, coroutines !! id c = Some cs
                           ∧ send_all cs cr prs = Raises).
Proof.
  induction todo as [|d rest IH]; intros visited log; simpl; [done|].
  destruct (negb (parents_ready coroutines visited d)); [done|].
  destruct (coroutines !! id d) as [cs|] eqn:Hcs.
  2: { intros _. exists d. split; [by left|by left]. }
  destruct (send_all cs _ _) as [r|] eqn:Hsend; cbn [mbind outcome_bind].
  - intros (c & Hc & H)%IH. exists c. split; [by right|done].
  - intros _. exists d. split; [by left|]. right. eauto.
Qed.

Lemma resolve_raises coroutines fuel :
  ∀ bs (visited : gmap oid result) log,
    resolve fuel coroutines bs visited log = Some Raises →
    ∃ c, c ∈ concat bs
         ∧ (coroutines !! id c = None
            ∨ ∃ cs cr prs, coroutines !! id c = Some cs
                           ∧ send_all cs cr prs = Raises).
Proof.
  induction fuel as [|fuel IH]; intros bs visited log.
  { by destruct bs. }
  destruct bs as [|branch rest]; [done|]. cbn [resolve concat].
  destruct (resolve_branch coroutines (reverse branch) visited log)
    as [[[visited1 log1] remaining]|] eqn:Hbranch.
  - assert (∀ c, c ∈ remaining → c ∈ branch) as Hrem.
    { intros c Hc. apply elem_of_reverse.
      by eapply resolve_branch_remaining. }
    destruct remaining as [|d remaining].
    + intros (c & Hc & H)%IH. exists c. split; [|done].
      apply elem_of_app. by right.
    + intros (c & Hc & H)%IH. exists c. split; [|done].
      rewrite concat_app in Hc. simpl in Hc. rewrite app_nil_r in Hc.
      apply elem_of_app in Hc as [Hc|Hc]; apply elem_of_app; [by right|left].
      apply Hrem. by rewrite elem_of_reverse in Hc.
  - intros _. apply resolve_branch_raises in Hbranch as (c & Hc & H).
    exists c. split; [|done]. apply elem_of_app. left.
    by rewrite elem_of_reverse in Hc.
Qed.

(** The head of a run that returns has a result. *)
Lemma head_has_result visitors head fuel (visited : gmap oid result) :
  _run_on_history visitors head fuel = Some (Returns visited) →
  is_Some (visited !! id head).
Proof.
  intros Hret.
  apply _run_on_history_returns in Hret as (st & log & Hdisc & Hrun).
  destruct (_run_on_history_log_ind visitors head (λ _ _, True) fuel st
              visited log Hdisc Hrun) as (_ & Hlog & Hperm & [_ Hdom _]);
    [done|done|].
  pose proof (discovery_pass_walk_inv _ _ _ _ Hdisc) as [_ Hhead _ _ _ _].
  destruct Hhead as [Hhead|(q & ?%elem_of_nil & _)]; [|done].
  apply Hlog. rewrite Hperm. apply Hdom in Hhead.
  by rewrite app_nil_r in Hhead.
Qed.

(** X15.  A run that returns gives the head a result, so that [run]
    finds it when it is asked for the result of the head alone. *)
Theorem run_gives_head_result visitors head fuel (visited : gmap oid result) :
  _run_on_history visitors head fuel = Some (Returns visited) →
  ∃ r, visited !! id head = Some r
       ∧ run visitors head fuel false = Some (Returns (HeadResult r))
       ∧ run visitors head fuel true = Some (Returns (AllResults visited)).
Proof.
  intros Hret. destruct (head_has_result _ _ _ _ Hret) as [r Hr].
  exists r. unfold run. by rewrite Hret, Hr.
Qed.

(** X16.  The walker itself does not fail: when a run raises, a visitor
    has raised, either when it was started on a commit or when the
    coroutine it left there was resumed. *)
Theorem run_raises_only_from_visitors visitors head fuel all_results :
  run visitors head fuel all_results = Some Raises →
  (∃ v c cmc, v ∈ visitors ∧ v c cmc = Raises)
  ∨ (∃ v c cmc b k cr prs,
       v ∈ visitors ∧ v c cmc = Returns (b, k) ∧ k cr prs = Raises).
Proof.
  unfold run.
  destruct (_run_on_history visitors head fuel) as [[visited|]|] eqn:Hret;
    [|intros _|done].
  { destruct (head_has_result _ _ _ _ Hret) as [r Hr]. rewrite Hr.
    by destruct all_results. }
  unfold _run_on_history, _run_on_history_log in Hret.
  pose proof (discovery_pass_walk visitors head fuel) as Hwalk.
  destruct (discovery_pass visitors head fuel) as [[st|]|] eqn:Hdisc;
    [|by left|done].
  destruct (resolve fuel _ _ _ _) as [[[visited log]|]|] eqn:Hres; [done| |done].
  apply resolve_raises in Hres as (c & Hc & H). right.
  destruct (wi_started _ _ _ _ _ _ Hwalk c Hc)
    as (cmcs & started & _ & _ & Hstarted & Hcs & _).
  destruct H as [H|(cs & cr & prs & Hcs' & Hsend)]; [congruence|].
  assert (cs = started.*2) as -> by congruence.
  apply send_all_raises in Hsend as (k & cr' & Hk & Hraise).
  apply list_elem_of_fmap in Hk as ([b k'] & -> & Hbk).
  destruct (outcome_map_elem _ _ _ _ Hstarted Hbk) as ([v cmc] & Hin & Hv).
  exists v, c, cmc, b, k', cr', prs.
  split_and!; [by eapply elem_of_zip_l|done..].
Qed.

(** X17.  The changelog visitor reads the epoch-version and the release
    from the result that is handed to it: as the first visitor it finds
    neither, and the run gives no result. *)
Theorem changelog_visitor_cannot_come_first self rest head fuel :
  _run_on_history (changelog_visitor self :: rest) head fuel = None
  ∨ _run_on_history (changelog_visitor self :: rest) head fuel = Some Raises.
Proof.
  destruct (_run_on_history (changelog_visitor self :: rest) head fuel)
    as [[visited|]|] eqn:Hret; [exfalso|by right|by left].
  pose proof (head_has_result _ _ _ _ Hret) as Hhead.
  apply _run_on_history_returns in Hret as (st & log & Hdisc & Hrun).
  destruct (_run_on_history_log_ind (changelog_visitor self :: rest) head
              (λ _ log, log = []) fuel st visited log Hdisc Hrun)
    as (-> & Hlog & _); [done| |].
  - intros visited0 log0 c cs r _ _ _ _ (cmcs & started & Hlen & Hst & ->) _.
    destruct cmcs as [|cmc cmcs]; [done|]. simpl in Hst.
    destruct (changelog_visitor self c cmc) as [[b k]|] eqn:Hk; [|done].
    simpl in Hst. destruct (outcome_map _ _) as [tl|]; [|done].
    injection Hst as <-. simpl.
    apply changelog_visitor_coroutine in Hk as ->.
    unfold changelog_resume. destruct (utc_strftime _); [|done]. simpl.
    unfold getitem. by rewrite lookup_singleton_ne.
  - apply Hlog in Hhead. by apply elem_of_nil in Hhead.
Qed.

(** ** Runs of the two built-in visitors *)

(** A run does not raise when every resolution of a discovered commit
    succeeds under an invariant that it keeps. *)
Section Resolution_safety.

Variable coroutines : gmap oid (list coroutine).
Variable all : list Commit.
Variable P : gmap oid result → list Commit → Prop.

Hypothesis P_progress : ∀ (visited : gmap oid result) log c,
  P visited log →
  log_is_dom visited log →
  c ∈ all →
  id c ∉ id <$> log →
  parents_ready coroutines visited c = true →
  ∃ cs r,
    coroutines !! id c = Some cs
    ∧ send_all cs {[ "commit-id" := PyOid (id c) ]} (parent_results_of visited c)
      = Returns r
    ∧ P (<[id c := r]> visited) (log ++ [c]).




End Resolution_safety.



Lemma release_number_resume_keys ev pre b tag (cr : result) prs r :
  release_number_resume ev pre b tag cr prs = Returns r →
  is_Some (r !! "epoch-version") ∧ is_Some (r !! "release-complete")
  ∧ r !! "commit-id" = cr !! "commit-id".
Proof.
  unfold release_number_resume.
  destruct (max_release ev prs None); [|done]. simpl. intros [= <-].
  split_and!; [by simplify_map_eq..|].
  by rewrite !lookup_insert_ne.
Qed.




Lemma previous_changelog_of_inv ptf (prs : list result) previous :
  previous_changelog_of ptf prs = Returns previous →
  previous = PyTuple []
  ∨ ∃ pr, pr ∈ prs ∧ previous = get_default pr "changelog" (PyTuple []).
Proof.
  induction prs as [|pr prs IH]; simpl.
  { intros [= <-]. by left. }
  destruct (getitem pr "commit-id") as [cid|]; [|done]. simpl.
  destruct (py_eq cid _).
  - intros [= <-]. right. exists pr. split; [by left|done].
  - intros [->|(pr' & ? & ->)]%IH; [by left|right].
    exists pr'. split; [by right|done].
Qed.

Lemma changelog_resume_shape commit sp blob changed ptf mu (cr : result)
    (prs : list result) r :
  changelog_resume commit sp blob changed ptf mu cr prs = Returns r →
  (∀ pr, pr ∈ prs →
         ∃ es, get_default pr "changelog" (PyTuple []) = PyTuple es) →
  ∃ es, r = <["changelog" := PyTuple es]> cr ∧ changelog_shape commit prs es.
Proof.
  intros Hr Htuples. revert Hr. unfold changelog_resume.
  destruct (utc_strftime _) as [date|]; [|done]. simpl.
  destruct (getitem cr "epoch-version") as [ev|]; [|done]. simpl.
  destruct (getitem cr "release-complete") as [rc|]; [|done]. simpl.
  assert (∀ e, entry_commit_id e = id commit →
               changelog_shape commit prs [e]) as Hone.
  { intros e He. exists [e], []. split_and!; [done| |by left].
    right. by exists e. }
  destruct sp; simpl.
  2: { intros [= <-]. exists []. split; [done|].
       exists [], []. split_and!; [done|by left|by left]. }
  destruct mu.
  { intros [= <-]. eexists [_]. split; [done|]. by apply Hone. }
  destruct changed.
  { intros [= <-]. eexists [_]. split; [done|]. apply Hone. by destruct blob. }
  destruct (if bool_decide (length (parents commit) = 1%nat) then _ else _)
    as [previous|] eqn:Hprevious; [|done].
  assert (∃ es, previous = PyTuple es
                ∧ (es = []
                   ∨ ∃ pr, pr ∈ prs
                           ∧ get_default pr "changelog" (PyTuple [])
                             = PyTuple es)) as (es & -> & Hes).
  { case_bool_decide.
    - destruct prs as [|pr prs]; [done|]. injection Hprevious as <-.
      destruct (Htuples pr) as [es Hes]; [by left|].
      exists es. split; [done|]. right. exists pr. split; [by left|done].
    - apply previous_changelog_of_inv in Hprevious as [->|(pr & Hpr & ->)].
      + exists []. split; [done|by left].
      + destruct (Htuples pr Hpr) as [es Hes].
        exists es. split; [done|]. right. by exists pr. }
  simpl. destruct (negb (skip_for_changelog_of _)).
  - destruct (negb (str_truthy _)); simpl; intros [= <-];
      (eexists (_ :: es); split; [done|];
       eexists [_], es; split_and!; [done| |done]; right; by eexists).
  - intros [= <-]. exists es. split; [done|].
    exists [], es. split_and!; [done|by left|done].
Qed.

Lemma parent_results_of_tuples coroutines (visited : gmap oid result) log c :
  builtin_inv coroutines visited log →
  ∀ pr, pr ∈ parent_results_of visited c →
        ∃ es, get_default pr "changelog" (PyTuple []) = PyTuple es
              ∧ entry_commit_id <$> es `sublist_of` reverse (id <$> log).
Proof.
  intros [_ Hres] pr (p & -> & Hp)%list_elem_of_fmap.
  unfold get_default. destruct (visited !! id p) as [rp|] eqn:Hrp; simpl.
  - destruct (Hres _ _ Hrp) as (_ & es & -> & Hsub). by exists es.
  - rewrite lookup_empty. exists []. split; [done|]. apply sublist_nil_l.
Qed.

Lemma builtin_step self coroutines (visited : gmap oid result) log c cs r :
  builtin_inv coroutines visited log →
  log_is_dom visited log →
  id c ∉ id <$> log →
  coroutines !! id c = Some cs →
  started_on [release_number_visitor self; changelog_visitor self] cs c →
  parents_ready coroutines visited c = true →
  send_all cs {[ "commit-id" := PyOid (id c) ]} (parent_results_of visited c)
  = Returns r →
  builtin_inv coroutines (<[id c := r]> visited) (log ++ [c]).
Proof.
  intros Hinv Hdom Hfresh Hcs Hon Hready Hsend.
  pose proof Hinv as [Hrel Hres]. split.
  { eapply (release_inv_step self [changelog_visitor self]); eauto. }
  assert (reverse (id <$> log ++ [c]) = id c :: reverse (id <$> log)) as Hrev.
  { by rewrite fmap_app, reverse_app. }
  rewrite Hrev. intros k r'. destruct (decide (id c = k)) as [<-|Hne].
  2: { rewrite lookup_insert_ne by done. intros Hr'.
       destruct (Hres _ _ Hr') as (? & es & ? & ?). split; [done|].
       exists es. split; [done|]. by apply sublist_cons. }
  rewrite lookup_insert_eq. intros [= <-].
  destruct Hon as (cmcs & started & Hlen & Hstarted & ->).
  destruct cmcs as [|cmc1 [|cmc2 [|]]]; try done. simpl in Hstarted.
  destruct (release_number_visitor self c cmc1) as [[b1 k1]|] eqn:H1; [|done].
  simpl in Hstarted.
  destruct (changelog_visitor self c cmc2) as [[b2 k2]|] eqn:H2; [|done].
  simpl in Hstarted. injection Hstarted as <-. simpl in Hsend.
  destruct (k1 _ _) as [r1|] eqn:Hr1; [|done]. simpl in Hsend.
  destruct (k2 _ _) as [r2|] eqn:Hr2; [|done]. simpl in Hsend.
  injection Hsend as ->.
  apply release_number_visitor_coroutine in H1 as (ev & pre & bs & tag & ->).
  apply release_number_resume_keys in Hr1 as (_ & _ & Hid).
  apply changelog_visitor_coroutine in H2 as ->.
  apply changelog_resume_shape in Hr2 as (es & -> & Hshape).
  2: { intros pr Hpr.
       destruct (parent_results_of_tuples _ _ _ c Hinv pr Hpr) as (es & ? & _).
       by exists es. }
  split.
  - rewrite lookup_insert_ne by done. rewrite Hid.
    by rewrite lookup_singleton_eq.
  - exists es. split; [by rewrite lookup_insert_eq|].
    destruct Hshape as (own & previous & -> & Hown & Hprev).
    assert (entry_commit_id <$> previous `sublist_of` reverse (id <$> log))
      as Hsub.
    { destruct Hprev as [->|(pr & Hpr & Hget)]; [apply sublist_nil_l|].
      destruct (parent_results_of_tuples _ _ _ c Hinv pr Hpr)
        as (es & Hes & Hsub).
      congruence. }
    destruct Hown as [->|(e & -> & He)]; simpl.
    + by apply sublist_cons.
    + rewrite He. by apply sublist_skip.
Qed.




(** X19.  With the two built-in visitors, the entries of every changelog
    come from commits that were resolved in the run, each from another
    one, the later resolved first. *)
Theorem changelog_entries_in_resolution_order self head fuel
    (visited : gmap oid result) log k r es :
  _run_on_history_log [release_number_visitor self; changelog_visitor self]
    head fuel
  = Some (Returns (visited, log)) →
  visited !! k = Some r →
  r !! "changelog" = Some (PyTuple es) →
  entry_commit_id <$> es `sublist_of` reverse (id <$> log)
  ∧ NoDup (entry_commit_id <$> es).
Proof.
  intros Hrun Hr Hes.
  destruct (_run_on_history_log_returns _ _ _ _ _ Hrun) as (st & Hdisc).
  destruct (_run_on_history_log_ind _ head (builtin_inv (commit_coroutines st))
              fuel st visited log Hdisc Hrun)
    as ([_ Hres] & _ & Hperm & [Hnd _ _]).
  - split; [split|]; [by intros k' r'; rewrite lookup_empty
                     |by intros c ?%elem_of_nil
                     |by intros k' r'; rewrite lookup_empty].
  - intros. by eapply builtin_step.
  - destruct (Hres _ _ Hr) as (_ & es' & Hes' & Hsub).
    assert (es' = es) as -> by congruence.
    split; [done|].
    apply (sublist_NoDup _ (reverse (id <$> log))); [|done].
    rewrite app_nil_r in Hnd. by rewrite reverse_Permutation, Hperm.
Qed.

(** ** The children of a commit *)

Lemma commit_children_inner (ps : list Commit) commit k child :
  ∀ acc : gmap oid (list Commit),
    child ∈ default []
              (foldl
                 (λ commit_children parent,
                    <[id parent :=
                        default [] (commit_children !! id parent) ++ [commit]]>
                      commit_children)
                 acc ps !! k)
    ↔ child ∈ default [] (acc !! k)
      ∨ (child = commit ∧ ∃ p, p ∈ ps ∧ id p = k).
Proof.
  induction ps as [|p ps IH]; intros acc; simpl.
  { split; [by left|]. by intros [?|(_ & ? & ?%elem_of_nil & _)]. }
  rewrite IH. destruct (decide (id p = k)) as [<-|Hne].
  - rewrite lookup_insert_eq. simpl. rewrite elem_of_app, list_elem_of_singleton.
    split.
    + intros [[?| ->]|(-> & q & Hq & Hk)]; [by left|right..].
      * split; [done|]. exists p. split; [by left|done].
      * split; [done|]. exists q. split; [by right|done].
    + intros [?|(-> & q & Hq & Hk)]; [left; by left|]. left. by right.
  - rewrite lookup_insert_ne by done. split.
    + intros [?|(-> & q & Hq & Hk)]; [by left|right].
      split; [done|]. exists q. split; [by right|done].
    + intros [?|(-> & q & [->|Hq]%elem_of_cons & Hk)]; [by left|done|right].
      split; [done|]. by exists q.
Qed.

Lemma commit_children_outer (walked : list Commit) k child :
  ∀ acc : gmap oid (list Commit),
    child ∈ default []
              (foldl
                 (λ commit_children commit,
                    foldl
                      (λ commit_children parent,
                         <[id parent :=
                             default [] (commit_children !! id parent)
                             ++ [commit]]> commit_children)
                      commit_children (parents commit))
                 acc walked !! k)
    ↔ child ∈ default [] (acc !! k)
      ∨ (child ∈ walked ∧ ∃ p, p ∈ parents child ∧ id p = k).
Proof.
  induction walked as [|commit walked IH]; intros acc; simpl.
  { split; [by left|]. by intros [?|(?%elem_of_nil & _)]. }
  rewrite IH, commit_children_inner. split.
  - intros [[?|(-> & Hp)]|(Hc & Hp)]; [by left|right..].
    + split; [by left|done].
    + split; [by right|done].
  - intros [?|([->|Hc]%elem_of_cons & Hp)]; [left; by left|left|right].
    + by right.
    + done.
Qed.

(** X20.  The children of a commit that the walker works with are the
    commits of the walk of the repository that have it, by its id, among
    their parents. *)
Theorem commit_children_of_spec head k child :
  child ∈ default [] (commit_children_of head !! k)
  ↔ child ∈ repo_walk head ∧ ∃ p, p ∈ parents child ∧ id p = k.
Proof.
  unfold commit_children_of. rewrite commit_children_outer, lookup_empty.
  simpl. split; [by intros [?%elem_of_nil|?]|by right].
Qed.

(** X21.  Once the only commit on the work list waits for a child that is
    not discovered, the discovery loop pops it and puts it back for ever:
    whatever the fuel, there is no result. *)
Theorem discovery_does_not_end_while_waiting visitors head commit_children
    c fuel st :
  commit_eqb c head = false →
  branch_heads st = [c] →
  discovered st c = false →
  forallb (discovered st) (default [] (commit_children !! id c)) = false →
  discover visitors head fuel commit_children st = None.
Proof. intros Hne Hheads Hnew Hchild. by apply (discover_defers_for_ever _ _ _ c). Qed.

(** ** When the metadata query raises *)



(** ** A run that stops at the head *)

(** X23.  When no visitor wants to continue at the head, the head is
    the only commit that is visited: it is resolved with an empty result
    for every parent, and its result is the result of the run. *)
Theorem run_stops_at_head visitors head fuel started r :
  outcome_map (λ vc : visitor * bool, vc.1 head vc.2)
    (zip visitors (map (λ _, true) visitors))
  = Returns started →
  existsb (λ b : bool, b) (started.*1) = false →
  (∀ p, p ∈ parents head → id p ≠ id head) →
  send_all (started.*2) {[ "commit-id" := PyOid (id head) ]}
    (map (λ _, ∅) (parents head))
  = Returns r →
  _run_on_history visitors head (S fuel) = Some (Returns {[ id head := r ]}).
Proof.
  intros Hstarted Hstop Hparents Hsend.
  assert (discovery_pass visitors head (S fuel)
          = Some (Returns
                    (Discovery {[ id head := started.*2 ]}
                       {[ id head := started.*1 ]} [] [[head]]))) as Hdisc.
  { unfold discovery_pass. cbn [discover branch_heads].
    rewrite follow_first_parents_unfold.
    assert (commit_eqb head head = true) as Hhead by by apply bool_decide_eq_true.
    unfold discovered at 1. cbn [commit_coroutines].
    rewrite lookup_empty, bool_decide_eq_false_2 by by intros [].
    cbn zeta. rewrite Hhead. cbn [negb andb mbind outcome_bind].
    rewrite Hstarted. cbn [mbind outcome_bind].
    rewrite Hstop. cbn [negb].
    cbn [commit_coroutines commit_coroutines_must_continue branch_heads
           branches app].
    by destruct fuel. }
  unfold _run_on_history, _run_on_history_log. rewrite Hdisc.
  cbn [commit_coroutines branches resolve].
  assert (parents_ready {[ id head := started.*2 ]} ∅ head = true) as Hready.
  { apply parents_ready_spec. intros p Hp. right.
    apply lookup_singleton_ne. by apply not_eq_sym, Hparents. }
  assert (parent_results_of ∅ head = map (λ _, ∅) (parents head)) as Hprs.
  { unfold parent_results_of. apply map_ext. intros p.
    by rewrite lookup_empty. }
  change (reverse [head]) with [head]. cbn [resolve_branch].
  rewrite Hready, lookup_singleton_eq, Hprs, Hsend.
  cbn [negb mbind outcome_bind]. rewrite insert_empty. by destruct fuel.
Qed.

(** The log of a run is a rearrangement of the branches of the discovery
    pass. *)
Lemma _run_on_history_log_branches visitors head fuel st
    (visited : gmap oid result) log :
  discovery_pass visitors head fuel = Some (Returns st) →
  _run_on_history_log visitors head fuel = Some (Returns (visited, log)) →
  log ≡ₚ concat (branches st).
Proof.
  intros Hdisc Hrun.
  by destruct (_run_on_history_log_ind visitors head (λ _ _, True) fuel st
                 visited log Hdisc Hrun) as (_ & _ & Hperm & _).
Qed.

(** ** Linear histories *)

Lemma first_parent_chain_unfold c :
  first_parent_chain c
  = c :: match parents c with
         | p :: _ => first_parent_chain p
         | [] => []
         end.
Proof. by destruct c. Qed.

(** In a chain of commits with at most one parent each, the parent of a
    commit comes right after it. *)
Lemma first_parent_chain_next h :
  ∀ l1 c l2 p,
    first_parent_chain h = l1 ++ c :: l2 →
    (length (parents c) ≤ 1)%nat →
    p ∈ parents c →
    ∃ l2', l2 = p :: l2'.
Proof.
  induction h as [h IH] using Commit_first_parent_ind.
  intros l1 c l2 p. rewrite first_parent_chain_unfold.
  destruct l1 as [|a l1]; simpl.
  - intros [= <- <-] Hlen Hp.
    destruct (parents h) as [|p0 [|? ?]] eqn:Hps; simpl in Hlen;
      [by apply elem_of_nil in Hp| |lia].
    apply list_elem_of_singleton in Hp as ->.
    rewrite first_parent_chain_unfold. by eexists.
  - intros [= <- Hrest] Hlen Hp.
    destruct (parents h) as [|p0 ps] eqn:Hps; [by destruct l1|].
    by eapply (IH p0 ps).
Qed.

Lemma discover_done visitors head fuel commit_children st :
  branch_heads st = [] →
  discover visitors head fuel commit_children st = Some (Returns st).
Proof. intros Hheads. destruct fuel; simpl; by rewrite Hheads. Qed.

Section Linear_history.

Variable visitors : list visitor.
Variable head : Commit.

Hypothesis one_parent :
  Forall (λ d, (length (parents d) ≤ 1)%nat) (first_parent_chain head).
Hypothesis distinct_ids : NoDup (id <$> first_parent_chain head).
Hypothesis walk_in_chain :
  ∀ d, d ∈ repo_walk head → d ∈ first_parent_chain head.

(** The first branch takes the commits of the chain one after the other:
    none has to wait for a child, and none brings a new branch head. *)
Lemma linear_follow_first_parents c :
  ∀ st branch st' branch' keep,
    first_parent_chain head = branch ++ first_parent_chain c →
    (∀ d, d ∈ branch → discovered st d = true) →
    branch_heads st = [] →
    follow_first_parents visitors head (commit_children_of head) c st branch
    = Returns (st', branch', keep) →
    branch_heads st' = [] ∧ ∃ rest, first_parent_chain head = branch' ++ rest.
Proof using one_parent distinct_ids walk_in_chain.
  induction c as [c IH] using Commit_first_parent_ind.
  intros st branch st' branch' keep Hchain Hseen Hheads.
  rewrite follow_first_parents_unfold.
  destruct (discovered st c) eqn:Hdisc.
  { intros [= <- <- <-]. split; [done|]. by eexists. }
  cbn zeta.
  destruct (negb (commit_eqb c head) && _) eqn:Hdefer.
  { exfalso. apply andb_true_iff in Hdefer as [Hne Hwait].
    apply negb_true_iff in Hwait.
    assert (forallb (discovered st)
              (default [] (commit_children_of head !! id c)) = true) as Hall.
    { apply forallb_forall. intros child Hchild%list_elem_of_In.
      apply commit_children_outer in Hchild as [Hchild|(Hw & p & Hp & Hid)].
      { rewrite lookup_empty in Hchild. by apply elem_of_nil in Hchild. }
      apply walk_in_chain in Hw. pose proof Hw as Hw'.
      rewrite Hchain in Hw'. apply elem_of_app in Hw' as [?|Hbelow]; [auto|].
      exfalso.
      apply list_elem_of_split in Hbelow as (l1 & l2 & Hsplit).
      assert (first_parent_chain head = (branch ++ l1) ++ child :: l2)
        as Hwhole.
      { by rewrite Hchain, Hsplit, <- app_assoc. }
      destruct (first_parent_chain_next _ _ _ _ p Hwhole) as (l2' & ->);
        [|done|].
      { rewrite Forall_forall in one_parent. by apply one_parent. }
      pose proof distinct_ids as Hnd. rewrite Hchain, fmap_app in Hnd.
      apply NoDup_app in Hnd as (_ & _ & Hnd).
      rewrite first_parent_chain_unfold in Hsplit, Hnd.
      rewrite fmap_cons in Hnd. apply NoDup_cons in Hnd as [Hnotin _].
      apply Hnotin. rewrite <- Hid. apply list_elem_of_fmap. exists p.
      split; [done|].
      destruct l1 as [|a l1]; simpl in Hsplit; injection Hsplit as -> Htl.
      - rewrite Htl. by left.
      - rewrite Htl. apply elem_of_app. right. right. by left. }
    congruence. }
  destruct (if commit_eqb c head then _ else _) as [cmcs|]; [|done].
  cbn [mbind outcome_bind].
  destruct (outcome_map _ (zip visitors cmcs)) as [started|]; [|done].
  cbn [mbind outcome_bind].
  assert (first_parent_chain head
          = (branch ++ [c]) ++ match parents c with
                               | p :: _ => first_parent_chain p
                               | [] => []
                               end) as Hchain'.
  { by rewrite Hchain, first_parent_chain_unfold, <- app_assoc. }
  destruct (negb (existsb _ _)).
  { intros [= <- <- <-]. split; [done|]. by eexists. }
  destruct (parents c) as [|first_parent branch_parents] eqn:Hps.
  { intros [= <- <- <-]. split; [done|]. by eexists. }
  assert (branch_parents = []) as ->.
  { assert (c ∈ first_parent_chain head) as Hc.
    { rewrite Hchain, first_parent_chain_unfold. apply elem_of_app. right.
      by left. }
    rewrite Forall_forall in one_parent. apply one_parent in Hc.
    rewrite Hps in Hc. destruct branch_parents; [done|simpl in Hc; lia]. }
  rewrite bool_decide_eq_false_2 by (simpl; lia).
  apply (IH _ _ eq_refl); [done| |done].
  intros d [Hd| ->%list_elem_of_singleton]%elem_of_app;
    apply bool_decide_eq_true; simpl.
  - apply Hseen in Hd. apply bool_decide_eq_true in Hd.
    destruct (decide (id c = id d)) as [->|?];
      [by rewrite lookup_insert_eq|by rewrite lookup_insert_ne].
  - by rewrite lookup_insert_eq.
Qed.

(** The one branch is resolved from its end to the head without a commit
    that has to wait. *)
Lemma linear_resolve_branch coroutines branch rest b1 :
  first_parent_chain head = branch ++ rest →
  (∀ k, is_Some (coroutines !! k) ↔ k ∈ id <$> branch) →
  ∀ b2 (visited : gmap oid result) log,
    branch = b1 ++ b2 →
    (∀ d, d ∈ b2 → is_Some (visited !! id d)) →
    match resolve_branch coroutines (reverse b1) visited log with
    | Returns (_, _, remaining) => remaining = []
    | Raises => True
    end.
Proof using one_parent distinct_ids.
  intros Hchain Hdom.
  induction b1 as [|c b1 IH] using rev_ind; intros b2 visited log Hsplit Hdone;
    [done|].
  rewrite reverse_snoc. cbn [resolve_branch].
  assert (parents_ready coroutines visited c = true) as ->.
  { apply parents_ready_spec. intros p Hp.
    assert (first_parent_chain head = b1 ++ c :: (b2 ++ rest)) as Hwhole.
    { by rewrite Hchain, Hsplit, <- !app_assoc. }
    destruct (first_parent_chain_next _ _ _ _ p Hwhole) as (l2' & Hnext);
      [|done|].
    { rewrite Forall_forall in one_parent. apply one_parent.
      rewrite Hwhole. apply elem_of_app. right. by left. }
    destruct b2 as [|p' b2]; simpl in Hnext.
    - right. apply eq_None_not_Some. rewrite Hdom.
      pose proof distinct_ids as Hnd.
      rewrite Hchain, fmap_app in Hnd.
      apply NoDup_app in Hnd as (_ & Hdisj & _).
      intros Hin. apply (Hdisj _ Hin). rewrite Hnext. rewrite fmap_cons.
      by left.
    - injection Hnext as -> _. left. apply Hdone. by left. }
  cbn [negb].
  destruct (coroutines !! id c) as [cs|]; [|done].
  destruct (send_all cs _ _) as [r|]; [|done]. cbn [mbind outcome_bind].
  apply (IH (c :: b2)).
  - by rewrite Hsplit, <- app_assoc.
  - intros d [->|Hd]%elem_of_cons.
    + by rewrite lookup_insert_eq.
    + destruct (decide (id c = id d)) as [->|?];
        [by rewrite lookup_insert_eq|rewrite lookup_insert_ne by done].
      by apply Hdone.
Qed.

(** X24.  On a linear history (every commit of the chain below the head
    has at most one parent, no id occurs twice, and the walk of the
    repository gives no other commits), the run ends, and each of the two
    loops of the walker runs its body once: one unit of fuel is enough. *)
Theorem run_ends_on_linear_history fuel :
  ∃ o, _run_on_history visitors head (S fuel) = Some o.
Proof using one_parent distinct_ids walk_in_chain.
  unfold _run_on_history, _run_on_history_log.
  destruct (discovery_pass visitors head (S fuel)) as [[st|]|] eqn:Hdisc;
    [|by eexists|].
  2: { exfalso. revert Hdisc. unfold discovery_pass. cbn [discover branch_heads].
       destruct (follow_first_parents _ _ _ _ _ _) as [[[st1 branch] keep]|]
         eqn:Hfollow; [|done].
       apply linear_follow_first_parents in Hfollow as [Hheads _];
         [|done|by intros d ?%elem_of_nil|done].
       by rewrite discover_done. }
  pose proof (discovery_pass_inv _ _ _ _ Hdisc) as [_ Hdom _].
  assert (∃ branch rest,
            first_parent_chain head = branch ++ rest
            ∧ concat (branches st) = branch
            ∧ (branches st = [branch] ∨ branches st = [])) as
    (branch & rest & Hchain & Hconcat & Hbranches).
  { revert Hdisc. unfold discovery_pass. cbn [discover branch_heads].
    destruct (follow_first_parents _ _ _ _ _ _) as [[[st1 branch] keep]|]
      eqn:Hfollow; [|done].
    pose proof Hfollow as Hfollow'.
    apply linear_follow_first_parents in Hfollow as [Hheads [rest Hrest]];
      [|done|by intros d ?%elem_of_nil|done].
    apply follow_first_parents_inv in Hfollow' as (_ & Hb & Hkeep).
    2: { split; simpl.
         - constructor.
         - intros k. rewrite lookup_empty.
           split; [by intros []|by intros ?%elem_of_nil].
         - by intros c ?%elem_of_nil. }
    rewrite discover_done by done. intros [= <-]. simpl. rewrite Hb. simpl.
    exists branch, rest. destruct keep; simpl.
    - split_and!; [done|by rewrite app_nil_r|by left].
    - rewrite (Hkeep eq_refl). split_and!; [by rewrite Hkeep in Hrest|done|].
      by right. }
  rewrite app_nil_r, Hconcat in Hdom.
  destruct Hbranches as [->| ->]; [|by eexists].
  cbn [resolve].
  pose proof (linear_resolve_branch (commit_coroutines st) branch rest branch
                Hchain Hdom [] ∅ []) as Hresolve.
  destruct (resolve_branch _ _ _ _) as [[[visited log] remaining]|];
    [|by eexists].
  rewrite Hresolve; [|by rewrite app_nil_r|by intros d ?%elem_of_nil].
  destruct fuel; by eexists.
Qed.

End Linear_history.

(** ** The release of a commit and its metadata *)

Lemma release_number_visitor_metadata self commit cmc b k :
  release_number_visitor self commit cmc = Returns (b, k) →
  ∃ vfo,
    _get_rpmverflags_for_commit self commit = Returns vfo
    ∧ k = release_number_resume (epoch_version <$> vfo) (vfo ≫= prerelease)
            (default 1 (vfo ≫= base))
            match vfo with
            | Some vf => tag_string_of (extraver vf) (snapinfo vf)
            | None => ""
            end.
Proof.
  unfold release_number_visitor.
  destruct (_get_rpmverflags_for_commit self commit) as [[vf|]|]; [| |done];
    simpl.
  - destruct (if negb _ then _ else _); [|done]. simpl.
    intros [= _ <-]. by exists (Some vf).
  - intros [= _ <-]. by exists None.
Qed.

(** X25.  In a run of the release-number visitor (alone, or followed by
    changelog visitors) that returns, the result of every resolved commit
    goes with the metadata of that commit: its epoch-version is that of
    the metadata ([None] without metadata), and its complete release is
    made of the prerelease marker, the release number moved by the base,
    and the extraver and snapinfo tags. *)
Theorem release_complete_follows_metadata self rest head fuel
    (visited : gmap oid result) log c r vfo :
  Forall (λ v, v = changelog_visitor self) rest →
  _run_on_history_log (release_number_visitor self :: rest) head fuel
  = Some (Returns (visited, log)) →
  c ∈ log →
  visited !! id c = Some r →
  _get_rpmverflags_for_commit self c = Returns vfo →
  r !! "epoch-version" = Some (of_opt_str (epoch_version <$> vfo))
  ∧ ∃ rn, r !! "release-number" = Some (PyInt rn)
          ∧ r !! "release-complete" = Some (PyStr (release_complete_of vfo rn)).
Proof.
  intros Hrest Hrun.
  destruct (_run_on_history_log_returns _ _ _ _ _ Hrun) as (st & Hdisc).
  revert c r vfo.
  destruct (_run_on_history_log_ind (release_number_visitor self :: rest) head
              (λ visited log,
                 ∀ c r vfo,
                   c ∈ log → visited !! id c = Some r →
                   _get_rpmverflags_for_commit self c = Returns vfo →
                   r !! "epoch-version"
                   = Some (of_opt_str (epoch_version <$> vfo))
                   ∧ ∃ rn, r !! "release-number" = Some (PyInt rn)
                           ∧ r !! "release-complete"
                             = Some (PyStr (release_complete_of vfo rn)))
              fuel st visited log Hdisc Hrun) as (HP & _); [| |exact HP].
  { by intros ? ? ? ?%elem_of_nil. }
  intros visited0 log0 c0 cs r0 HP _ Hfresh _ Hon _ Hsend c r vfo Hc.
  destruct (decide (id c0 = id c)) as [Heq|Hne].
  2: { rewrite lookup_insert_ne by done.
       apply elem_of_app in Hc as [Hc| ->%list_elem_of_singleton]; [|done].
       by apply HP. }
  rewrite <- Heq, lookup_insert_eq. intros [= <-].
  apply elem_of_app in Hc as [Hc| ->%list_elem_of_singleton].
  { exfalso. apply Hfresh. rewrite Heq. apply list_elem_of_fmap. by exists c. }
  intros Hvf.
  destruct Hon as (cmcs & started & Hlen & Hstarted & ->).
  destruct cmcs as [|cmc0 cmcs]; [done|]. simpl in Hstarted.
  destruct (release_number_visitor self c0 cmc0) as [[b0 k0]|] eqn:Hk0; [|done].
  simpl in Hstarted.
  destruct (outcome_map _ (zip rest cmcs)) as [started'|] eqn:Hstarted';
    [|done].
  injection Hstarted as <-. simpl in Hsend.
  apply release_number_visitor_metadata in Hk0 as (vfo' & Hvf' & ->).
  assert (vfo' = vfo) as -> by congruence.
  destruct (release_number_resume _ _ _ _ _ _) as [r1|] eqn:Hr1; [|done].
  simpl in Hsend.
  assert (∀ key, key ≠ "changelog" → r0 !! key = r1 !! key) as Hkeep.
  { intros key Hkey. eapply send_all_preserves; [|done].
    eapply (started_on_Forall rest _ c0); [|exact Hrest|].
    - intros v cmc b co -> Hv. apply changelog_visitor_coroutine in Hv as ->.
      by apply changelog_resume_preserves.
    - exists cmcs, started'. simpl in Hlen. split_and!; [lia|done..]. }
  rewrite !Hkeep by done.
  revert Hr1. unfold release_number_resume.
  destruct (max_release _ _ None) as [m|]; [|done]. simpl. intros [= <-].
  split; [by simplify_map_eq|].
  exists (m + 1). split; [by simplify_map_eq|].
  rewrite lookup_insert_eq. by destruct vfo.
Qed.

End Engine.


(** * The statements on the sample histories *)

Abbreviation sample_release :=
  (release_number_visitor Sample.rpm "tmp" Sample.pkg) (only parsing).

Abbreviation sample_changelog :=
  (changelog_visitor Sample.flat_diff Sample.strftime Sample.same Sample.same
     Sample.obj Sample.pkg) (only parsing).

Abbreviation sample_visitors := [sample_release; sample_changelog] (only parsing).

Abbreviation sample_run head fuel :=
  (_run_on_history_log Sample.walk sample_visitors head fuel) (only parsing).

(** C1 on the history of [c11], the merge of parents with the release
    numbers 3 and 5: it gets 6. *)
Lemma release_number_is_one_plus_max_witness :
  Forall (λ v, v = sample_changelog) [sample_changelog]
  ∧ match sample_run Sample.c11 8 with
    | Some (Returns (visited, log)) =>
        (∀ c, c ∈ log →
           ∃ r ev rn,
             visited !! id c = Some r
             ∧ r !! "epoch-version" = Some ev
             ∧ r !! "release-number" = Some (PyInt rn)
             ∧ rn = spec_release_number ev (parent_results_of visited c)
             ∧ 1 ≤ rn)
        ∧ (visited !! 3%positive) ≫= (.!! "release-number") = Some (PyInt 3)
        ∧ (visited !! 10%positive) ≫= (.!! "release-number") = Some (PyInt 5)
        ∧ (visited !! 11%positive) ≫= (.!! "release-number") = Some (PyInt 6)
    | _ => False
    end.
Proof.
  split; [by repeat constructor|].
  assert (match sample_run Sample.c11 8 with
          | Some (Returns (visited, log)) =>
              (visited !! 3%positive) ≫= (.!! "release-number") = Some (PyInt 3)
              ∧ (visited !! 10%positive) ≫= (.!! "release-number")
                = Some (PyInt 5)
              ∧ (visited !! 11%positive) ≫= (.!! "release-number")
                = Some (PyInt 6)
          | _ => False
          end) as Hvalues.
  { by vm_compute. }
  destruct (sample_run Sample.c11 8) as [[[visited log]|]|] eqn:Hrun; [|done..].
  split; [|done].
  apply (release_number_is_one_plus_max Sample.rpm "tmp" Sample.flat_diff
           Sample.strftime Sample.same Sample.same Sample.obj Sample.walk
           Sample.pkg [sample_changelog] Sample.c11 8 visited log
           (Forall_cons_2 _ _ _ eq_refl (Forall_nil_2 _)) Hrun).
Defined.

(** C2 as stated fails on [c7], a commit that changes nothing: its
    changelog did not change, no path changed, and yet an entry is put
    before the two entries of the parent. *)
Lemma empty_commit_gets_new_entry :
  changelog_unchanged Sample.c7
  ∧ changed_files_of Sample.flat_diff Sample.c7 (Some Sample.c2) = ∅
  ∧ match sample_run Sample.c7 8 with
    | Some (Returns (visited, _)) =>
        (visited !! 2%positive) ≫= (.!! "changelog")
        = Some (PyTuple [Sample.entry_c2; Sample.entry_c1])
        ∧ (visited !! 7%positive) ≫= (.!! "changelog")
          = Some (PyTuple [Sample.entry_c7; Sample.entry_c2; Sample.entry_c1])
    | _ => False
    end.
Proof.
  split_and!.
  - exists Sample.c2. split; [by left|done].
  - by vm_compute.
  - by vm_compute.
Qed.

(** C2, amended, on [c3], which only adds [gating.yaml]: with a parent
    result whose changelog is [[A, B]], the changelog is [[A, B]]. *)
Lemma changelog_inherited_when_all_ignored_witness :
  ∃ b k,
    sample_changelog Sample.c3 true = Returns (b, k)
    ∧ specfile_present_in Sample.pkg Sample.c3
    ∧ changelog_unchanged Sample.c3
    ∧ changed_files_of Sample.flat_diff Sample.c3 (Some Sample.c2)
      = {[ "gating.yaml" ]}
    ∧ k Sample.partial_c3 [Sample.parent_AB]
      = Returns
          (<["changelog" := PyTuple [Sample.entry_A; Sample.entry_B]]>
             Sample.partial_c3).
Proof.
  destruct (changelog_visitor_returns Sample.flat_diff Sample.strftime
              Sample.same Sample.same Sample.obj Sample.pkg Sample.c3 true)
    as (b & k & Hk).
  exists b, k.
  assert (specfile_present_in Sample.pkg Sample.c3) as Hspec by (by eexists).
  assert (changelog_unchanged Sample.c3) as Hun.
  { exists Sample.c2. split; [by left|done]. }
  assert (changed_files_of Sample.flat_diff Sample.c3 (Some Sample.c2)
          = {[ "gating.yaml" ]}) as Hfiles by (by vm_compute).
  split_and!; [done..|].
  refine (proj1 (changelog_inherited_when_all_ignored Sample.flat_diff
            Sample.strftime Sample.same Sample.same Sample.obj Sample.pkg
            Sample.c3 true b k Sample.partial_c3 [Sample.parent_AB]
            "day 20" (PyStr "1.0") (PyStr "3") Hk Hspec Hun _ _ _ _ _ _ _)).
  - simpl. lia.
  - done.
  - done.
  - done.
  - done.
  - simpl. rewrite Hfiles. by apply (non_empty_inhabited_L "gating.yaml"), elem_of_singleton.
  - simpl. rewrite Hfiles. intros f ->%elem_of_singleton.
    exists "gating.yaml". split; [|done]. right. by left.
Defined.

(** C3 fails on [c5], a merge with the tree of its first parent [c3]: the
    visitor follows [c3], whose changelog has two entries, but the loop
    over the parent results finds no result for it, so that nothing is
    inherited and the changelog of the merge is its own entry alone. *)
Lemma merge_inherits_nothing_from_followed_parent :
  parent_to_follow_of Sample.c5 (changelog_changed_of Sample.c5)
  = (Some Sample.c3, false)
  ∧ changelog_unchanged Sample.c5
  ∧ match sample_run Sample.c5 8 with
    | Some (Returns (visited, _)) =>
        (visited !! 3%positive) ≫= (.!! "changelog")
        = Some (PyTuple [Sample.entry_c2; Sample.entry_c1])
        ∧ previous_changelog_of (Some Sample.c3)
            (parent_results_of visited Sample.c5)
          = Returns (PyTuple [])
        ∧ (visited !! 5%positive) ≫= (.!! "changelog")
          = Some (PyTuple [Sample.entry_c5])
    | _ => False
    end.
Proof.
  split_and!.
  - by vm_compute.
  - exists Sample.c3. split; [by left|done].
  - by vm_compute.
Qed.

Lemma sample_trees_differ (t1 t2 : git_tree) (path : string) :
  t1 !! path ≠ t2 !! path → t1 ≠ t2.
Proof. by intros Hne ->. Qed.

(** C5 as stated fails on [d4], a merge in a history without the spec
    file: no parent has its tree, the changelog (absent) did not change,
    and its changelog is empty. *)
Lemma unresolvable_merge_without_spec_file :
  unresolvable_merge Sample.d4
  ∧ ¬ specfile_present_in Sample.pkg Sample.d4
  ∧ match sample_run Sample.d4 8 with
    | Some (Returns (visited, _)) =>
        (visited !! 24%positive) ≫= (.!! "changelog") = Some (PyTuple [])
    | _ => False
    end.
Proof.
  split_and!.
  - split_and!.
    + simpl. lia.
    + intros p Hp. apply (sample_trees_differ _ _ "README").
      apply elem_of_cons in Hp as [->|Hp]; [done|].
      apply list_elem_of_singleton in Hp as ->. done.
    + exists Sample.d2. split; [by left|done].
  - by intros [? [=]].
  - by vm_compute.
Qed.

(** C5, amended, on [c6], a merge with the spec file and the tree of no
    parent. *)
Lemma unresolvable_merge_single_entry_witness :
  ∃ b k,
    sample_changelog Sample.c6 true = Returns (b, k)
    ∧ unresolvable_merge Sample.c6
    ∧ specfile_present_in Sample.pkg Sample.c6
    ∧ k Sample.partial_c6 [Sample.parent_AB; Sample.parent_AB]
      = Returns
          (<["changelog" :=
               PyTuple
                 [ChangelogEntry 6 "* day 40 N <n@e> 1.0-4
- RPMAUTOSPEC: unresolvable merge" (Some "unresolvable merge")]]>
             Sample.partial_c6).
Proof.
  destruct (changelog_visitor_returns Sample.flat_diff Sample.strftime
              Sample.same Sample.same Sample.obj Sample.pkg Sample.c6 true)
    as (b & k & Hk).
  exists b, k.
  assert (unresolvable_merge Sample.c6) as Hun.
  { split_and!.
    - simpl. lia.
    - intros p Hp. apply (sample_trees_differ _ _ "a").
      apply elem_of_cons in Hp as [->|Hp]; [done|].
      apply list_elem_of_singleton in Hp as ->. done.
    - exists Sample.c3. split; [by left|done]. }
  assert (specfile_present_in Sample.pkg Sample.c6) as Hspec by (by eexists).
  split_and!; [done..|].
  exact (unresolvable_merge_single_entry Sample.flat_diff Sample.strftime
           Sample.same Sample.same Sample.obj Sample.pkg Sample.c6 true b k
           Sample.partial_c6 [Sample.parent_AB; Sample.parent_AB]
           "day 40" (PyStr "1.0") (PyStr "4") Hk Hun Hspec eq_refl eq_refl
           eq_refl).
Defined.

(** C8 as stated fails on [c8]: both visitors stop at the head, and its
    parent [c2], which the walk from the head reaches, gets no result. *)
Lemma reachable_commit_never_resolved :
  Sample.c2 ∈ Sample.walk Sample.c8
  ∧ match sample_run Sample.c8 8 with
    | Some (Returns (visited, log)) =>
        visited !! 2%positive = None ∧ id <$> log = [8%positive]
    | _ => False
    end.
Proof.
  split.
  - right. by left.
  - by vm_compute.
Qed.

(** C8, amended, on the history of the merge [c5]. *)
Lemma discovered_commits_resolved_once_witness :
  match sample_run Sample.c5 8 with
  | Some (Returns (visited, log)) =>
      ∃ st,
        discovery_pass Sample.walk sample_visitors Sample.c5 8
        = Some (Returns st)
        ∧ (NoDup (id <$> log)
           ∧ (∀ k, k ∈ id <$> log ↔ is_Some (commit_coroutines st !! k))
           ∧ (∀ k, is_Some (visited !! k) ↔ k ∈ id <$> log)
           ∧ parents_first (commit_coroutines st) log)
        ∧ id <$> log = [1; 2; 4; 3; 5]%positive
  | _ => False
  end.
Proof.
  assert (match sample_run Sample.c5 8 with
          | Some (Returns (visited, log)) => id <$> log = [1; 2; 4; 3; 5]%positive
          | _ => False
          end) as Hlog by (by vm_compute).
  destruct (sample_run Sample.c5 8) as [[[visited log]|]|] eqn:Hrun; [|done..].
  destruct (_run_on_history_log_returns _ _ _ _ _ _ Hrun) as (st & Hdisc).
  exists st. split; [done|]. split; [|done].
  exact (discovered_commits_resolved_once Sample.walk sample_visitors
           Sample.c5 8 st visited log Hdisc Hrun).
Defined.


(** C10 on the history of the merge [c5]. *)
Lemma commit_id_is_kept_witness :
  Forall (λ v, v = sample_release ∨ v = sample_changelog) sample_visitors
  ∧ match _run_on_history Sample.walk sample_visitors Sample.c5 8 with
    | Some (Returns visited) =>
        (∀ k r, visited !! k = Some r → r !! "commit-id" = Some (PyOid k))
        ∧ dom visited = {[ 1; 2; 3; 4; 5 ]}%positive
    | _ => False
    end.
Proof.
  assert (Forall (λ v, v = sample_release ∨ v = sample_changelog)
            sample_visitors) as Hvisitors.
  { repeat apply Forall_cons_2; [by left|by right|constructor]. }
  split; [done|].
  assert (match _run_on_history Sample.walk sample_visitors Sample.c5 8 with
          | Some (Returns visited) => dom visited = {[ 1; 2; 3; 4; 5 ]}%positive
          | _ => False
          end) as Hdom by (by vm_compute).
  destruct (_run_on_history Sample.walk sample_visitors Sample.c5 8)
    as [[visited|]|] eqn:Hrun; [|done..].
  split; [|done].
  exact (commit_id_is_kept Sample.rpm "tmp" Sample.flat_diff Sample.strftime
           Sample.same Sample.same Sample.obj Sample.walk Sample.pkg
           sample_visitors Sample.c5 8 visited Hvisitors Hrun).
Defined.

(** C6 on [c2], whose parent [c1] has the same epoch-version. *)
Lemma release_number_visitor_must_continue_witness :
  match _get_rpmverflags_for_commit Sample.rpm "tmp" Sample.pkg Sample.c2 with
  | Returns (Some vf) =>
      epoch_version vf = "1.0"
      ∧ ∃ b k,
          sample_release Sample.c2 true = Returns (b, k)
          ∧ (b = true ↔
             ∃ p vfp,
               p ∈ parents Sample.c2
               ∧ _get_rpmverflags_for_commit Sample.rpm "tmp" Sample.pkg p
                 = Returns (Some vfp)
               ∧ epoch_version vfp = epoch_version vf)
  | _ => False
  end.
Proof.
  assert (match _get_rpmverflags_for_commit Sample.rpm "tmp" Sample.pkg
                  Sample.c2 with
          | Returns (Some vf) => epoch_version vf = "1.0"
          | _ => False
          end) as Hev by (by vm_compute).
  destruct (_get_rpmverflags_for_commit Sample.rpm "tmp" Sample.pkg Sample.c2)
    as [[vf|]|] eqn:Hvf; [|done..].
  split; [done|].
  apply (proj2 (release_number_visitor_must_continue Sample.rpm "tmp"
                  Sample.pkg Sample.c2 true) vf Hvf).
  intros p Hp. apply list_elem_of_singleton in Hp as ->. by vm_compute.
Defined.


(** The discovery pass does not return on the history of [h0], whatever
    the fuel: the statements about runs are about the runs that return. *)
Lemma discovery_pass_can_go_on_for_ever fuel :
  discovery_pass Sample.walk sample_visitors Sample.h0 fuel = None.
Proof.
  unfold discovery_pass. destruct fuel as [|fuel]; [done|].
  change (discover sample_visitors Sample.h0 (S fuel)
            (commit_children_of Sample.walk Sample.h0)
            (Discovery ∅ ∅ [Sample.h0] []))
    with (match follow_first_parents sample_visitors Sample.h0
                  (commit_children_of Sample.walk Sample.h0) Sample.h0
                  (Discovery ∅ ∅ [] []) [] with
          | Raises => Some Raises
          | Returns (st, branch, keep) =>
              discover sample_visitors Sample.h0 fuel
                (commit_children_of Sample.walk Sample.h0)
                (Discovery (commit_coroutines st)
                   (commit_coroutines_must_continue st) (branch_heads st)
                   (branches st ++ if keep then [branch] else []))
          end).
  assert (match follow_first_parents sample_visitors Sample.h0
                  (commit_children_of Sample.walk Sample.h0) Sample.h0
                  (Discovery ∅ ∅ [] []) [] with
          | Raises => False
          | Returns (st, _, _) =>
              branch_heads st = [Sample.b0]
              ∧ discovered st Sample.b0 = false
              ∧ forallb (discovered st)
                  (default []
                     (commit_children_of Sample.walk Sample.h0 !! id Sample.b0))
                = false
          end) as Hfacts by (by vm_compute).
  destruct (follow_first_parents _ _ _ _ _ _) as [[[st branch] keep]|];
    [|done].
  destruct Hfacts as (Hheads & Hnew & Hchild).
  by apply (discover_defers_for_ever _ _ _ Sample.b0).
Qed.

(** * The further properties on the sample histories *)

(** X3 on [d1], which has no spec file. *)
Lemma changelog_empty_without_spec_file_witness :
  ∃ b k,
    sample_changelog Sample.d1 true = Returns (b, k)
    ∧ ¬ specfile_present_in Sample.pkg Sample.d1
    ∧ (b = false
       ∧ k Sample.partial_c3 []
         = Returns (<["changelog" := PyTuple []]> Sample.partial_c3)).
Proof.
  destruct (changelog_visitor_returns Sample.flat_diff Sample.strftime
              Sample.same Sample.same Sample.obj Sample.pkg Sample.d1 true)
    as (b & k & Hk).
  exists b, k.
  assert (¬ specfile_present_in Sample.pkg Sample.d1) as Hspec.
  { by intros [? [=]]. }
  split; [done|]. split; [done|].
  exact (changelog_empty_without_spec_file Sample.flat_diff Sample.strftime
           Sample.same Sample.same Sample.obj Sample.pkg Sample.d1 true b k
           Sample.partial_c3 [] "day 0" (PyStr "1.0") (PyStr "3") Hk Hspec
           eq_refl eq_refl eq_refl).
Defined.



(** X7 on the history of [c11]: [c2] and its parent [c1] have the same
    epoch-version. *)
Lemma release_number_increases_witness :
  match sample_run Sample.c11 8 with
  | Some (Returns (visited, log)) =>
      ∃ rc rp,
        visited !! 2%positive = Some rc
        ∧ visited !! 1%positive = Some rp
        ∧ ∃ rnc rnp,
            rc !! "release-number" = Some (PyInt rnc)
            ∧ rp !! "release-number" = Some (PyInt rnp)
            ∧ rnp < rnc
  | _ => False
  end.
Proof.
  assert (match sample_run Sample.c11 8 with
          | Some (Returns (visited, log)) =>
              log = [Sample.c1; Sample.c2; Sample.c4; Sample.c9; Sample.c10;
                     Sample.c3; Sample.c11]
              ∧ (visited !! 2%positive) ≫= (.!! "epoch-version")
                = Some (PyStr "1.0")
              ∧ (visited !! 1%positive) ≫= (.!! "epoch-version")
                = Some (PyStr "1.0")
          | _ => False
          end) as Hfacts by (vm_compute; split_and!; reflexivity).
  destruct (sample_run Sample.c11 8) as [[[visited log]|]|] eqn:Hrun;
    [|destruct Hfacts..].
  destruct Hfacts as (Hlog & H2 & H1).
  destruct (visited !! 2%positive) as [rc|] eqn:Hrc; [|discriminate H2].
  destruct (visited !! 1%positive) as [rp|] eqn:Hrp; [|discriminate H1].
  change (rc !! "epoch-version" = Some (PyStr "1.0")) in H2.
  change (rp !! "epoch-version" = Some (PyStr "1.0")) in H1.
  exists rc, rp. split; [reflexivity|]. split; [reflexivity|].
  refine (release_number_increases Sample.rpm "tmp" Sample.flat_diff
            Sample.strftime Sample.same Sample.same Sample.obj Sample.walk
            Sample.pkg [sample_changelog] Sample.c11 8 visited log Sample.c2
            Sample.c1 rc rp (PyStr "1.0")
            (Forall_cons_2 _ _ _ eq_refl (Forall_nil_2 _)) Hrun _ _ Hrc Hrp
            H2 H1).
  - rewrite Hlog. right. left.
  - left.
Defined.

(** X8 on the history of [c3]: the root [c1] has the release number 1. *)
Lemma release_number_starts_at_one_witness :
  match sample_run Sample.c3 8 with
  | Some (Returns (visited, log)) =>
      ∃ rc, visited !! 1%positive = Some rc
            ∧ rc !! "release-number" = Some (PyInt 1)
  | _ => False
  end.
Proof.
  assert (match sample_run Sample.c3 8 with
          | Some (Returns (visited, log)) =>
              log = [Sample.c1; Sample.c2; Sample.c3]
              ∧ (visited !! 1%positive) ≫= (.!! "epoch-version")
                = Some (PyStr "1.0")
          | _ => False
          end) as Hfacts by (vm_compute; split_and!; reflexivity).
  destruct (sample_run Sample.c3 8) as [[[visited log]|]|] eqn:Hrun;
    [|destruct Hfacts..].
  destruct Hfacts as (Hlog & H1).
  destruct (visited !! 1%positive) as [rc|] eqn:Hrc; [|discriminate H1].
  change (rc !! "epoch-version" = Some (PyStr "1.0")) in H1.
  exists rc. split; [reflexivity|].
  refine (release_number_starts_at_one Sample.rpm "tmp" Sample.flat_diff
            Sample.strftime Sample.same Sample.same Sample.obj Sample.walk
            Sample.pkg [sample_changelog] Sample.c3 8 visited log Sample.c1
            rc (PyStr "1.0")
            (Forall_cons_2 _ _ _ eq_refl (Forall_nil_2 _)) Hrun _ Hrc H1 _).
  - rewrite Hlog. left.
  - intros p rp ev' Hp. destruct (proj1 (elem_of_nil p) Hp).
Defined.

(** X10 on the extraver [pre_1]. *)
Lemma autorelease_flags_lost_with_underscore_witness :
  (no_underscore "pre_1" = false ∨ no_underscore "" = false)
  ∧ autorelease_flags_re_match (autorelease_info "pre_1" "" "0" "") = None.
Proof.
  split; [by left|].
  exact (autorelease_flags_lost_with_underscore "pre_1" "" "0" ""
           (or_introl eq_refl)).
Defined.


(** X12 on the history of the merge [c5], for the id of [c2]. *)
Lemma discovered_iff_wanted_witness :
  match sample_run Sample.c5 8 with
  | Some (Returns _) =>
      ∃ st,
        discovery_pass Sample.walk sample_visitors Sample.c5 8
        = Some (Returns st)
        ∧ (is_Some (commit_coroutines st !! 2%positive)
           ↔ 2%positive = id Sample.c5
             ∨ wanted (commit_coroutines_must_continue st)
                 (concat (branches st)) 2%positive)
  | _ => False
  end.
Proof.
  assert (match sample_run Sample.c5 8 with
          | Some (Returns _) => True
          | _ => False
          end) as Hret by (vm_compute; exact I).
  destruct (sample_run Sample.c5 8) as [[[visited log]|]|] eqn:Hrun;
    [|destruct Hret..].
  destruct (_run_on_history_log_returns _ _ _ _ _ _ Hrun) as (st & Hdisc).
  exists st. split; [exact Hdisc|].
  exact (discovered_iff_wanted Sample.walk sample_visitors Sample.c5 8 st
           2%positive Hdisc).
Defined.

(** X13 on the history of the merge [c5]: [c2] and its child [c4]. *)
Lemma discovery_children_first_witness :
  match sample_run Sample.c5 8 with
  | Some (Returns _) =>
      ∃ st,
        discovery_pass Sample.walk sample_visitors Sample.c5 8
        = Some (Returns st)
        ∧ Sample.c2 ∈ concat (branches st)
        ∧ id Sample.c2 ≠ id Sample.c5
        ∧ Sample.c4
          ∈ default [] (commit_children_of Sample.walk Sample.c5 !! id Sample.c2)
        ∧ discovered st Sample.c4 = true
  | _ => False
  end.
Proof.
  assert (match sample_run Sample.c5 8 with
          | Some (Returns (_, log)) =>
              log = [Sample.c1; Sample.c2; Sample.c4; Sample.c3; Sample.c5]
          | _ => False
          end) as Hlog by (vm_compute; reflexivity).
  assert (default [] (commit_children_of Sample.walk Sample.c5 !! id Sample.c2)
          = [Sample.c3; Sample.c4]) as Hchildren by (vm_compute; reflexivity).
  destruct (sample_run Sample.c5 8) as [[[visited log]|]|] eqn:Hrun;
    [|destruct Hlog..].
  destruct (_run_on_history_log_returns _ _ _ _ _ _ Hrun) as (st & Hdisc).
  assert (Sample.c2 ∈ concat (branches st)) as Hc.
  { rewrite <- (_run_on_history_log_branches _ _ _ _ _ _ _ Hdisc Hrun), Hlog.
    right. left. }
  assert (id Sample.c2 ≠ id Sample.c5) as Hne by (intros [=]).
  assert (Sample.c4
          ∈ default [] (commit_children_of Sample.walk Sample.c5 !! id Sample.c2))
    as Hchild.
  { rewrite Hchildren. right. left. }
  exists st. split; [exact Hdisc|]. split; [exact Hc|]. split; [exact Hne|].
  split; [exact Hchild|].
  exact (discovery_children_first Sample.walk sample_visitors Sample.c5 8 st
           Sample.c2 Sample.c4 Hdisc Hc Hne Hchild).
Defined.

(** X14 on the history of the merge [c5], for [c3]. *)
Lemma visitors_started_with_children_flags_witness :
  match sample_run Sample.c5 8 with
  | Some (Returns _) =>
      ∃ st,
        discovery_pass Sample.walk sample_visitors Sample.c5 8
        = Some (Returns st)
        ∧ Sample.c3 ∈ concat (branches st)
        ∧ ∃ cmcs started,
            children_flags sample_visitors Sample.c5
              (commit_children_of Sample.walk Sample.c5)
              (commit_coroutines_must_continue st) Sample.c3 cmcs
            ∧ outcome_map (λ vc : visitor * bool, vc.1 Sample.c3 vc.2)
                (zip sample_visitors cmcs)
              = Returns started
            ∧ commit_coroutines st !! id Sample.c3 = Some (started.*2)
            ∧ commit_coroutines_must_continue st !! id Sample.c3
              = Some (started.*1)
  | _ => False
  end.
Proof.
  assert (match sample_run Sample.c5 8 with
          | Some (Returns (_, log)) =>
              log = [Sample.c1; Sample.c2; Sample.c4; Sample.c3; Sample.c5]
          | _ => False
          end) as Hlog by (vm_compute; reflexivity).
  destruct (sample_run Sample.c5 8) as [[[visited log]|]|] eqn:Hrun;
    [|destruct Hlog..].
  destruct (_run_on_history_log_returns _ _ _ _ _ _ Hrun) as (st & Hdisc).
  assert (Sample.c3 ∈ concat (branches st)) as Hc.
  { rewrite <- (_run_on_history_log_branches _ _ _ _ _ _ _ Hdisc Hrun), Hlog.
    do 3 right. left. }
  exists st. split; [exact Hdisc|]. split; [exact Hc|].
  exact (visitors_started_with_children_flags Sample.walk sample_visitors
           Sample.c5 8 st Sample.c3 Hdisc Hc).
Defined.

(** X15 on the history of the merge [c5]. *)
Lemma run_gives_head_result_witness :
  match _run_on_history Sample.walk sample_visitors Sample.c5 8 with
  | Some (Returns visited) =>
      ∃ r,
        visited !! id Sample.c5 = Some r
        ∧ run Sample.walk sample_visitors Sample.c5 8 false
          = Some (Returns (HeadResult r))
        ∧ run Sample.walk sample_visitors Sample.c5 8 true
          = Some (Returns (AllResults visited))
  | _ => False
  end.
Proof.
  assert (match _run_on_history Sample.walk sample_visitors Sample.c5 8 with
          | Some (Returns _) => True
          | _ => False
          end) as Hret by (vm_compute; exact I).
  destruct (_run_on_history Sample.walk sample_visitors Sample.c5 8)
    as [[visited|]|] eqn:Hrun; [|destruct Hret..].
  exact (run_gives_head_result Sample.walk sample_visitors Sample.c5 8 visited
           Hrun).
Defined.

(** X16 on [e1], on which the release-number visitor raises. *)
Lemma run_raises_only_from_visitors_witness :
  run Sample.walk sample_visitors Sample.e1 8 true = Some Raises
  ∧ ((∃ v c cmc, v ∈ sample_visitors ∧ v c cmc = Raises)
     ∨ (∃ v c cmc b k cr prs,
          v ∈ sample_visitors ∧ v c cmc = Returns (b, k) ∧ k cr prs = Raises)).
Proof.
  assert (run Sample.walk sample_visitors Sample.e1 8 true = Some Raises)
    as Hrun by (vm_compute; reflexivity).
  split; [exact Hrun|].
  exact (run_raises_only_from_visitors Sample.walk sample_visitors Sample.e1 8
           true Hrun).
Defined.


(** X19 on the history of the merge [c5], for the changelog of [c3]. *)
Lemma changelog_entries_in_resolution_order_witness :
  match sample_run Sample.c5 8 with
  | Some (Returns (visited, log)) =>
      id <$> log = [1; 2; 4; 3; 5]%positive
      ∧ ∃ r,
          visited !! 3%positive = Some r
          ∧ r !! "changelog" = Some (PyTuple [Sample.entry_c2; Sample.entry_c1])
          ∧ (entry_commit_id <$> [Sample.entry_c2; Sample.entry_c1]
               `sublist_of` reverse (id <$> log)
             ∧ NoDup (entry_commit_id <$> [Sample.entry_c2; Sample.entry_c1]))
  | _ => False
  end.
Proof.
  assert (match sample_run Sample.c5 8 with
          | Some (Returns (visited, log)) =>
              id <$> log = [1; 2; 4; 3; 5]%positive
              ∧ (visited !! 3%positive) ≫= (.!! "changelog")
                = Some (PyTuple [Sample.entry_c2; Sample.entry_c1])
          | _ => False
          end) as Hfacts by (vm_compute; split; reflexivity).
  destruct (sample_run Sample.c5 8) as [[[visited log]|]|] eqn:Hrun;
    [|destruct Hfacts..].
  destruct Hfacts as (Hlog & H3). split; [exact Hlog|].
  destruct (visited !! 3%positive) as [r|] eqn:Hr; [|discriminate H3].
  change (r !! "changelog" = Some (PyTuple [Sample.entry_c2; Sample.entry_c1]))
    in H3.
  exists r. split; [reflexivity|]. split; [exact H3|].
  exact (changelog_entries_in_resolution_order Sample.rpm "tmp" Sample.flat_diff
           Sample.strftime Sample.same Sample.same Sample.obj Sample.walk
           Sample.pkg Sample.c5 8 visited log 3%positive r
           [Sample.entry_c2; Sample.entry_c1] Hrun Hr H3).
Defined.

(** X21 on the history of [h0]: after the first branch, [b0] is alone on
    the work list and waits for its child [cc], which is never
    discovered. *)
Lemma discovery_does_not_end_while_waiting_witness :
  match follow_first_parents sample_visitors Sample.h0
          (commit_children_of Sample.walk Sample.h0) Sample.h0
          (Discovery ∅ ∅ [] []) [] with
  | Returns (st, _, _) =>
      commit_eqb Sample.b0 Sample.h0 = false
      ∧ branch_heads st = [Sample.b0]
      ∧ discovered st Sample.b0 = false
      ∧ forallb (discovered st)
          (default []
             (commit_children_of Sample.walk Sample.h0 !! id Sample.b0))
        = false
      ∧ discover sample_visitors Sample.h0 5
          (commit_children_of Sample.walk Sample.h0) st = None
  | Raises => False
  end.
Proof.
  assert (match follow_first_parents sample_visitors Sample.h0
                  (commit_children_of Sample.walk Sample.h0) Sample.h0
                  (Discovery ∅ ∅ [] []) [] with
          | Raises => False
          | Returns (st, _, _) =>
              branch_heads st = [Sample.b0]
              ∧ discovered st Sample.b0 = false
              ∧ forallb (discovered st)
                  (default []
                     (commit_children_of Sample.walk Sample.h0 !! id Sample.b0))
                = false
          end) as Hfacts by (vm_compute; split_and!; reflexivity).
  destruct (follow_first_parents _ _ _ _ _ _) as [[[st branch] keep]|];
    [|destruct Hfacts].
  destruct Hfacts as (Hheads & Hnew & Hchild).
  split; [reflexivity|]. split; [exact Hheads|]. split; [exact Hnew|].
  split; [exact Hchild|].
  exact (discovery_does_not_end_while_waiting sample_visitors Sample.h0
           (commit_children_of Sample.walk Sample.h0) Sample.b0 5 st eq_refl
           Hheads Hnew Hchild).
Defined.

(** X23 on [c8], at which both visitors stop. *)
Lemma run_stops_at_head_witness :
  match outcome_map (λ vc : visitor * bool, vc.1 Sample.c8 vc.2)
          (zip sample_visitors (map (λ _, true) sample_visitors)) with
  | Returns started =>
      existsb (λ b : bool, b) (started.*1) = false
      ∧ (∀ p, p ∈ parents Sample.c8 → id p ≠ id Sample.c8)
      ∧ match send_all (started.*2) {[ "commit-id" := PyOid (id Sample.c8) ]}
                (map (λ _, ∅) (parents Sample.c8)) with
        | Returns r =>
            _run_on_history Sample.walk sample_visitors Sample.c8 (S 7)
            = Some (Returns {[ id Sample.c8 := r ]})
        | Raises => False
        end
  | Raises => False
  end.
Proof.
  assert (match outcome_map (λ vc : visitor * bool, vc.1 Sample.c8 vc.2)
                  (zip sample_visitors (map (λ _, true) sample_visitors)) with
          | Returns started =>
              existsb (λ b : bool, b) (started.*1) = false
              ∧ match send_all (started.*2)
                        {[ "commit-id" := PyOid (id Sample.c8) ]}
                        (map (λ _, ∅) (parents Sample.c8)) with
                | Returns r => True
                | Raises => False
                end
          | Raises => False
          end) as Hfacts by (vm_compute; split; [reflexivity|exact I]).
  destruct (outcome_map _ _) as [started|] eqn:Hstarted; [|destruct Hfacts].
  destruct Hfacts as (Hstop & Hsend).
  assert (∀ p, p ∈ parents Sample.c8 → id p ≠ id Sample.c8) as Hparents.
  { intros p Hp. apply list_elem_of_singleton in Hp. rewrite Hp. intros [=]. }
  split; [exact Hstop|]. split; [exact Hparents|].
  destruct (send_all _ _ _) as [r|] eqn:Hr; [|destruct Hsend].
  exact (run_stops_at_head Sample.walk sample_visitors Sample.c8 7 started r
           Hstarted Hstop Hparents Hr).
Defined.

(** X24 on the history of [c3], a chain of three commits. *)
Lemma run_ends_on_linear_history_witness :
  Forall (λ d, (length (parents d) ≤ 1)%nat) (first_parent_chain Sample.c3)
  ∧ NoDup (id <$> first_parent_chain Sample.c3)
  ∧ (∀ d, d ∈ Sample.walk Sample.c3 → d ∈ first_parent_chain Sample.c3)
  ∧ ∃ o, _run_on_history Sample.walk sample_visitors Sample.c3 1 = Some o.
Proof.
  assert (Forall (λ d, (length (parents d) ≤ 1)%nat)
            (first_parent_chain Sample.c3)) as Hone.
  { repeat apply Forall_cons_2; [simpl; lia..|apply Forall_nil_2]. }
  assert (NoDup (id <$> first_parent_chain Sample.c3)) as Hids.
  { apply (bool_decide_unpack _). vm_compute. exact I. }
  assert (∀ d, d ∈ Sample.walk Sample.c3 → d ∈ first_parent_chain Sample.c3)
    as Hwalk.
  { assert (Sample.walk Sample.c3 = first_parent_chain Sample.c3) as ->
      by (vm_compute; reflexivity).
    intros d Hd. exact Hd. }
  split; [exact Hone|]. split; [exact Hids|]. split; [exact Hwalk|].
  exact (run_ends_on_linear_history Sample.walk sample_visitors Sample.c3 Hone
           Hids Hwalk 0).
Defined.

(** X25 on the history of [c3], for [c2]. *)
Lemma release_complete_follows_metadata_witness :
  match sample_run Sample.c3 8,
        _get_rpmverflags_for_commit Sample.rpm "tmp" Sample.pkg Sample.c2 with
  | Some (Returns (visited, log)), Returns vfo =>
      ∃ r,
        visited !! 2%positive = Some r
        ∧ r !! "release-complete" = Some (PyStr "2")
        ∧ (r !! "epoch-version" = Some (of_opt_str (epoch_version <$> vfo))
           ∧ ∃ rn,
               r !! "release-number" = Some (PyInt rn)
               ∧ r !! "release-complete"
                 = Some (PyStr (release_complete_of vfo rn)))
  | _, _ => False
  end.
Proof.
  assert (match sample_run Sample.c3 8,
                _get_rpmverflags_for_commit Sample.rpm "tmp" Sample.pkg
                  Sample.c2 with
          | Some (Returns (visited, log)), Returns vfo =>
              log = [Sample.c1; Sample.c2; Sample.c3]
              ∧ (visited !! 2%positive) ≫= (.!! "release-complete")
                = Some (PyStr "2")
          | _, _ => False
          end) as Hfacts by (vm_compute; split; reflexivity).
  destruct (sample_run Sample.c3 8) as [[[visited log]|]|] eqn:Hrun;
    [|destruct Hfacts..].
  destruct (_get_rpmverflags_for_commit Sample.rpm "tmp" Sample.pkg Sample.c2)
    as [vfo|] eqn:Hvf; [|destruct Hfacts].
  destruct Hfacts as (Hlog & H2).
  destruct (visited !! 2%positive) as [r|] eqn:Hr; [|discriminate H2].
  change (r !! "release-complete" = Some (PyStr "2")) in H2.
  exists r. split; [reflexivity|]. split; [exact H2|].
  refine (release_complete_follows_metadata Sample.rpm "tmp" Sample.flat_diff
            Sample.strftime Sample.same Sample.same Sample.obj Sample.walk
            Sample.pkg [sample_changelog] Sample.c3 8 visited log Sample.c2 r
            vfo (Forall_cons_2 _ _ _ eq_refl (Forall_nil_2 _)) Hrun _ Hr Hvf).
  rewrite Hlog. right. left.
Defined.

(** * The string functions on examples *)

Example strip_example : strip "  a b
 " = "a b".
Proof. reflexivity. Qed.

Example split_lines_example : split_lines "1:2.0
E_S_P1_B3" = ["1:2.0"; "E_S_P1_B3"].
Proof. reflexivity. Qed.

Example autorelease_flags_example :
  autorelease_flags_re_match "Epre_S20200101git_P1_B12"
  = Some ("pre", "20200101git", "1", "12").
Proof. reflexivity. Qed.

Example autorelease_flags_no_match :
  autorelease_flags_re_match "1%{?dist}" = None.
Proof. reflexivity. Qed.

Example fnmatchcase_tests : fnmatchcase "tests/unit/test_a.py" "tests/*" = true.
Proof. reflexivity. Qed.

Example fnmatchcase_sources : fnmatchcase "sources" "sources" = true.
Proof. reflexivity. Qed.

Example fnmatchcase_spec : fnmatchcase "pkg.spec" "tests/*" = false.
Proof. reflexivity. Qed.

Example _get_rpmverflags_example :
  _get_rpmverflags Sample.rpm
    (Directory "pkg" {[ "pkg.spec" := "1:2.0
Epre_S_P1_B3
" ]}) None
  = Returns (Some (VerFlags "1:2.0" (Some "pre") None (Some true) (Some 3))).
Proof. reflexivity. Qed.

(** One line of output only: the index [1] is out of range. *)
Example _get_rpmverflags_one_line :
  _get_rpmverflags Sample.rpm (Directory "pkg" {[ "pkg.spec" := "2.0" ]}) None
  = Raises.
Proof. reflexivity. Qed.
